(** * MorseEnDecoder: the Morse decoder and encoder of the CW trainer

    A shallow embedding of [morseDecoder] and [morseEncoder]
    (MorseEnDecoder.cpp) and the properties of the codec.

    Conventions of the embedding.
    - C++ [int] and [long] values are modelled as [Z].  Every arithmetic
      expression of the source is written out with the source's operators:
      [/] is [Z.quot] (truncation towards zero), [%] is [Z.rem], [<<] is
      [Z.shiftl], [&] is [Z.land].  Signed overflow is undefined behaviour in
      C++; the model describes the runs in which the millisecond clock and
      the timers stay inside their type.
    - [char] is modelled as the integer value of the character, [chr]
      converts an ASCII literal.
    - [millis()], [digitalRead] and [analogRead] are inputs of a tick;
      [digitalWrite] on the output pin is an output of the encoder,
      modelled by threading the pin level through [encode].
    - The class declarations (MorseEnDecoder.h) are not part of the
      sources at hand; the records below list the members that the
      member functions use, with the values the constructors give them. *)

From Stdlib Require Import ZArith List Bool Ascii String Lia.
Import ListNotations.
Local Open Scope Z_scope.

(** ** Characters and the dichotomic table *)

Definition char := Z.

Definition chr (a : ascii) : char := Z.of_N (N_of_ascii a).

Definition chars (s : string) : list char := map chr (list_ascii_of_string s).

(** [const int morseTreetop = 63;] *)
Definition morseTreetop : Z := 63.

(** [const int morseTableLength = (morseTreetop*2)+1;] *)
Definition morseTableLength : Z := (morseTreetop * 2) + 1.

(** [const int morseTreeLevels = log(morseTreetop+1)/log(2);]  The
    floating-point quotient log(64)/log(2) is 6, the depth of the tree. *)
Definition morseTreeLevels : Z := 6.

(** [char morseTable[]]: the ITU table with punctuation.  The character
    after [L] is the quotation mark (code 34). *)
Definition morseTable : list char :=
  chars "*5*H*4*S***V*3*I***F***U?*_**2*E***L" ++ [34] ++
  chars "**R*+.****A***P@**W***J'1* *6-B*=*D*/" ++
  chars "*X***N***C;*!K*()Y***T*7*Z**,G***Q***M:8*!***O*9***0*".

(** [morseTable[p]].  The array holds the 127 characters and the
    terminating NUL; reading outside of it is undefined in C++ and is [None]
    here. *)
Definition morseTable_at (p : Z) : option char :=
  if (0 <=? p) && (p <=? morseTableLength)
  then Some (nth (Z.to_nat p) morseTable 0)
  else None.

Definition table_char (p : Z) : char :=
  match morseTable_at p with Some c => c | None => 0 end.

(** The two readings of the input pin that a tick may perform. *)
Record sample := { digitalRead : bool; analogRead : Z }.

(** ** The decoder *)
Module morseDecoder.

Record t := mk {
  morseInPin : Z;
  morseAudio : bool;
  activeLow : bool;
  wpm : Z;
  AudioThreshold : Z;
  debounceDelay : Z;
  dotTime : Z;
  dashTime : Z;
  wordSpace : Z;
  morseTableJumper : Z;
  morseTablePointer : Z;
  morseKeyer : bool;
  morseSignalState : bool;
  lastKeyerState : bool;
  gotLastSig : bool;
  morseSpace : bool;
  decodedMorseChar : char;
  lastDebounceTime : Z;
  markTime : Z;
  spaceTime : Z;
  currentTime : Z;
  audioSignal : Z
}.

(** Assignments to single members. *)
Definition set_timing (w dot dash ws : Z) (d : t) : t :=
  mk (morseInPin d) (morseAudio d) (activeLow d) w (AudioThreshold d)
     (debounceDelay d) dot dash ws (morseTableJumper d) (morseTablePointer d)
     (morseKeyer d) (morseSignalState d) (lastKeyerState d) (gotLastSig d)
     (morseSpace d) (decodedMorseChar d) (lastDebounceTime d) (markTime d)
     (spaceTime d) (currentTime d) (audioSignal d).

Definition set_tree (j p : Z) (d : t) : t :=
  mk (morseInPin d) (morseAudio d) (activeLow d) (wpm d) (AudioThreshold d)
     (debounceDelay d) (dotTime d) (dashTime d) (wordSpace d) j p
     (morseKeyer d) (morseSignalState d) (lastKeyerState d) (gotLastSig d)
     (morseSpace d) (decodedMorseChar d) (lastDebounceTime d) (markTime d)
     (spaceTime d) (currentTime d) (audioSignal d).

Definition set_morseKeyer (b : bool) (d : t) : t :=
  mk (morseInPin d) (morseAudio d) (activeLow d) (wpm d) (AudioThreshold d)
     (debounceDelay d) (dotTime d) (dashTime d) (wordSpace d)
     (morseTableJumper d) (morseTablePointer d)
     b (morseSignalState d) (lastKeyerState d) (gotLastSig d)
     (morseSpace d) (decodedMorseChar d) (lastDebounceTime d) (markTime d)
     (spaceTime d) (currentTime d) (audioSignal d).

Definition set_morseSignalState (b : bool) (d : t) : t :=
  mk (morseInPin d) (morseAudio d) (activeLow d) (wpm d) (AudioThreshold d)
     (debounceDelay d) (dotTime d) (dashTime d) (wordSpace d)
     (morseTableJumper d) (morseTablePointer d)
     (morseKeyer d) b (lastKeyerState d) (gotLastSig d)
     (morseSpace d) (decodedMorseChar d) (lastDebounceTime d) (markTime d)
     (spaceTime d) (currentTime d) (audioSignal d).

Definition set_lastKeyerState (b : bool) (d : t) : t :=
  mk (morseInPin d) (morseAudio d) (activeLow d) (wpm d) (AudioThreshold d)
     (debounceDelay d) (dotTime d) (dashTime d) (wordSpace d)
     (morseTableJumper d) (morseTablePointer d)
     (morseKeyer d) (morseSignalState d) b (gotLastSig d)
     (morseSpace d) (decodedMorseChar d) (lastDebounceTime d) (markTime d)
     (spaceTime d) (currentTime d) (audioSignal d).

Definition set_gotLastSig (b : bool) (d : t) : t :=
  mk (morseInPin d) (morseAudio d) (activeLow d) (wpm d) (AudioThreshold d)
     (debounceDelay d) (dotTime d) (dashTime d) (wordSpace d)
     (morseTableJumper d) (morseTablePointer d)
     (morseKeyer d) (morseSignalState d) (lastKeyerState d) b
     (morseSpace d) (decodedMorseChar d) (lastDebounceTime d) (markTime d)
     (spaceTime d) (currentTime d) (audioSignal d).

Definition set_morseSpace (b : bool) (d : t) : t :=
  mk (morseInPin d) (morseAudio d) (activeLow d) (wpm d) (AudioThreshold d)
     (debounceDelay d) (dotTime d) (dashTime d) (wordSpace d)
     (morseTableJumper d) (morseTablePointer d)
     (morseKeyer d) (morseSignalState d) (lastKeyerState d) (gotLastSig d)
     b (decodedMorseChar d) (lastDebounceTime d) (markTime d)
     (spaceTime d) (currentTime d) (audioSignal d).

Definition set_decodedMorseChar (c : char) (d : t) : t :=
  mk (morseInPin d) (morseAudio d) (activeLow d) (wpm d) (AudioThreshold d)
     (debounceDelay d) (dotTime d) (dashTime d) (wordSpace d)
     (morseTableJumper d) (morseTablePointer d)
     (morseKeyer d) (morseSignalState d) (lastKeyerState d) (gotLastSig d)
     (morseSpace d) c (lastDebounceTime d) (markTime d)
     (spaceTime d) (currentTime d) (audioSignal d).

Definition set_lastDebounceTime (v : Z) (d : t) : t :=
  mk (morseInPin d) (morseAudio d) (activeLow d) (wpm d) (AudioThreshold d)
     (debounceDelay d) (dotTime d) (dashTime d) (wordSpace d)
     (morseTableJumper d) (morseTablePointer d)
     (morseKeyer d) (morseSignalState d) (lastKeyerState d) (gotLastSig d)
     (morseSpace d) (decodedMorseChar d) v (markTime d)
     (spaceTime d) (currentTime d) (audioSignal d).

Definition set_markTime (v : Z) (d : t) : t :=
  mk (morseInPin d) (morseAudio d) (activeLow d) (wpm d) (AudioThreshold d)
     (debounceDelay d) (dotTime d) (dashTime d) (wordSpace d)
     (morseTableJumper d) (morseTablePointer d)
     (morseKeyer d) (morseSignalState d) (lastKeyerState d) (gotLastSig d)
     (morseSpace d) (decodedMorseChar d) (lastDebounceTime d) v
     (spaceTime d) (currentTime d) (audioSignal d).

Definition set_spaceTime (v : Z) (d : t) : t :=
  mk (morseInPin d) (morseAudio d) (activeLow d) (wpm d) (AudioThreshold d)
     (debounceDelay d) (dotTime d) (dashTime d) (wordSpace d)
     (morseTableJumper d) (morseTablePointer d)
     (morseKeyer d) (morseSignalState d) (lastKeyerState d) (gotLastSig d)
     (morseSpace d) (decodedMorseChar d) (lastDebounceTime d) (markTime d)
     v (currentTime d) (audioSignal d).

Definition set_currentTime (v : Z) (d : t) : t :=
  mk (morseInPin d) (morseAudio d) (activeLow d) (wpm d) (AudioThreshold d)
     (debounceDelay d) (dotTime d) (dashTime d) (wordSpace d)
     (morseTableJumper d) (morseTablePointer d)
     (morseKeyer d) (morseSignalState d) (lastKeyerState d) (gotLastSig d)
     (morseSpace d) (decodedMorseChar d) (lastDebounceTime d) (markTime d)
     (spaceTime d) v (audioSignal d).

Definition set_audioSignal (v : Z) (d : t) : t :=
  mk (morseInPin d) (morseAudio d) (activeLow d) (wpm d) (AudioThreshold d)
     (debounceDelay d) (dotTime d) (dashTime d) (wordSpace d)
     (morseTableJumper d) (morseTablePointer d)
     (morseKeyer d) (morseSignalState d) (lastKeyerState d) (gotLastSig d)
     (morseSpace d) (decodedMorseChar d) (lastDebounceTime d) (markTime d)
     (spaceTime d) (currentTime d) v.

(** [morseDecoder::morseDecoder(decodePin, listenAudio, morsePullup)].
    [currentTime] and [audioSignal] are left uninitialised by the
    constructor and are written by [decode] before they are read; the
    model starts them at 0. *)
Definition new (decodePin : Z) (listenAudio morsePullup : bool) : t :=
  let wpm0 := 13 in
  {| morseInPin := decodePin;
     morseAudio := listenAudio;
     activeLow := morsePullup;
     wpm := wpm0;
     AudioThreshold := 700;
     debounceDelay := 20;
     dotTime := Z.quot 1200 wpm0;
     dashTime := Z.quot (3 * 1200) wpm0;
     wordSpace := Z.quot (7 * 1200) wpm0;
     morseTableJumper := Z.quot (morseTreetop + 1) 2;
     morseTablePointer := morseTreetop;
     morseKeyer := false;
     morseSignalState := false;
     lastKeyerState := false;
     gotLastSig := true;
     morseSpace := true;
     decodedMorseChar := 0;
     lastDebounceTime := 0;
     markTime := 0;
     spaceTime := 0;
     currentTime := 0;
     audioSignal := 0 |}.

(** [void morseDecoder::setspeed(int value)] *)
Definition setspeed (d : t) (value : Z) : t :=
  let w := value in
  let w := if w <=? 0 then 1 else w in
  set_timing w (Z.quot 1200 w) (Z.quot (3 * 1200) w) (Z.quot (7 * 1200) w) d.

(** [boolean morseDecoder::available()] *)
Definition available (d : t) : bool :=
  if decodedMorseChar d =? 0 then false else true.

(** [char morseDecoder::read()]: the returned character and the new state. *)
Definition read (d : t) : char * t :=
  let temp := decodedMorseChar d in
  (temp, set_decodedMorseChar 0 d).

(** *** [void morseDecoder::decode()] *)

(** The two front ends (lines 185-225): the debounced digital keyer, or the
    thresholded audio signal. *)
Definition front_end (d : t) (s : sample) : t :=
  if negb (morseAudio d) then
    let k := digitalRead s in
    let k := if activeLow d then negb k else k in
    let d := set_morseKeyer k d in
    let d := if negb (Bool.eqb (morseKeyer d) (lastKeyerState d))
             then set_lastDebounceTime (currentTime d) d else d in
    if debounceDelay d <? currentTime d - lastDebounceTime d then
      let d := set_morseSignalState (morseKeyer d) d in
      if morseSignalState d
      then set_markTime (lastDebounceTime d) d
      else set_spaceTime (lastDebounceTime d) d
    else d
  else
    let d := set_audioSignal (analogRead s) d in
    if AudioThreshold d <? audioSignal d then
      let d := if Z.quot (dotTime d) 2 <? currentTime d - lastDebounceTime d
               then set_morseSignalState true (set_markTime (currentTime d) d)
               else d in
      set_lastDebounceTime (currentTime d) d
    else
      if (Z.quot (dotTime d) 2 <? currentTime d - lastDebounceTime d)
           && Bool.eqb (morseSignalState d) true
      then set_morseSignalState false (set_spaceTime (lastDebounceTime d) d)
      else d.

(** Classification of the pulse that just ended, or the error mark when
    the tree has no level left (lines 232-265). *)
Definition classify (d : t) : t :=
  if negb (gotLastSig d) then
    if 0 <? morseTableJumper d then
      if Z.quot (dotTime d) 2 <? currentTime d - spaceTime d then
        if Z.quot (dotTime d) 4 <? spaceTime d - markTime d then
          if spaceTime d - markTime d <? Z.quot (dashTime d) 2 then
            set_gotLastSig true
              (set_tree (Z.quot (morseTableJumper d) 2)
                        (morseTablePointer d - morseTableJumper d) d)
          else if spaceTime d - markTime d <? dashTime d + dotTime d then
            set_gotLastSig true
              (set_tree (Z.quot (morseTableJumper d) 2)
                        (morseTablePointer d + morseTableJumper d) d)
          else d
        else d
      else d
    else
      set_tree (Z.quot (morseTreetop + 1) 2) morseTreetop
        (set_gotLastSig true (set_decodedMorseChar (chr "#") d))
  else d.

(** The condition of line 267: the pause is at least two dots long and a
    signal of the current character has been classified. *)
Definition letter_due (d : t) : bool :=
  (dotTime d * 2 <=? currentTime d - spaceTime d)
    && (morseTableJumper d <? Z.quot (morseTreetop + 1) 2).

(** Lines 267-272. *)
Definition write_letter (d : t) : t :=
  if letter_due d then
    set_tree (Z.quot (morseTreetop + 1) 2) morseTreetop
      (set_decodedMorseChar (table_char (morseTablePointer d)) d)
  else d.

(** The condition of line 274: the pause exceeds 2/3 of a word space and no
    space has been written for it yet. *)
Definition space_due (d : t) : bool :=
  (Z.quot (wordSpace d * 2) 3 <? currentTime d - spaceTime d)
    && Bool.eqb (morseSpace d) false.

(** Lines 274-279. *)
Definition write_space (d : t) : t :=
  if space_due d then
    set_morseSpace true (set_decodedMorseChar (chr " ") d)
  else d.

(** One call of [decode()], at clock value [now] with pin readings [s]. *)
Definition decode (d : t) (now : Z) (s : sample) : t :=
  let d := set_currentTime now d in
  let d := front_end d s in
  let d :=
    if negb (morseSignalState d) then
      write_space (write_letter (classify d))
    else
      set_morseSpace false (set_gotLastSig false d) in
  set_lastKeyerState (morseKeyer d) d.

(** The state in which the front end leaves a tick. *)
Definition sensed (d : t) (now : Z) (s : sample) : t :=
  front_end (set_currentTime now d) s.

End morseDecoder.

(** ** The encoder *)
Module morseEncoder.

(** Modelled from the spec: the declaration of the member array
    [morseSignalString] (in MorseEnDecoder.h).  The tree has depth 6, so a
    character has at most six signals, and [encode] stores a terminating
    NUL after them: seven cells. *)
Inductive signals := Signals (c0 c1 c2 c3 c4 c5 c6 : char).

Record t := mk {
  morseOutPin : Z;
  encodeMorseChar : char;
  sendingMorse : bool;
  wpm : Z;
  dotTime : Z;
  dashTime : Z;
  wordSpace : Z;
  morseSignals : Z;
  morseSignalPos : Z;
  morseSignalString : signals;
  sendingMorseSignalNr : Z;
  sendMorseTimer : Z;
  currentTime : Z
}.

Definition set_timing (w dot dash ws : Z) (e : t) : t :=
  mk (morseOutPin e) (encodeMorseChar e) (sendingMorse e) w dot dash ws
     (morseSignals e) (morseSignalPos e) (morseSignalString e)
     (sendingMorseSignalNr e) (sendMorseTimer e) (currentTime e).

Definition set_encodeMorseChar (c : char) (e : t) : t :=
  mk (morseOutPin e) c (sendingMorse e) (wpm e) (dotTime e) (dashTime e)
     (wordSpace e) (morseSignals e) (morseSignalPos e) (morseSignalString e)
     (sendingMorseSignalNr e) (sendMorseTimer e) (currentTime e).

Definition set_sendingMorse (b : bool) (e : t) : t :=
  mk (morseOutPin e) (encodeMorseChar e) b (wpm e) (dotTime e) (dashTime e)
     (wordSpace e) (morseSignals e) (morseSignalPos e) (morseSignalString e)
     (sendingMorseSignalNr e) (sendMorseTimer e) (currentTime e).

Definition set_morseSignals (n : Z) (e : t) : t :=
  mk (morseOutPin e) (encodeMorseChar e) (sendingMorse e) (wpm e) (dotTime e)
     (dashTime e) (wordSpace e) n (morseSignalPos e) (morseSignalString e)
     (sendingMorseSignalNr e) (sendMorseTimer e) (currentTime e).

Definition set_morseSignalPos (n : Z) (e : t) : t :=
  mk (morseOutPin e) (encodeMorseChar e) (sendingMorse e) (wpm e) (dotTime e)
     (dashTime e) (wordSpace e) (morseSignals e) n (morseSignalString e)
     (sendingMorseSignalNr e) (sendMorseTimer e) (currentTime e).

Definition set_morseSignalString (l : signals) (e : t) : t :=
  mk (morseOutPin e) (encodeMorseChar e) (sendingMorse e) (wpm e) (dotTime e)
     (dashTime e) (wordSpace e) (morseSignals e) (morseSignalPos e) l
     (sendingMorseSignalNr e) (sendMorseTimer e) (currentTime e).

Definition set_sendingMorseSignalNr (n : Z) (e : t) : t :=
  mk (morseOutPin e) (encodeMorseChar e) (sendingMorse e) (wpm e) (dotTime e)
     (dashTime e) (wordSpace e) (morseSignals e) (morseSignalPos e)
     (morseSignalString e) n (sendMorseTimer e) (currentTime e).

Definition set_sendMorseTimer (v : Z) (e : t) : t :=
  mk (morseOutPin e) (encodeMorseChar e) (sendingMorse e) (wpm e) (dotTime e)
     (dashTime e) (wordSpace e) (morseSignals e) (morseSignalPos e)
     (morseSignalString e) (sendingMorseSignalNr e) v (currentTime e).

Definition set_currentTime (v : Z) (e : t) : t :=
  mk (morseOutPin e) (encodeMorseChar e) (sendingMorse e) (wpm e) (dotTime e)
     (dashTime e) (wordSpace e) (morseSignals e) (morseSignalPos e)
     (morseSignalString e) (sendingMorseSignalNr e) (sendMorseTimer e) v.

(** [morseSignalString[i]] and [morseSignalString[i] = v] on the 7-byte
    member array.  An index outside the array is undefined in C++; the
    model reads 0 and stores nothing there. *)
Definition load (a : signals) (i : Z) : char :=
  match a, i with
  | Signals c0 _ _ _ _ _ _, 0 => c0
  | Signals _ c1 _ _ _ _ _, 1 => c1
  | Signals _ _ c2 _ _ _ _, 2 => c2
  | Signals _ _ _ c3 _ _ _, 3 => c3
  | Signals _ _ _ _ c4 _ _, 4 => c4
  | Signals _ _ _ _ _ c5 _, 5 => c5
  | Signals _ _ _ _ _ _ c6, 6 => c6
  | _, _ => 0
  end.

Definition store (a : signals) (i : Z) (v : char) : signals :=
  match a, i with
  | Signals _ c1 c2 c3 c4 c5 c6, 0 => Signals v c1 c2 c3 c4 c5 c6
  | Signals c0 _ c2 c3 c4 c5 c6, 1 => Signals c0 v c2 c3 c4 c5 c6
  | Signals c0 c1 _ c3 c4 c5 c6, 2 => Signals c0 c1 v c3 c4 c5 c6
  | Signals c0 c1 c2 _ c4 c5 c6, 3 => Signals c0 c1 c2 v c4 c5 c6
  | Signals c0 c1 c2 c3 _ c5 c6, 4 => Signals c0 c1 c2 c3 v c5 c6
  | Signals c0 c1 c2 c3 c4 _ c6, 5 => Signals c0 c1 c2 c3 c4 v c6
  | Signals c0 c1 c2 c3 c4 c5 _, 6 => Signals c0 c1 c2 c3 c4 c5 v
  | _, _ => a
  end.

Definition to_list (a : signals) : list char :=
  match a with
  | Signals c0 c1 c2 c3 c4 c5 c6 => [c0; c1; c2; c3; c4; c5; c6]
  end.

(** [morseEncoder::morseEncoder(int encodePin)].  The members of the
    signal plan are left uninitialised by the constructor and are written
    by [encode] before they are read; the model starts them at 0. *)
Definition new (encodePin : Z) : t :=
  let wpm0 := 13 in
  {| morseOutPin := encodePin;
     encodeMorseChar := 0;
     sendingMorse := false;
     wpm := wpm0;
     dotTime := Z.quot 1200 wpm0;
     dashTime := Z.quot (3 * 1200) wpm0;
     wordSpace := Z.quot (7 * 1200) wpm0;
     morseSignals := 0;
     morseSignalPos := 0;
     morseSignalString := Signals 0 0 0 0 0 0 0;
     sendingMorseSignalNr := 0;
     sendMorseTimer := 0;
     currentTime := 0 |}.

(** [void morseEncoder::setspeed(int value)] *)
Definition setspeed (e : t) (value : Z) : t :=
  let w := value in
  let w := if w <=? 0 then 1 else w in
  set_timing w (Z.quot 1200 w) (Z.quot (3 * 1200) w) (Z.quot (7 * 1200) w) e.

(** [boolean morseEncoder::available()] *)
Definition available (e : t) : bool :=
  if sendingMorse e then false else true.

(** [void morseEncoder::write(char temp)] *)
Definition write (e : t) (temp : char) : t :=
  if negb (sendingMorse e) && negb (temp =? chr "*")
  then set_encodeMorseChar temp e
  else e.

(** Conversion of an [int] result back to [char] (8 bits, signed). *)
Definition to_char (z : Z) : char := (z + 128) mod 256 - 128.

(** Line 304: [if (encodeMorseChar > 'Z') encodeMorseChar -= 'z'-'Z';] *)
Definition capital (c : char) : char :=
  if chr "Z" <? c then to_char (c - (chr "z" - chr "Z")) else c.

(** Line 308: the scan of the table, from index [i] on; the result is the
    value of [i] after the loop. *)
Fixpoint scan (tbl : list char) (c : char) (i : Z) : Z :=
  match tbl with
  | [] => i
  | x :: rest => if x =? c then i else scan rest c (i + 1)
  end.

(** Lines 315-319: the loop that finds the tree level of the position,
    with [n] iterations left; the result is the value of [i] after it. *)
Fixpoint level (morseTablePos i : Z) (n : nat) : Z :=
  match n with
  | O => i
  | S n' =>
      let test := Z.rem (morseTablePos + Z.shiftl 1 i) (Z.shiftl 2 i) in
      if test =? 0 then i else level morseTablePos (i + 1) n'
  end.

(** Lines 328-342: the reverse path to the top of the tree, with [n]
    iterations left.  [test & 0x0001 == 1] parses as
    [test & (0x0001 == 1)]. *)
Fixpoint path (n : nat) (i morseTablePos : Z) (e : t) : Z * t :=
  match n with
  | O => (morseTablePos, e)
  | S n' =>
      let add := Z.shiftl 1 i in
      let test := Z.quot (morseTablePos + add) (Z.shiftl 2 i) in
      let k := morseSignals e - 1 - morseSignalPos e in
      let e' := set_morseSignalPos (morseSignalPos e + 1) e in
      if negb (Z.land test (Z.b2z (1 =? 1)) =? 0) then
        path n' (i + 1) (morseTablePos + add)
          (set_morseSignalString (store (morseSignalString e') k (chr ".")) e')
      else
        path n' (i + 1) (morseTablePos - add)
          (set_morseSignalString (store (morseSignalString e') k (chr "-")) e')
  end.

(** Lines 301-364: a new character is taken when the encoder is idle. *)
Definition begin (e : t) (pin : bool) : t * bool :=
  if negb (sendingMorse e) && negb (encodeMorseChar e =? 0) then
    let e := set_encodeMorseChar (capital (encodeMorseChar e)) e in
    let i := scan morseTable (encodeMorseChar e) 0 in
    let morseTablePos := i + 1 in
    let i := level morseTablePos 0 (Z.to_nat morseTreeLevels) in
    let startLevel := i in
    let e := set_morseSignals (morseTreeLevels - i) e in
    let e := set_morseSignalPos 0 e in
    let e :=
      if 0 <? morseSignals e then
        snd (path (Z.to_nat (morseTreeLevels - startLevel)) startLevel
                  morseTablePos e)
      else
        set_morseSignals 1
          (set_morseSignalPos 1
             (set_morseSignalString
                (store (morseSignalString e) 0 (chr " ")) e)) in
    let e := set_morseSignalString
               (store (morseSignalString e) (morseSignalPos e) 0) e in
    let e := set_sendingMorse true e in
    let e := set_sendingMorseSignalNr 0 e in
    let e := set_sendMorseTimer (currentTime e) e in
    (e, if negb (load (morseSignalString e) 0 =? chr " ") then true else pin)
  else (e, pin).

(** Lines 368-417: the signal that is being sent. *)
Definition send (e : t) (pin : bool) : t * bool :=
  if sendingMorse e then
    let s := load (morseSignalString e) (sendingMorseSignalNr e) in
    let '(e, pin) :=
      if s =? chr "." then
        if dotTime e <=? currentTime e - sendMorseTimer e then
          (set_morseSignalString
             (store (morseSignalString e) (sendingMorseSignalNr e) (chr "x"))
             (set_sendMorseTimer (currentTime e) e), false)
        else (e, pin)
      else if s =? chr "-" then
        if dashTime e <=? currentTime e - sendMorseTimer e then
          (set_morseSignalString
             (store (morseSignalString e) (sendingMorseSignalNr e) (chr "x"))
             (set_sendMorseTimer (currentTime e) e), false)
        else (e, pin)
      else if s =? chr "x" then
        if sendingMorseSignalNr e <? morseSignals e - 1 then
          if dotTime e <=? currentTime e - sendMorseTimer e then
            (set_sendMorseTimer (currentTime e)
               (set_sendingMorseSignalNr (sendingMorseSignalNr e + 1) e), true)
          else (e, pin)
        else
          if dashTime e <=? currentTime e - sendMorseTimer e then
            (set_sendMorseTimer (currentTime e)
               (set_sendingMorseSignalNr (sendingMorseSignalNr e + 1) e), pin)
          else (e, pin)
      else
        if wordSpace e - dashTime e <? currentTime e - sendMorseTimer e then
          (set_sendingMorseSignalNr (sendingMorseSignalNr e + 1) e, pin)
        else (e, pin) in
    if morseSignals e <=? sendingMorseSignalNr e then
      (set_encodeMorseChar 0 (set_sendingMorse false e), pin)
    else (e, pin)
  else (e, pin).

(** One call of [encode()], at clock value [now]; [pin] is the level of
    the output pin before the call, the result holds the level after it. *)
Definition encode (e : t) (now : Z) (pin : bool) : t * bool :=
  let e := set_currentTime now e in
  let '(e, pin) := begin e pin in
  send e pin.



End morseEncoder.

(** ** The encoder wired to the decoder

    The output pin of an encoder drives the input pin of a decoder, and
    one loop iteration calls [encode()], then [decode()], then fetches the
    decoded character as the sketch does
    ([if (morseInput.available()) cw_rx = morseInput.read();]). *)
Module Rig.

Record t := mk {
  enc : morseEncoder.t;
  dec : morseDecoder.t;
  pin : bool;
  heard : list char
}.

(** The decoder half of an iteration, for a given level of the pin. *)
Definition listen (d : morseDecoder.t) (now : Z) (level : bool)
  : morseDecoder.t * list char :=
  let d := morseDecoder.decode d now
             {| digitalRead := level; analogRead := 0 |} in
  if morseDecoder.available d
  then let '(c, d) := morseDecoder.read d in (d, [c])
  else (d, []).

Definition loop (r : t) (now : Z) : t :=
  let '(e, p) := morseEncoder.encode (enc r) now (pin r) in
  let '(d, out) := listen (dec r) now p in
  mk e d p (heard r ++ out).

(** Sends [msg], one iteration every [dt] milliseconds from [now] on: each
    character is written when the encoder is available, and the run ends
    when the last character has been sent.  [None] when [fuel] iterations
    do not suffice. *)
Fixpoint transmit (fuel : nat) (r : t) (msg : list char) (now dt : Z)
  : option (t * Z) :=
  match fuel with
  | O => None
  | S fuel' =>
      if morseEncoder.available (enc r) then
        match msg with
        | [] => Some (r, now)
        | c :: rest =>
            let r := mk (morseEncoder.write (enc r) c) (dec r) (pin r)
                        (heard r) in
            transmit fuel' (loop r now) rest (now + dt) dt
        end
      else transmit fuel' (loop r now) msg (now + dt) dt
  end.

(** A hand key: the pin is held at the given level for the given number of
    milliseconds, one decoder iteration every [dt] milliseconds. *)
Fixpoint hold (n : nat) (d : morseDecoder.t) (level : bool) (now dt : Z)
  : morseDecoder.t * list char * Z :=
  match n with
  | O => (d, [], now)
  | S n' =>
      let '(d, out) := listen d now level in
      let '(d, out', now) := hold n' d level (now + dt) dt in
      (d, out ++ out', now)
  end.

Fixpoint key (keying : list (bool * Z)) (d : morseDecoder.t) (now dt : Z)
  : morseDecoder.t * list char * Z :=
  match keying with
  | [] => (d, [], now)
  | (level, ms) :: rest =>
      let '(d, out, now) := hold (Z.to_nat (Z.quot ms dt)) d level now dt in
      let '(d, out', now) := key rest d now dt in
      (d, out ++ out', now)
  end.

(** A fresh encoder and a fresh digital, active-high decoder, both set to
    [w] words per minute; the pin is low. *)
Definition fresh (w : Z) : t :=
  mk (morseEncoder.setspeed (morseEncoder.new 13) w)
     (morseDecoder.setspeed (morseDecoder.new 4 false false) w)
     false [].

(** What the decoder yields while [msg] is sent at [w] words per minute
    with an iteration every [dt] milliseconds. *)
Definition roundtrip (w dt : Z) (msg : list char) : option (list char) :=
  option_map (fun x => heard (fst x))
    (transmit (Z.to_nat 200000) (fresh w) msg 0 dt).

(** Seven dots keyed by hand at 13 words per minute (92 ms on, 92 ms off),
    a pause of a dash, and then the message sent by the encoder. *)
Definition seven_dots : list (bool * Z) :=
  List.concat (repeat [(true, 92); (false, 92)] 6) ++ [(true, 92); (false, 276)].

Definition after_keying (keying : list (bool * Z)) (msg : list char)
  : option (list char) :=
  let r := fresh 13 in
  let '(d, out, now) := key keying (dec r) 0 1 in
  option_map (fun x => heard (fst x))
    (transmit (Z.to_nat 200000) (mk (enc r) d false out) msg now 1).

End Rig.

(** ** Calls on a decoder and the states they reach *)

Inductive call :=
| Decode (now : Z) (s : sample)
| Setspeed (value : Z)
| Read.

Definition do (d : morseDecoder.t) (c : call) : morseDecoder.t :=
  match c with
  | Decode now s => morseDecoder.decode d now s
  | Setspeed value => morseDecoder.setspeed d value
  | Read => snd (morseDecoder.read d)
  end.

Definition run (d : morseDecoder.t) (cs : list call) : morseDecoder.t :=
  fold_left do cs d.

(** The states a decoder can be in: constructed, then used through any
    sequence of calls. *)
Definition reachable (d : morseDecoder.t) : Prop :=
  exists decodePin listenAudio morsePullup cs,
    d = run (morseDecoder.new decodePin listenAudio morsePullup) cs.

(** A run of calls during which the decoder sees no signal. *)
Fixpoint quiet (d : morseDecoder.t) (cs : list call) : Prop :=
  match cs with
  | [] => True
  | c :: rest =>
      morseDecoder.morseSignalState (do d c) = false /\ quiet (do d c) rest
  end.

(** The position in the tree: at the top, or below it by the steps taken
    so far. *)
Definition tree_inv (d : morseDecoder.t) : Prop :=
  let j := morseDecoder.morseTableJumper d in
  let p := morseDecoder.morseTablePointer d in
  (j = 32 /\ p = 63)
  \/ (In j [16; 8; 4; 2; 1] /\ 2 * j <= Z.abs (p - 63) <= 64 - 2 * j)
  \/ (j = 0 /\ 1 <= Z.abs (p - 63) <= 63).

(** The decoder runs at [w] words per minute: its timing is the one that
    [setspeed(w)] computes. *)
Definition timed (d : morseDecoder.t) (w : Z) : Prop :=
  morseDecoder.dotTime d = Z.quot 1200 w
  /\ morseDecoder.dashTime d = Z.quot (3 * 1200) w
  /\ morseDecoder.wordSpace d = Z.quot (7 * 1200) w.

(** The pin readings of a digital tick. *)
Definition digital (b : bool) : sample := {| digitalRead := b; analogRead := 0 |}.

(** Where a tick that finds the signal released leaves the tree, when
    the classification has put it at pointer [p] and jumper [j]: there,
    or, when the letter is due on that same tick (line 267), back at the
    top, with the letter of [p] in the mailbox, or the space that replaces
    it (line 274). *)
Definition ends_at (d1 : morseDecoder.t) (p j : Z) (d2 : morseDecoder.t)
  : Prop :=
  if morseDecoder.letter_due (morseDecoder.set_tree j p d1)
  then morseDecoder.morseTablePointer d2 = morseTreetop
       /\ morseDecoder.morseTableJumper d2 = Z.quot (morseTreetop + 1) 2
       /\ morseDecoder.decodedMorseChar d2
          = (if morseDecoder.space_due d1 then chr " " else table_char p)
  else morseDecoder.morseTablePointer d2 = p
       /\ morseDecoder.morseTableJumper d2 = j.

(** The outcome of a tick for the pulse that just ended, [d1] being the
    state in which the front end leaves the tick and [d2] the state after
    it: a step to the dot side or to the dash side of the tree, with the
    jumper halved and the pulse marked as taken; or no step, the pulse not
    taken. *)
Definition took_dot (d1 d2 : morseDecoder.t) : Prop :=
  morseDecoder.gotLastSig d2 = true
  /\ ends_at d1
       (morseDecoder.morseTablePointer d1 - morseDecoder.morseTableJumper d1)
       (Z.quot (morseDecoder.morseTableJumper d1) 2) d2.

Definition took_dash (d1 d2 : morseDecoder.t) : Prop :=
  morseDecoder.gotLastSig d2 = true
  /\ ends_at d1
       (morseDecoder.morseTablePointer d1 + morseDecoder.morseTableJumper d1)
       (Z.quot (morseDecoder.morseTableJumper d1) 2) d2.

Definition took_neither (d1 d2 : morseDecoder.t) : Prop :=
  morseDecoder.gotLastSig d2 = false
  /\ ends_at d1 (morseDecoder.morseTablePointer d1)
       (morseDecoder.morseTableJumper d1) d2.


(** ** Round trip *)

Definition list_char_eqb (a b : list char) : bool :=
  if list_eq_dec Z.eq_dec a b then true else false.

(** The characters of the table other than the mark of an unused position,
    the word space at the top of the tree, and the underscore. *)
Definition letters : list char :=
  filter (fun c => negb (c =? chr "*") && negb (c =? chr " ")
                     && negb (c =? chr "_")) morseTable.



(** ** The plan of the encoder and the walk of the decoder *)

(** The move that [decode] makes in the tree for a dot (lines 245-246) or
    for a dash (lines 252-253), on pointer and jumper. *)
Definition tree_move (pj : Z * Z) (sig : char) : Z * Z :=
  if sig =? chr "." then (fst pj - snd pj, Z.quot (snd pj) 2)
  else (fst pj + snd pj, Z.quot (snd pj) 2).

(** The moves for a sequence of signals, from the top of the tree. *)
Definition walk (sigs : list char) : Z * Z :=
  fold_left tree_move sigs (morseTreetop, Z.quot (morseTreetop + 1) 2).

(** The signals of the character being sent: the cells of
    [morseSignalString] below [morseSignals]. *)
Definition planned (e : morseEncoder.t) : list char :=
  firstn (Z.to_nat (morseEncoder.morseSignals e))
         (morseEncoder.to_list (morseEncoder.morseSignalString e)).

(** Lines 313-348 of [encode]: the signals for a position of the table. *)
Definition plan (morseTablePos : Z) (e : morseEncoder.t) : morseEncoder.t :=
  let i := morseEncoder.level morseTablePos 0 (Z.to_nat morseTreeLevels) in
  let startLevel := i in
  let e := morseEncoder.set_morseSignals (morseTreeLevels - i) e in
  let e := morseEncoder.set_morseSignalPos 0 e in
  let e :=
    if 0 <? morseEncoder.morseSignals e then
      snd (morseEncoder.path (Z.to_nat (morseTreeLevels - startLevel))
             startLevel morseTablePos e)
    else
      morseEncoder.set_morseSignals 1
        (morseEncoder.set_morseSignalPos 1
           (morseEncoder.set_morseSignalString
              (morseEncoder.store (morseEncoder.morseSignalString e) 0
                 (chr " ")) e)) in
  morseEncoder.set_morseSignalString
    (morseEncoder.store (morseEncoder.morseSignalString e)
       (morseEncoder.morseSignalPos e) 0) e.

(** Calls on an encoder and its output pin, and the states they reach
    from the constructor. *)
Inductive ecall :=
| Write (c : char)
| ESetspeed (value : Z)
| Encode (now : Z).

Definition edo (ep : morseEncoder.t * bool) (c : ecall)
  : morseEncoder.t * bool :=
  match c with
  | Write ch => (morseEncoder.write (fst ep) ch, snd ep)
  | ESetspeed value => (morseEncoder.setspeed (fst ep) value, snd ep)
  | Encode now => morseEncoder.encode (fst ep) now (snd ep)
  end.

Definition ereachable (ep : morseEncoder.t * bool) : Prop :=
  exists encodePin level cs,
    ep = fold_left edo cs (morseEncoder.new encodePin, level).

(** A cell of a plan: a signal to send, a signal sent, or the word
    space. *)
Definition plan_cell (c : char) : Prop :=
  c = chr "." \/ c = chr "-" \/ c = chr "x" \/ c = chr " ".

(** While a character is being sent, the index of the current signal is
    inside the plan, the plan is inside the array, and its cells are
    cells of a plan. *)
Definition well_planned (e : morseEncoder.t) : Prop :=
  morseEncoder.sendingMorse e = true ->
  1 <= morseEncoder.morseSignals e <= 6
  /\ 0 <= morseEncoder.sendingMorseSignalNr e < morseEncoder.morseSignals e
  /\ forall k, 0 <= k < morseEncoder.morseSignals e ->
               plan_cell (morseEncoder.load (morseEncoder.morseSignalString e) k).

(** The level of the pin during each interval between two calls of
    [encode()], one call every [dt] milliseconds, from the call that takes
    the pending character to the call that ends its transmission, and the
    encoder and the pin after that last call. *)
Fixpoint keying (fuel : nat) (e : morseEncoder.t) (pin : bool) (now dt : Z)
  : option (list bool * (morseEncoder.t * bool)) :=
  match fuel with
  | O => None
  | S fuel' =>
      let '(e, pin) := morseEncoder.encode e now pin in
      if morseEncoder.available e then Some ([], (e, pin))
      else option_map (fun r => (pin :: fst r, snd r))
             (keying fuel' e pin (now + dt) dt)
  end.

(** An encoder that is not sending, with the timing [D], [H], [W]. *)
Definition idle (e : morseEncoder.t) (D H W : Z) : Prop :=
  morseEncoder.sendingMorse e = false
  /\ morseEncoder.dotTime e = D
  /\ morseEncoder.dashTime e = H
  /\ morseEncoder.wordSpace e = W.

(** Run lengths of a list of levels. *)
Fixpoint runs (l : list bool) : list (bool * Z) :=
  match l with
  | [] => []
  | b :: rest =>
      match runs rest with
      | (b', n) :: more =>
          if Bool.eqb b b' then (b, n + 1) :: more else (b, 1) :: (b', n) :: more
      | [] => [(b, 1)]
      end
  end.

(** The keying of a letter in the 1:3 timing: each signal for a dot or a
    dash time, a dot time off between signals, a dash time off at the
    end. *)
Fixpoint canonical (sigs : list char) (dot dash : Z) : list (bool * Z) :=
  match sigs with
  | [] => []
  | s :: rest =>
      (true, if s =? chr "." then dot else dash)
        :: (false, match rest with [] => dash | _ => dot end)
        :: canonical rest dot dash
  end.

(** The number of calls, one every [dt] milliseconds, until [T]
    milliseconds have passed. *)
Definition ticks (dt T : Z) : Z := (T + dt - 1) / dt.

(** An encoder that is sending the signal [k] of its plan, the signals
    from there on being [rest]. *)
Definition sending_from (e : morseEncoder.t) (k : Z) (rest : list char)
  : Prop :=
  morseEncoder.sendingMorse e = true
  /\ morseEncoder.sendingMorseSignalNr e = k
  /\ 0 <= k
  /\ k + Z.of_nat (List.length rest) = morseEncoder.morseSignals e
  /\ morseEncoder.morseSignals e <= 6
  /\ Forall (fun s => s = chr "." \/ s = chr "-") rest
  /\ forall i, (i < List.length rest)%nat ->
                morseEncoder.load (morseEncoder.morseSignalString e)
                  (k + Z.of_nat i) = nth i rest 0.

(** The decoder half of the loop for the successive levels of the pin,
    one iteration every [dt] milliseconds. *)
Fixpoint listens (d : morseDecoder.t) (now dt : Z) (levels : list bool)
  : morseDecoder.t * list char :=
  match levels with
  | [] => (d, [])
  | b :: rest =>
      let '(d, out) := Rig.listen d now b in
      let '(d, out') := listens d (now + dt) dt rest in
      (d, out ++ out')
  end.

(** The levels that a list of runs stands for. *)
Fixpoint expand (rs : list (bool * Z)) : list bool :=
  match rs with
  | [] => []
  | (b, n) :: rest => repeat b (Z.to_nat n) ++ expand rest
  end.

(** A digital, active-high decoder with the timing [D], [H], [W]. *)
Definition rigged (d : morseDecoder.t) (D H W : Z) : Prop :=
  morseDecoder.morseAudio d = false
  /\ morseDecoder.activeLow d = false
  /\ morseDecoder.debounceDelay d = 20
  /\ morseDecoder.dotTime d = D
  /\ morseDecoder.dashTime d = H
  /\ morseDecoder.wordSpace d = W.

(** The members that [decode()] works on, between two iterations of the
    loop: the mailbox is empty. *)
Definition views (d : morseDecoder.t) (S L G SP : bool) (LD MT ST J P : Z)
  : Prop :=
  morseDecoder.morseSignalState d = S
  /\ morseDecoder.lastKeyerState d = L
  /\ morseDecoder.gotLastSig d = G
  /\ morseDecoder.morseSpace d = SP
  /\ morseDecoder.decodedMorseChar d = 0
  /\ morseDecoder.lastDebounceTime d = LD
  /\ morseDecoder.markTime d = MT
  /\ morseDecoder.spaceTime d = ST
  /\ morseDecoder.morseTableJumper d = J
  /\ morseDecoder.morseTablePointer d = P.
(** Nothing is due during the debounce of the next edge, which is read
    at [r]: neither a letter nor a space. *)
Definition calm (D W r ST J : Z) (SP : bool) : Prop :=
  forall x, r <= x <= r + 20 ->
    (D * 2 <=? x - ST) && (J <? Z.quot (morseTreetop + 1) 2) = false
    /\ (Z.quot (W * 2) 3 <? x - ST) && Bool.eqb SP false = false.

(** A decoder at rest: the last pulse has been taken and the tree is at
    its top. *)
Definition settled (d : morseDecoder.t) : Prop :=
  morseDecoder.gotLastSig d = true
  /\ morseDecoder.morseTableJumper d = Z.quot (morseTreetop + 1) 2.

(** The level of the keyer that a digital tick reads. *)
Definition keyer_level (d : morseDecoder.t) (s : sample) : bool :=
  if morseDecoder.activeLow d then negb (digitalRead s) else digitalRead s.

(** What the plan for a position of the table has to be: one to six
    cells, closed by the NUL; for the top of the tree, and for the position
    past the table that stands for a character not found, the word space;
    for every other position dots and dashes that lead the decoder to it. *)
Definition plan_good (morseTablePos : Z) (e : morseEncoder.t) : bool :=
  let n := morseEncoder.morseSignals e in
  (1 <=? n) && (n <=? 6)
  && (morseEncoder.load (morseEncoder.morseSignalString e) n =? 0)
  && forallb (fun k =>
                let c := morseEncoder.load (morseEncoder.morseSignalString e)
                           (Z.of_nat k) in
                (c =? chr ".") || (c =? chr "-") || (c =? chr " "))
             (seq 0 (Z.to_nat n))
  && (if (morseTablePos =? morseTreetop + 1)
         || (morseTablePos =? morseTableLength + 1)
      then list_char_eqb (planned e) [chr " "]
      else forallb (fun c => (c =? chr ".") || (c =? chr "-")) (planned e)
           && (fst (walk (planned e)) =? morseTablePos - 1)
           && (Z.of_nat (List.length (planned e)) =? n)
           && negb (morseEncoder.load (morseEncoder.morseSignalString e) 0
                    =? chr " ")).

(** The members of a decoder that only the constructor and [setspeed]
    write. *)
Definition config (d : morseDecoder.t) : bool * bool * Z * Z * Z :=
  (morseDecoder.morseAudio d, morseDecoder.activeLow d, morseDecoder.wpm d,
   morseDecoder.AudioThreshold d, morseDecoder.debounceDelay d).

(** The readings of an audio tick. *)
Definition audio_sample (a : Z) : sample :=
  {| digitalRead := false; analogRead := a |}.

(** ** The trainer sketch (main.cpp)

    The preferences, their menu and their storage in the EEPROM, the main
    menu, the serial buttons and the choice of the characters to send.
    [byte] values are modelled as [Z] with the conversion [to_byte] where
    the source converts; the text sent to the display and to the serial
    port is not modelled. *)
Module Trainer.

(** Conversion to [byte] (8 bits, unsigned). *)
Definition to_byte (z : Z) : Z := z mod 256.

(** Arduino's macro
    [constrain(amt,low,high) ((amt)<(low)?(low):((amt)>(high)?(high):(amt)))]. *)
Definition constrain (amt low high : Z) : Z :=
  if amt <? low then low else if high <? amt then high else amt.

Definition SAVED_FLG : Z := 0.
Definition GROUP_NUM : Z := 1.
Definition GROUP_DLY : Z := 2.
Definition KEY_SPEED : Z := 3.
Definition CHAR_SET : Z := 4.
Definition KOCH_NUM : Z := 5.
Definition KOCH_SKIP : Z := 6.
Definition OUT_MODE : Z := 7.
Definition NUM_PREFS : Z := 8.

(** [byte prefs[NUM_PREFS];] *)
Inductive table := Prefs (p0 p1 p2 p3 p4 p5 p6 p7 : Z).

(** [prefs[i]] and [prefs[i] = v]; an index outside the table is undefined
    in C++, the model reads 0 and stores nothing there. *)
Definition get (p : table) (i : Z) : Z :=
  match p, i with
  | Prefs v _ _ _ _ _ _ _, 0 => v
  | Prefs _ v _ _ _ _ _ _, 1 => v
  | Prefs _ _ v _ _ _ _ _, 2 => v
  | Prefs _ _ _ v _ _ _ _, 3 => v
  | Prefs _ _ _ _ v _ _ _, 4 => v
  | Prefs _ _ _ _ _ v _ _, 5 => v
  | Prefs _ _ _ _ _ _ v _, 6 => v
  | Prefs _ _ _ _ _ _ _ v, 7 => v
  | _, _ => 0
  end.

Definition put (p : table) (i v : Z) : table :=
  match p, i with
  | Prefs _ p1 p2 p3 p4 p5 p6 p7, 0 => Prefs v p1 p2 p3 p4 p5 p6 p7
  | Prefs p0 _ p2 p3 p4 p5 p6 p7, 1 => Prefs p0 v p2 p3 p4 p5 p6 p7
  | Prefs p0 p1 _ p3 p4 p5 p6 p7, 2 => Prefs p0 p1 v p3 p4 p5 p6 p7
  | Prefs p0 p1 p2 _ p4 p5 p6 p7, 3 => Prefs p0 p1 p2 v p4 p5 p6 p7
  | Prefs p0 p1 p2 p3 _ p5 p6 p7, 4 => Prefs p0 p1 p2 p3 v p5 p6 p7
  | Prefs p0 p1 p2 p3 p4 _ p6 p7, 5 => Prefs p0 p1 p2 p3 p4 v p6 p7
  | Prefs p0 p1 p2 p3 p4 p5 _ p7, 6 => Prefs p0 p1 p2 p3 p4 p5 v p7
  | Prefs p0 p1 p2 p3 p4 p5 p6 _, 7 => Prefs p0 p1 p2 p3 p4 p5 p6 v
  | _, _ => p
  end.

(** The global table before [prefs_init()]: zero-initialised. *)
Definition zeroed : table := Prefs 0 0 0 0 0 0 0 0.

(** [const byte lo_lim[] {0, 1, 0, 10, 1, 1, 0, 0};] and
    [const byte hi_lim[] {170, 15, 30, 30, 6, 40, 39, 1};] *)
Definition lo_lim : list Z := [0; 1; 0; 10; 1; 1; 0; 0].
Definition hi_lim : list Z := [170; 15; 30; 30; 6; 40; 39; 1].

Definition at_index (l : list Z) (i : Z) : Z := nth (Z.to_nat i) l 0.

(** [byte prefs_set(byte pref, int val)]: the value returned and the
    table after the call. *)
Definition prefs_set (p : table) (pref val : Z) : Z * table :=
  let indx := to_byte (constrain pref 0 (NUM_PREFS - 1)) in
  let val := if at_index hi_lim indx <? val then at_index lo_lim indx
             else val in
  let val := if val <? at_index lo_lim indx then at_index hi_lim indx
             else val in
  let new_val :=
    to_byte (constrain val (at_index lo_lim indx) (at_index hi_lim indx)) in
  if (indx =? SAVED_FLG) || (indx =? GROUP_NUM) || (indx =? GROUP_DLY)
     || (indx =? KEY_SPEED) || (indx =? CHAR_SET) || (indx =? KOCH_NUM)
     || (indx =? OUT_MODE)
  then (new_val, put p indx new_val)
  else if indx =? KOCH_SKIP then
    let new_val := if get p KOCH_NUM <=? new_val
                   then to_byte (get p KOCH_NUM - 1) else new_val in
    (new_val, put p indx new_val)
  else (new_val, p).

(** The EEPROM: the byte at every address. *)
Definition eeprom := Z -> Z.

Definition EEPROM_write (ee : eeprom) (a v : Z) : eeprom :=
  fun x => if x =? a then v else ee x.

(** The loop [for (idx = 0; idx < NUM_PREFS; idx++)
    prefs_set(idx, EEPROM.read(idx));] from [idx] on, with [n] iterations
    left. *)
Fixpoint restore (n : nat) (idx : Z) (ee : eeprom) (p : table) : table :=
  match n with
  | O => p
  | S n' => restore n' (idx + 1) ee (snd (prefs_set p (to_byte idx) (ee idx)))
  end.

(** [void prefs_init()] *)
Definition prefs_init (p : table) (ee : eeprom) : table :=
  if ee 0 =? 170 then restore (Z.to_nat NUM_PREFS) 0 ee p
  else
    let p := snd (prefs_set p SAVED_FLG 0) in
    let p := snd (prefs_set p GROUP_NUM 1) in
    let p := snd (prefs_set p GROUP_DLY 0) in
    let p := snd (prefs_set p KEY_SPEED 25) in
    let p := snd (prefs_set p CHAR_SET 5) in
    let p := snd (prefs_set p KOCH_NUM 5) in
    let p := snd (prefs_set p KOCH_SKIP 0) in
    snd (prefs_set p OUT_MODE 1).

(** The loop [for (i = 0; i < NUM_PREFS; i++) EEPROM.write(i, prefs[i]);] *)
Fixpoint save (n : nat) (i : Z) (p : table) (ee : eeprom) : eeprom :=
  match n with
  | O => ee
  | S n' => save n' (i + 1) p (EEPROM_write ee i (get p i))
  end.

Definition BUTTON_UP : Z := 8.
Definition BUTTON_DOWN : Z := 4.
Definition BUTTON_LEFT : Z := 16.
Definition BUTTON_RIGHT : Z := 2.
Definition BUTTON_SELECT : Z := 1.

(** [buttons & MASK] as a condition. *)
Definition pressed (buttons mask : Z) : bool :=
  negb (Z.land buttons mask =? 0).

(** [uint8_t readButtons(void)], for the characters waiting on the serial
    port: the reply after the loop. *)
Definition readButtons (input : list char) : Z :=
  fold_left
    (fun reply serialInput =>
       if serialInput =? chr " " then 1
       else if serialInput =? chr "d" then 2
       else if serialInput =? chr "s" then 4
       else if serialInput =? chr "w" then 8
       else if serialInput =? chr "a" then 16
       else reply)
    input 0.

(** One pass of the loop of [get_mode()] after a button press: the new
    entry. *)
Definition menu_move (entry buttons : Z) : Z :=
  let entry := if pressed buttons BUTTON_UP then entry - 1 else entry in
  let entry := if pressed buttons BUTTON_DOWN then entry + 1 else entry in
  let entry := if 4 <? entry then 0 else entry in
  let entry := if entry <? 0 then 4 else entry in
  constrain entry 1 4.

(** [byte get_mode()], for the successive button presses (the values that
    end the wait [while(!(buttons = readButtons()))]); [None] while no
    press has selected an entry. *)
Fixpoint get_mode_from (entry : Z) (presses : list Z) : option Z :=
  match presses with
  | [] => None
  | buttons :: rest =>
      let entry := menu_move entry buttons in
      if pressed buttons BUTTON_SELECT then Some (to_byte entry)
      else get_mode_from entry rest
  end.

Definition get_mode (presses : list Z) : option Z := get_mode_from 1 presses.

(** The state of the menu of [set_prefs()]: the preference shown, the
    value shown, and the table. *)
Record menu := { pref : Z; p_val : Z; prefs : table }.

(** One button press in [set_prefs()]: the new state, and whether the
    menu is done. *)
Definition prefs_press (m : menu) (buttons : Z) : menu * bool :=
  if pressed buttons BUTTON_SELECT then (m, true)
  else if pressed buttons BUTTON_UP then
    let pref1 := to_byte (pref m - 1) in
    let tmp := pref1 in
    let pref2 := to_byte (constrain tmp 1 (NUM_PREFS - 1)) in
    ({| pref := pref2; p_val := get (prefs m) pref2; prefs := prefs m |},
     false)
  else if pressed buttons BUTTON_DOWN then
    let pref1 := to_byte (pref m + 1) in
    let tmp := pref1 in
    let tmp := if NUM_PREFS - 1 <? tmp then 1 else tmp in
    let pref2 := to_byte (constrain tmp 1 (NUM_PREFS - 1)) in
    ({| pref := pref2; p_val := get (prefs m) pref2; prefs := prefs m |},
     false)
  else if pressed buttons BUTTON_RIGHT then
    let tmp := p_val m + 1 in
    let '(v, p) := prefs_set (prefs m) (pref m) tmp in
    ({| pref := pref m; p_val := v; prefs := p |}, false)
  else if pressed buttons BUTTON_LEFT then
    let tmp := p_val m - 1 in
    let '(v, p) := prefs_set (prefs m) (pref m) tmp in
    ({| pref := pref m; p_val := v; prefs := p |}, false)
  else (m, false).

Fixpoint prefs_menu (m : menu) (presses : list Z) : option menu :=
  match presses with
  | [] => None
  | buttons :: rest =>
      let '(m, done) := prefs_press m buttons in
      if done then Some m else prefs_menu m rest
  end.

(** [void set_prefs()], for the successive button presses: the table and
    the EEPROM when the menu has been left with the select button. *)
Definition set_prefs (p : table) (ee : eeprom) (presses : list Z)
  : option (table * eeprom) :=
  match prefs_menu {| pref := 1; p_val := get p 1; prefs := p |} presses with
  | None => None
  | Some m =>
      let p := snd (prefs_set (prefs m) SAVED_FLG 170) in
      Some (p, save (Z.to_nat NUM_PREFS) 0 p ee)
  end.

(** The character sets of [morse_trainer()]. *)
Definition koch : list char :=
  chars "KMRSUAPTLOWI.NJEF0YV,G5/Q9ZH38B?427C1D6X" ++ [0].
Definition alpha : list char :=
  chars "0123456789ABCDEFGHIJKLMNOPQRSTUVWXYZ,./?" ++ [0].

(** The switch on [prefs[CHAR_SET]]: the set and the range of indices;
    [None] where the switch leaves them unset. *)
Definition char_range (p : table) : option (Z * Z * Z) :=
  let cs := get p CHAR_SET in
  if cs =? 1 then Some (0, 10, 36)
  else if cs =? 2 then Some (0, 0, 10)
  else if cs =? 3 then Some (0, 36, 40)
  else if cs =? 4 then Some (0, 0, 40)
  else if cs =? 5 then Some (1, get p KOCH_SKIP, get p KOCH_NUM)
  else if cs =? 6 then Some (1, get p KOCH_SKIP, get p KOCH_NUM)
  else None.

(** [ch_buf[j]] after [strcpy_P(ch_buf, char_sets[cset])]. *)
Definition ch_buf (cset j : Z) : option char :=
  if j <? 0 then None
  else nth_error (if cset =? 0 then alpha else koch) (Z.to_nat j).

(** What Arduino's [random(lo, hi)] may return: [lo] when the range is
    empty, and otherwise a value from [lo] up to [hi - 1]. *)
Definition random_result (lo hi j : Z) : Prop :=
  if hi <=? lo then j = lo else lo <= j < hi.

(** [caCwRx[i] = v] for the [char caCwRx[9]] of [morse_decode()]: a
    write outside the array is undefined in C++, here [None]. *)
Definition cell_write (buf : list char) (i : Z) (v : char)
  : option (list char) :=
  if (0 <=? i) && (i <? Z.of_nat (List.length buf))
  then Some (firstn (Z.to_nat i) buf ++ v :: skipn (S (Z.to_nat i)) buf)
  else None.

(** The counter and the buffer of [morse_decode()]. *)
Record display := { ch_cnt : Z; caCwRx : list char }.

(** [byte ch_cnt = 0; char caCwRx[9] = "      \n";]: six spaces, the
    newline, and the NUL in the two cells left. *)
Definition display0 : display :=
  {| ch_cnt := 0; caCwRx := chars "      " ++ [10; 0; 0] |}.

(** The body of [if (morseInput.available())] in [morse_decode()], for
    the character read. *)
Definition show (s : display) (cw_rx : char) : option display :=
  if negb (cw_rx =? chr " ") then
    let s := if ch_cnt s =? 8
             then {| ch_cnt := 0;
                     caCwRx := repeat (chr " ") 8 ++ skipn 8 (caCwRx s) |}
             else s in
    let n := to_byte (ch_cnt s + 1) in
    match cell_write (caCwRx s) n cw_rx with
    | None => None
    | Some b =>
        match cell_write b (n + 1) 10 with
        | None => None
        | Some b => Some {| ch_cnt := n; caCwRx := b |}
        end
    end
  else Some s.

(** The characters read one after the other. *)
Fixpoint shown (s : display) (cs : list char) : option display :=
  match cs with
  | [] => Some s
  | c :: rest =>
      match show s c with
      | None => None
      | Some s => shown s rest
      end
  end.

(** The value that [prefs_set] makes of [val] for the preference [i]:
    the lower limit above the upper limit, the upper limit below the lower
    limit. *)
Definition wrapped (i val : Z) : Z :=
  if at_index hi_lim i <? val then at_index lo_lim i
  else if val <? at_index lo_lim i then at_index hi_lim i
  else val.

(** Every preference is within its limits. *)
Definition within_limits (p : table) : Prop :=
  forall i, 0 <= i < NUM_PREFS ->
            at_index lo_lim i <= get p i <= at_index hi_lim i.

End Trainer.

(** ** The earlier sketch (cw-trainer.ino)

    The choice of the characters in the earlier version of the trainer:
    seven preferences, other upper ends of the ranges, and another Koch
    table. *)
Module TrainerOld.

Definition CHAR_SET : Z := 3.
Definition KOCH_NUM : Z := 4.
Definition KOCH_SKIP : Z := 5.

(** The character sets of [morse_trainer()]. *)
Definition koch : list char :=
  chars "KMRSUAPTLOWI.NJEF0YV.G5/Q9ZH38B?427C1D6X" ++ [0].
Definition alpha : list char :=
  chars "0123456789ABCDEFGHIJKLMNOPQRSTUVWXYZ,./?" ++ [0].

(** The switch on [prefs[CHAR_SET]], for the table [prefs]. *)
Definition char_range (prefs : Z -> Z) : option (Z * Z * Z) :=
  let cs := prefs CHAR_SET in
  if cs =? 1 then Some (0, 10, 35)
  else if cs =? 2 then Some (0, 0, 9)
  else if cs =? 3 then Some (0, 36, 39)
  else if cs =? 4 then Some (0, 0, 39)
  else if cs =? 5 then Some (1, prefs KOCH_SKIP, prefs KOCH_NUM)
  else if cs =? 6 then Some (1, prefs KOCH_SKIP, prefs KOCH_NUM)
  else None.

(** [ch_buf[j]] after [strcpy_P(ch_buf, char_sets[cset])]. *)
Definition ch_buf (cset j : Z) : option char :=
  if j <? 0 then None
  else nth_error (if cset =? 0 then alpha else koch) (Z.to_nat j).

End TrainerOld.

(** ** Messages *)

(** The characters that the encoder keys with dots and dashes: those
    whose capital the table holds, the space apart. *)
Definition letter (c : char) : bool :=
  existsb (Z.eqb (morseEncoder.capital c)) morseTable
  && negb (morseEncoder.capital c =? chr " ").

(** What a decoder at rest is to yield for a message: the capital of
    every letter, and one space for every run of other characters that
    follows a letter.  [sp] tells that the space of the current pause has
    been written. *)
Fixpoint heard_of (sp : bool) (msg : list char) : list char :=
  match msg with
  | [] => []
  | c :: rest =>
      if letter c
      then morseEncoder.capital c :: heard_of false rest
      else (if sp then [] else [chr " "]) ++ heard_of true rest
  end.

(** The rig between two characters: the encoder is idle and the pin low,
    the decoder is at rest, and unless the space has been written the last
    pulse fell a dash time and a tick ago. *)
Definition between (r : Rig.t) (now : Z) (sp : bool) (D H W : Z) : Prop :=
  idle (Rig.enc r) D H W
  /\ Rig.pin r = false
  /\ rigged (Rig.dec r) D H W
  /\ exists f MT,
       views (Rig.dec r) false false true sp f MT f
             (Z.quot (morseTreetop + 1) 2) morseTreetop
       /\ (sp = true \/ now = f + H + 1).
(** ** Lemmas on the phases of [decode] *)
Section DecoderPhases.

Import morseDecoder.

Ltac split_ifs :=
  repeat match goal with
         | |- context [if ?b then _ else _] => destruct b eqn:?
         end.

(** What the front end leaves alone. *)
Lemma front_end_frame (d : t) (s : sample) :
  let d' := front_end d s in
  morseTableJumper d' = morseTableJumper d
  /\ morseTablePointer d' = morseTablePointer d
  /\ gotLastSig d' = gotLastSig d
  /\ morseSpace d' = morseSpace d
  /\ decodedMorseChar d' = decodedMorseChar d
  /\ dotTime d' = dotTime d
  /\ dashTime d' = dashTime d
  /\ wordSpace d' = wordSpace d
  /\ currentTime d' = currentTime d.
Proof.
  destruct d; unfold front_end; cbn; split_ifs; cbn; repeat split.
Qed.

Lemma classify_frame (d : t) :
  let d' := classify d in
  morseSpace d' = morseSpace d
  /\ morseSignalState d' = morseSignalState d
  /\ morseKeyer d' = morseKeyer d
  /\ spaceTime d' = spaceTime d
  /\ currentTime d' = currentTime d
  /\ wordSpace d' = wordSpace d
  /\ dotTime d' = dotTime d
  /\ dashTime d' = dashTime d.
Proof.
  destruct d; unfold classify; cbn; split_ifs; cbn; repeat split.
Qed.

Lemma write_letter_frame (d : t) :
  let d' := write_letter d in
  morseSpace d' = morseSpace d
  /\ morseSignalState d' = morseSignalState d
  /\ morseKeyer d' = morseKeyer d
  /\ gotLastSig d' = gotLastSig d
  /\ spaceTime d' = spaceTime d
  /\ currentTime d' = currentTime d
  /\ wordSpace d' = wordSpace d
  /\ dotTime d' = dotTime d
  /\ dashTime d' = dashTime d.
Proof.
  destruct d; unfold write_letter; cbn; split_ifs; cbn; repeat split.
Qed.

Lemma write_space_frame (d : t) :
  let d' := write_space d in
  morseTableJumper d' = morseTableJumper d
  /\ morseTablePointer d' = morseTablePointer d
  /\ morseSignalState d' = morseSignalState d
  /\ morseKeyer d' = morseKeyer d
  /\ gotLastSig d' = gotLastSig d
  /\ spaceTime d' = spaceTime d
  /\ wordSpace d' = wordSpace d
  /\ dotTime d' = dotTime d
  /\ dashTime d' = dashTime d.
Proof.
  destruct d; unfold write_space; cbn; split_ifs; cbn; repeat split.
Qed.

(** A tick that ends without signal has run the three steps of the
    silent branch. *)
Lemma decode_silent (d : t) (now : Z) (s : sample) :
  morseSignalState (sensed d now s) = false ->
  decode d now s =
  let d3 := write_space (write_letter (classify (sensed d now s))) in
  set_lastKeyerState (morseKeyer d3) d3.
Proof.
  unfold decode, sensed. intros H. rewrite H. reflexivity.
Qed.

Lemma decode_signal (d : t) (now : Z) (s : sample) :
  morseSignalState (sensed d now s) = true ->
  decode d now s =
  let d1 := set_morseSpace false (set_gotLastSig false (sensed d now s)) in
  set_lastKeyerState (morseKeyer d1) d1.
Proof.
  unfold decode, sensed. intros H. rewrite H. reflexivity.
Qed.

(** The members after a tick, read off the state in which the last step
    of the branch taken leaves them. *)
Lemma decode_silent_fields (d : t) (now : Z) (s : sample) :
  morseSignalState (sensed d now s) = false ->
  let d3 := write_space (write_letter (classify (sensed d now s))) in
  let d' := decode d now s in
  decodedMorseChar d' = decodedMorseChar d3
  /\ morseTableJumper d' = morseTableJumper d3
  /\ morseTablePointer d' = morseTablePointer d3
  /\ morseSpace d' = morseSpace d3
  /\ gotLastSig d' = gotLastSig d3
  /\ spaceTime d' = spaceTime d3
  /\ morseSignalState d' = morseSignalState d3
  /\ wordSpace d' = wordSpace d3
  /\ dotTime d' = dotTime d3
  /\ dashTime d' = dashTime d3.
Proof.
  intros H. cbv zeta. rewrite (decode_silent _ _ _ H). cbv zeta.
  generalize (write_space (write_letter (classify (sensed d now s)))).
  intros d3. destruct d3. cbn. repeat split.
Qed.

Lemma decode_signal_fields (d : t) (now : Z) (s : sample) :
  morseSignalState (sensed d now s) = true ->
  let d1 := sensed d now s in
  let d' := decode d now s in
  decodedMorseChar d' = decodedMorseChar d1
  /\ morseTableJumper d' = morseTableJumper d1
  /\ morseTablePointer d' = morseTablePointer d1
  /\ morseSpace d' = false
  /\ gotLastSig d' = false
  /\ spaceTime d' = spaceTime d1
  /\ morseSignalState d' = morseSignalState d1
  /\ wordSpace d' = wordSpace d1
  /\ dotTime d' = dotTime d1
  /\ dashTime d' = dashTime d1.
Proof.
  intros H. cbv zeta. rewrite (decode_signal _ _ _ H). cbv zeta.
  generalize (sensed d now s). intros d1. destruct d1. cbn. repeat split.
Qed.

(** The members of the state that the front end leaves, in terms of the
    state before the tick. *)
Lemma sensed_frame (d : t) (now : Z) (s : sample) :
  let d1 := sensed d now s in
  morseTableJumper d1 = morseTableJumper d
  /\ morseTablePointer d1 = morseTablePointer d
  /\ gotLastSig d1 = gotLastSig d
  /\ morseSpace d1 = morseSpace d
  /\ decodedMorseChar d1 = decodedMorseChar d
  /\ dotTime d1 = dotTime d
  /\ dashTime d1 = dashTime d
  /\ wordSpace d1 = wordSpace d
  /\ currentTime d1 = now.
Proof.
  cbv zeta. unfold sensed.
  destruct (front_end_frame (set_currentTime now d) s)
    as (-> & -> & -> & -> & -> & -> & -> & -> & ->).
  destruct d. cbn. repeat split.
Qed.

Lemma decode_signal_state (d : t) (now : Z) (s : sample) :
  morseSignalState (decode d now s) = morseSignalState (sensed d now s).
Proof.
  destruct (morseSignalState (sensed d now s)) eqn:H.
  - destruct (decode_signal_fields _ _ _ H)
      as (_ & _ & _ & _ & _ & _ & -> & _).
    exact H.
  - destruct (decode_silent_fields _ _ _ H)
      as (_ & _ & _ & _ & _ & _ & -> & _).
    destruct (write_space_frame (write_letter (classify (sensed d now s))))
      as (_ & _ & -> & _).
    destruct (write_letter_frame (classify (sensed d now s)))
      as (_ & -> & _).
    destruct (classify_frame (sensed d now s)) as (_ & -> & _).
    exact H.
Qed.

End DecoderPhases.

(** ** Speed setting *)
Section Speed.

(** C5 (amended).  For every decoder, every encoder and every integer
    [value], [setspeed(value)] clamps a speed of zero or less to 1 and then
    sets the dot time to 1200/wpm, the dash time to 3600/wpm and the word
    space to 8400/wpm, each by one integer division of the product; the
    dash time and the word space are not computed from the truncated dot
    time.  At 13 wpm the values are 92, 276 and 646. *)
Theorem setspeed_timing (d : morseDecoder.t) (e : morseEncoder.t) (value : Z) :
  let w := if value <=? 0 then 1 else value in
  let d' := morseDecoder.setspeed d value in
  let e' := morseEncoder.setspeed e value in
  (morseDecoder.wpm d' = w
   /\ morseDecoder.dotTime d' = Z.quot 1200 w
   /\ morseDecoder.dashTime d' = Z.quot 3600 w
   /\ morseDecoder.wordSpace d' = Z.quot 8400 w)
  /\ (morseEncoder.wpm e' = w
      /\ morseEncoder.dotTime e' = Z.quot 1200 w
      /\ morseEncoder.dashTime e' = Z.quot 3600 w
      /\ morseEncoder.wordSpace e' = Z.quot 8400 w)
  /\ (morseDecoder.dotTime (morseDecoder.setspeed d 13) = 92
      /\ morseDecoder.dashTime (morseDecoder.setspeed d 13) = 276
      /\ morseDecoder.wordSpace (morseDecoder.setspeed d 13) = 646)
  /\ (morseEncoder.dotTime (morseEncoder.setspeed e 13) = 92
      /\ morseEncoder.dashTime (morseEncoder.setspeed e 13) = 276
      /\ morseEncoder.wordSpace (morseEncoder.setspeed e 13) = 646).
Proof.
  cbv zeta. unfold morseDecoder.setspeed, morseEncoder.setspeed.
  destruct (value <=? 0); cbn; repeat split; reflexivity.
Qed.

(** C5 as stated fails at 13 wpm: the dash time is 276, not 277, and the
    word space 646 is not 7 times the dot time 92. *)
Lemma setspeed_13_dash_276 :
  let d := morseDecoder.setspeed (morseDecoder.new 4 false false) 13 in
  let e := morseEncoder.setspeed (morseEncoder.new 13) 13 in
  morseDecoder.dashTime d <> 277
  /\ morseDecoder.wordSpace d <> 7 * morseDecoder.dotTime d
  /\ morseEncoder.dashTime e <> 277
  /\ morseEncoder.wordSpace e <> 7 * morseEncoder.dotTime e.
Proof. cbv. repeat split; discriminate. Qed.

End Speed.

(** ** The mailbox *)
Section Mailbox.

Import morseDecoder.

(** C10.  [available()] is true exactly when the pending character is not
    NUL; [read()] returns the pending character and leaves NUL, so it
    returns NUL when nothing is pending, and [available()] is false right
    after a [read()]. *)
Theorem available_read (d : t) :
  (available d = true <-> decodedMorseChar d <> 0)
  /\ fst (read d) = decodedMorseChar d
  /\ decodedMorseChar (snd (read d)) = 0
  /\ fst (read d) = (if available d then decodedMorseChar d else 0)
  /\ available (snd (read d)) = false.
Proof.
  unfold available, read. cbn.
  destruct (Z.eqb_spec (decodedMorseChar d) 0) as [E|E].
  - rewrite E. repeat split; try reflexivity; try discriminate.
    intros H; now elim H.
  - repeat split; try reflexivity; auto.
Qed.

End Mailbox.

(** ** The position in the tree *)
Section Tree.

Import morseDecoder.

Lemma tree_inv_new pin a p : tree_inv (new pin a p).
Proof. left. split; reflexivity. Qed.

Lemma tree_inv_ext (d d' : t) :
  morseTableJumper d' = morseTableJumper d ->
  morseTablePointer d' = morseTablePointer d ->
  tree_inv d -> tree_inv d'.
Proof. unfold tree_inv. intros -> ->. auto. Qed.

Lemma tree_inv_top (d : t) :
  morseTableJumper d = Z.quot (morseTreetop + 1) 2 ->
  morseTablePointer d = morseTreetop ->
  tree_inv d.
Proof. intros Hj Hp. left. rewrite Hj, Hp. split; reflexivity. Qed.

(** One step down the tree keeps the position inside it. *)
Lemma tree_inv_step (d d' : t) :
  tree_inv d ->
  0 < morseTableJumper d ->
  morseTableJumper d' = Z.quot (morseTableJumper d) 2 ->
  (morseTablePointer d' = morseTablePointer d - morseTableJumper d
   \/ morseTablePointer d' = morseTablePointer d + morseTableJumper d) ->
  tree_inv d'.
Proof.
  unfold tree_inv. cbv zeta. intros H Hpos Hj Hp. rewrite Hj.
  destruct H as [[Ej Ep]|[[Hin Hb]|[Ej Hb]]].
  - rewrite Ej in *. right; left. change (Z.quot 32 2) with 16.
    split; [simpl; auto|lia].
  - simpl in Hin.
    destruct Hin as [Ej|[Ej|[Ej|[Ej|[Ej|[]]]]]]; rewrite <- Ej in *;
      match goal with
      | |- context [Z.quot ?a ?b] =>
          let v := eval cbv in (Z.quot a b) in change (Z.quot a b) with v
      end;
      try (right; left; split; [simpl; tauto|lia]).
    right; right. split; [reflexivity|lia].
  - lia.
Qed.

Lemma tree_inv_classify (d : t) : tree_inv d -> tree_inv (classify d).
Proof.
  intros H. unfold classify.
  destruct (negb (gotLastSig d)); [|exact H].
  destruct (Z.ltb_spec 0 (morseTableJumper d)) as [Hpos|Hle].
  - repeat match goal with
           | |- context [if ?b then _ else _] => destruct b
           end; try exact H.
    + apply (tree_inv_step d); [exact H|exact Hpos|reflexivity|].
      left; reflexivity.
    + apply (tree_inv_step d); [exact H|exact Hpos|reflexivity|].
      right; reflexivity.
  - apply tree_inv_top; reflexivity.
Qed.

Lemma tree_inv_write_letter (d : t) : tree_inv d -> tree_inv (write_letter d).
Proof.
  intros H. unfold write_letter. destruct (letter_due d); [|exact H].
  apply tree_inv_top; reflexivity.
Qed.

Lemma tree_inv_decode (d : t) (now : Z) (s : sample) :
  tree_inv d -> tree_inv (decode d now s).
Proof.
  intros H.
  assert (H1 : tree_inv (sensed d now s)).
  { destruct (sensed_frame d now s) as (Ej & Ep & _).
    eapply tree_inv_ext; [exact Ej|exact Ep|exact H]. }
  destruct (morseSignalState (sensed d now s)) eqn:E.
  - destruct (decode_signal_fields _ _ _ E) as (_ & Ej & Ep & _).
    eapply tree_inv_ext; [exact Ej|exact Ep|exact H1].
  - destruct (decode_silent_fields _ _ _ E) as (_ & Ej & Ep & _).
    destruct (write_space_frame (write_letter (classify (sensed d now s))))
      as (Ej' & Ep' & _).
    rewrite Ej' in Ej. rewrite Ep' in Ep.
    eapply tree_inv_ext;
      [exact Ej|exact Ep|
       exact (tree_inv_write_letter _ (tree_inv_classify _ H1))].
Qed.

Lemma tree_inv_do (d : t) (c : call) : tree_inv d -> tree_inv (do d c).
Proof.
  destruct c; cbn.
  - apply tree_inv_decode.
  - apply tree_inv_ext; reflexivity.
  - apply tree_inv_ext; reflexivity.
Qed.

Lemma tree_inv_run (cs : list call) (d : t) : tree_inv d -> tree_inv (run d cs).
Proof.
  revert d. induction cs as [|c cs IH]; intros d H; cbn; [exact H|].
  apply IH, tree_inv_do, H.
Qed.

Lemma reachable_tree_inv (d : t) : reachable d -> tree_inv d.
Proof.
  intros (pin & a & p & cs & ->). apply tree_inv_run, tree_inv_new.
Qed.

Lemma tree_inv_bounds (d : t) :
  tree_inv d ->
  0 <= morseTablePointer d <= 126
  /\ In (morseTableJumper d) [32; 16; 8; 4; 2; 1; 0].
Proof.
  unfold tree_inv. cbv zeta.
  intros [[Ej Ep]|[[Hin Hb]|[Ej Hb]]].
  - rewrite Ej, Ep. split; [lia|simpl; auto].
  - split; [simpl in Hin; lia|simpl in *; tauto].
  - rewrite Ej. split; [lia|simpl; tauto].
Qed.

(** C9.  In every state reachable from the constructor by [decode] ticks
    on any input, [setspeed] calls and [read] calls, [morseTablePointer] is
    within 0..126 and [morseTableJumper] is one of 32, 16, 8, 4, 2, 1, 0, so
    that [morseTable[morseTablePointer]] is one of the 127 entries of the
    table. *)
Theorem reachable_pointer_in_table (d : t) :
  reachable d ->
  0 <= morseTablePointer d <= 126
  /\ In (morseTableJumper d) [32; 16; 8; 4; 2; 1; 0]
  /\ exists c, nth_error morseTable (Z.to_nat (morseTablePointer d)) = Some c
               /\ morseTable_at (morseTablePointer d) = Some c.
Proof.
  intros H. apply reachable_tree_inv, tree_inv_bounds in H.
  destruct H as [Hp Hj]. split; [exact Hp|]. split; [exact Hj|].
  assert (Hlen : (Z.to_nat (morseTablePointer d) < List.length morseTable)%nat).
  { change (List.length morseTable) with 127%nat. lia. }
  exists (nth (Z.to_nat (morseTablePointer d)) morseTable 0). split.
  - apply nth_error_nth'. exact Hlen.
  - unfold morseTable_at.
    replace ((0 <=? morseTablePointer d)
               && (morseTablePointer d <=? morseTableLength)) with true;
      [reflexivity|].
    symmetry. apply andb_true_iff. unfold morseTableLength, morseTreetop.
    split; lia.
Qed.

Lemma reachable_pointer_in_table_witness :
  let d := run (new 4 false false)
             [Decode 0 {| digitalRead := true; analogRead := 0 |};
              Decode 21 {| digitalRead := true; analogRead := 0 |};
              Decode 92 {| digitalRead := false; analogRead := 0 |};
              Decode 140 {| digitalRead := false; analogRead := 0 |}] in
  morseTablePointer d = 31 /\ morseTableJumper d = 16
  /\ 0 <= morseTablePointer d <= 126.
Proof.
  cbv zeta. split; [reflexivity|]. split; [reflexivity|].
  apply (reachable_pointer_in_table
           (run (new 4 false false)
              [Decode 0 {| digitalRead := true; analogRead := 0 |};
               Decode 21 {| digitalRead := true; analogRead := 0 |};
               Decode 92 {| digitalRead := false; analogRead := 0 |};
               Decode 140 {| digitalRead := false; analogRead := 0 |}])).
  exists 4, false, false. eexists. reflexivity.
Defined.

End Tree.

(** ** What a tick writes into the mailbox *)
Section Emission.

Import morseDecoder.

Lemma space_due_classify (d : t) : space_due (classify d) = space_due d.
Proof.
  unfold space_due.
  destruct (classify_frame d) as (-> & _ & _ & -> & -> & -> & _).
  reflexivity.
Qed.

Lemma space_due_write_letter (d : t) : space_due (write_letter d) = space_due d.
Proof.
  unfold space_due.
  destruct (write_letter_frame d) as (-> & _ & _ & _ & -> & -> & -> & _).
  reflexivity.
Qed.

Lemma write_letter_char (d : t) :
  decodedMorseChar (write_letter d) =
  if letter_due d then table_char (morseTablePointer d)
  else decodedMorseChar d.
Proof. unfold write_letter. destruct (letter_due d); reflexivity. Qed.

Lemma write_letter_tree (d : t) :
  morseTableJumper (write_letter d) =
    (if letter_due d then 32 else morseTableJumper d)
  /\ morseTablePointer (write_letter d) =
       (if letter_due d then 63 else morseTablePointer d).
Proof. unfold write_letter. destruct (letter_due d); split; reflexivity. Qed.

Lemma write_space_char (d : t) :
  decodedMorseChar (write_space d) =
  if space_due d then chr " " else decodedMorseChar d.
Proof. unfold write_space. destruct (space_due d); reflexivity. Qed.

Lemma write_space_flag (d : t) :
  morseSpace (write_space d) = if space_due d then true else morseSpace d.
Proof. unfold write_space. destruct (space_due d); reflexivity. Qed.

(** The mailbox and the tree after a tick, by the conditions of the tick. *)
Lemma decode_mailbox (d : t) (now : Z) (s : sample) :
  let d1 := sensed d now s in
  let d2 := classify d1 in
  decodedMorseChar (decode d now s) =
    (if morseSignalState d1 then decodedMorseChar d
     else if space_due d2 then chr " "
     else if letter_due d2 then table_char (morseTablePointer d2)
     else decodedMorseChar d2)
  /\ morseTableJumper (decode d now s) =
       (if morseSignalState d1 then morseTableJumper d
        else if letter_due d2 then 32 else morseTableJumper d2)
  /\ morseTablePointer (decode d now s) =
       (if morseSignalState d1 then morseTablePointer d
        else if letter_due d2 then 63 else morseTablePointer d2).
Proof.
  cbv zeta.
  destruct (sensed_frame d now s) as (Ej & Ep & _ & _ & Ec & _).
  destruct (morseSignalState (sensed d now s)) eqn:E.
  - destruct (decode_signal_fields _ _ _ E) as (-> & -> & -> & _).
    auto.
  - destruct (decode_silent_fields _ _ _ E) as (-> & -> & -> & _).
    set (d2 := classify (sensed d now s)).
    destruct (write_space_frame (write_letter d2)) as (-> & -> & _).
    rewrite write_space_char, space_due_write_letter, write_letter_char.
    destruct (write_letter_tree d2) as (-> & ->). auto.
Qed.

(** C2 (amended).  A tick leaves one character in the mailbox.  While the
    signal is asserted the mailbox is left as it was.  Otherwise the three
    writes are made in the order error mark, letter, space, each replacing
    the one before: when the word-space condition holds the mailbox holds
    the space, also when the letter condition holds on the same tick (the
    letter is then replaced by the space, while the tree is reset all the
    same); when only the letter condition holds it holds the letter. *)
Theorem mailbox_after_decode (d : t) (now : Z) (s : sample) :
  let d1 := sensed d now s in
  let d2 := classify d1 in
  decodedMorseChar (decode d now s) =
    (if morseSignalState d1 then decodedMorseChar d
     else if space_due d2 then chr " "
     else if letter_due d2 then table_char (morseTablePointer d2)
     else decodedMorseChar d2)
  /\ morseTableJumper (decode d now s) =
       (if morseSignalState d1 then morseTableJumper d
        else if letter_due d2 then 32 else morseTableJumper d2)
  /\ morseTablePointer (decode d now s) =
       (if morseSignalState d1 then morseTablePointer d
        else if letter_due d2 then 63 else morseTablePointer d2).
Proof. exact (decode_mailbox d now s). Qed.

(** C2 as stated fails: after a dot keyed at 13 wpm and a pause of 908 ms
    seen in one tick, the letter condition and the word-space condition
    both hold, the letter is E, and the mailbox holds the space. *)
Lemma letter_replaced_by_space :
  let d := run (new 4 false false)
             [Decode 0 (digital true); Decode 21 (digital true);
              Decode 92 (digital false)] in
  let d2 := classify (sensed d 1000 (digital false)) in
  morseSignalState (sensed d 1000 (digital false)) = false
  /\ letter_due d2 = true
  /\ space_due d2 = true
  /\ table_char (morseTablePointer d2) = chr "E"
  /\ decodedMorseChar (decode d 1000 (digital false)) = chr " "
  /\ decodedMorseChar (decode d 1000 (digital false))
     <> table_char (morseTablePointer d2).
Proof. cbv zeta. vm_compute. repeat split; discriminate. Qed.

End Emission.

(** ** Word spaces *)
Section WordSpace.

Import morseDecoder.

Lemma classify_char (d : t) :
  decodedMorseChar (classify d) = chr "#"
  \/ decodedMorseChar (classify d) = decodedMorseChar d.
Proof.
  unfold classify.
  repeat match goal with
         | |- context [if ?b then _ else _] => destruct b
         end; cbn; auto.
Qed.

Lemma classify_got (d : t) : gotLastSig d = true -> classify d = d.
Proof. unfold classify. intros ->. reflexivity. Qed.

(** The space occurs once in the table, at the top of the tree, and the
    error mark does not occur in it. *)
Lemma table_chars_check :
  forallb (fun n => (negb (table_char (Z.of_nat n) =? chr " ")
                     || (Z.of_nat n =? 63))
                    && negb (table_char (Z.of_nat n) =? chr "#"))
          (seq 0 128) = true.
Proof. vm_compute. reflexivity. Qed.

Lemma table_char_cases (p : Z) :
  (table_char p = chr " " -> p = 63) /\ table_char p <> chr "#".
Proof.
  destruct (Z.leb_spec 0 p) as [H0|H0];
    [destruct (Z.leb_spec p 127) as [H1|H1]|].
  - pose proof (proj1 (forallb_forall _ _) table_chars_check (Z.to_nat p)) as H.
    cbv beta in H. rewrite Z2Nat.id in H by exact H0.
    assert (Hin : In (Z.to_nat p) (seq 0 128)) by (apply in_seq; lia).
    apply H, andb_true_iff in Hin. destruct Hin as [Ha Hb]. split.
    + intros E. rewrite E in Ha. cbn in Ha. lia.
    + intros E. rewrite E in Hb. discriminate.
  - unfold table_char, morseTable_at.
    replace (p <=? morseTableLength) with false
      by (symmetry; apply Z.leb_gt; unfold morseTableLength, morseTreetop; lia).
    rewrite andb_false_r. split; discriminate.
  - unfold table_char, morseTable_at.
    replace (0 <=? p) with false by (symmetry; apply Z.leb_gt; lia).
    split; discriminate.
Qed.

(** Below the top of the tree the pointer is never at the top. *)
Lemma tree_inv_off_top (d : t) :
  tree_inv d ->
  morseTableJumper d < Z.quot (morseTreetop + 1) 2 ->
  morseTablePointer d <> 63.
Proof.
  unfold tree_inv. cbv zeta. change (Z.quot (morseTreetop + 1) 2) with 32.
  intros [[Ej Ep]|[[Hin Hb]|[Ej Hb]]] Hlt; [lia| |lia].
  simpl in Hin. lia.
Qed.

Lemma letter_due_below_top (d : t) :
  letter_due d = true -> morseTableJumper d < Z.quot (morseTreetop + 1) 2.
Proof.
  unfold letter_due. intros H. apply andb_true_iff in H. lia.
Qed.

(** A call that ends without signal, made after the space of the pause
    has been written, writes no space. *)
Lemma no_space_step (d : t) (c : call) :
  tree_inv d ->
  morseSpace d = true ->
  decodedMorseChar d <> chr " " ->
  morseSignalState (do d c) = false ->
  morseSpace (do d c) = true /\ decodedMorseChar (do d c) <> chr " ".
Proof.
  intros Hinv Hsp Hc Hq. destruct c as [now s|v|]; unfold do in *.
  - rewrite decode_signal_state in Hq.
    pose proof (decode_mailbox d now s) as Hm. cbv zeta in Hm.
    destruct Hm as (Hm & _). rewrite Hq in Hm.
    destruct (sensed_frame d now s) as (Ej & Ep & _ & Es & Ec & _).
    assert (Hsd : space_due (classify (sensed d now s)) = false).
    { rewrite space_due_classify. unfold space_due. rewrite Es, Hsp.
      apply andb_false_r. }
    rewrite Hsd in Hm. split.
    + destruct (decode_silent_fields _ _ _ Hq) as (_ & _ & _ & -> & _).
      rewrite write_space_flag, space_due_write_letter, Hsd.
      destruct (write_letter_frame (classify (sensed d now s))) as (-> & _).
      destruct (classify_frame (sensed d now s)) as (-> & _).
      rewrite Es. exact Hsp.
    + rewrite Hm.
      destruct (letter_due (classify (sensed d now s))) eqn:El.
      * intros E. apply table_char_cases in E. revert E.
        apply tree_inv_off_top; [|apply letter_due_below_top, El].
        apply tree_inv_classify.
        eapply tree_inv_ext; [exact Ej|exact Ep|exact Hinv].
      * destruct (classify_char (sensed d now s)) as [-> | ->].
        -- discriminate.
        -- rewrite Ec. exact Hc.
  - destruct d; cbn in *. split; assumption.
  - destruct d; cbn in *. split; [assumption|discriminate].
Qed.

Lemma no_space_run (cs : list call) (d : t) :
  tree_inv d ->
  morseSpace d = true ->
  decodedMorseChar d <> chr " " ->
  quiet d cs ->
  morseSpace (run d cs) = true /\ decodedMorseChar (run d cs) <> chr " ".
Proof.
  revert d. induction cs as [|c cs IH]; intros d Hinv Hsp Hc Hq; cbn.
  - split; assumption.
  - destruct Hq as [Hq1 Hq2].
    destruct (no_space_step d c Hinv Hsp Hc Hq1) as [Hsp' Hc'].
    apply IH; auto. apply tree_inv_do, Hinv.
Qed.

(** C6.  In a reachable state in which no space has been written since
    the signal was last asserted (as after a letter), the tick that finds
    the silence longer than 2/3 of the word space writes the space and
    sets the flag; once this space has been fetched, no call of the same
    silence run (ticks at any time and with any reading that leave the
    signal state low, speed changes, further reads) puts a space into the
    mailbox again, and the flag stays set. *)
Theorem one_space_per_silence (d : t) (now : Z) (s : sample) (cs : list call) :
  reachable d ->
  morseSpace d = false ->
  morseSignalState (decode d now s) = false ->
  Z.quot (wordSpace d * 2) 3 < now - spaceTime (decode d now s) ->
  quiet (snd (read (decode d now s))) cs ->
  decodedMorseChar (decode d now s) = chr " "
  /\ morseSpace (decode d now s) = true
  /\ decodedMorseChar (run (snd (read (decode d now s))) cs) <> chr " "
  /\ morseSpace (run (snd (read (decode d now s))) cs) = true.
Proof.
  intros Hr Hsp Hq Hlong Hcs.
  rewrite decode_signal_state in Hq.
  destruct (sensed_frame d now s) as (_ & _ & _ & Es & _ & _ & _ & Ew & Et).
  destruct (decode_silent_fields _ _ _ Hq) as (Hc & _ & _ & Hf & _ & Hst & _).
  assert (Hst' : spaceTime (decode d now s) = spaceTime (sensed d now s)).
  { rewrite Hst.
    destruct (write_space_frame (write_letter (classify (sensed d now s))))
      as (_ & _ & _ & _ & _ & -> & _).
    destruct (write_letter_frame (classify (sensed d now s)))
      as (_ & _ & _ & _ & -> & _).
    destruct (classify_frame (sensed d now s)) as (_ & _ & _ & -> & _).
    reflexivity. }
  assert (Hsd : space_due (classify (sensed d now s)) = true).
  { rewrite space_due_classify. unfold space_due.
    rewrite Es, Hsp, Ew, Et. rewrite Hst' in Hlong.
    apply andb_true_iff. split; [apply Z.ltb_lt; exact Hlong|reflexivity]. }
  rewrite write_space_char, space_due_write_letter, Hsd in Hc.
  rewrite write_space_flag, space_due_write_letter, Hsd in Hf.
  split; [exact Hc|]. split; [exact Hf|].
  apply and_comm.
  assert (Hd : tree_inv (decode d now s))
    by (apply tree_inv_decode, reachable_tree_inv, Hr).
  revert Hcs Hd Hf. generalize (decode d now s). intros x Hcs Hd Hf.
  apply no_space_run.
  - destruct x. exact Hd.
  - destruct x. exact Hf.
  - destruct x. cbn. discriminate.
  - exact Hcs.
Qed.

Lemma one_space_per_silence_witness :
  let d := run (new 4 false false)
             [Decode 0 (digital true); Decode 21 (digital true);
              Decode 92 (digital false); Decode 300 (digital false)] in
  let d' := decode d 530 (digital false) in
  let cs := [Decode 531 (digital false); Read; Decode 5000 (digital false)] in
  decodedMorseChar d = chr "E"
  /\ decodedMorseChar d' = chr " "
  /\ decodedMorseChar (run (snd (read d')) cs) <> chr " ".
Proof.
  cbv zeta. split; [reflexivity|].
  refine ((fun H => conj (proj1 H) (proj1 (proj2 (proj2 H))))
            (one_space_per_silence
               (run (new 4 false false)
                  [Decode 0 (digital true); Decode 21 (digital true);
                   Decode 92 (digital false); Decode 300 (digital false)])
               530 (digital false)
               [Decode 531 (digital false); Read; Decode 5000 (digital false)]
               _ _ _ _ _)).
  - exists 4, false, false. eexists. reflexivity.
  - reflexivity.
  - reflexivity.
  - vm_compute. reflexivity.
  - vm_compute. repeat split.
Defined.

End WordSpace.

(** ** Classification of a pulse *)
Section Classification.

Import morseDecoder.

Lemma timed_ext (d d' : t) (w : Z) :
  dotTime d' = dotTime d -> dashTime d' = dashTime d ->
  wordSpace d' = wordSpace d -> timed d w -> timed d' w.
Proof. unfold timed. intros -> -> ->. auto. Qed.

Lemma timed_decode (d : t) (now : Z) (s : sample) (w : Z) :
  timed d w -> timed (decode d now s) w.
Proof.
  intros H.
  destruct (sensed_frame d now s) as (_ & _ & _ & _ & _ & Ed & Ea & Ew & _).
  destruct (morseSignalState (sensed d now s)) eqn:E.
  - destruct (decode_signal_fields _ _ _ E)
      as (_ & _ & _ & _ & _ & _ & _ & Ew' & Ed' & Ea').
    eapply timed_ext; [| | |exact H]; congruence.
  - destruct (decode_silent_fields _ _ _ E)
      as (_ & _ & _ & _ & _ & _ & _ & Ew' & Ed' & Ea').
    destruct (write_space_frame (write_letter (classify (sensed d now s))))
      as (_ & _ & _ & _ & _ & _ & Ew3 & Ed3 & Ea3).
    destruct (write_letter_frame (classify (sensed d now s)))
      as (_ & _ & _ & _ & _ & _ & Ew2 & Ed2 & Ea2).
    destruct (classify_frame (sensed d now s))
      as (_ & _ & _ & _ & _ & Ew1 & Ed1 & Ea1).
    eapply timed_ext; [| | |exact H]; congruence.
Qed.

Lemma timed_new pin a p : timed (new pin a p) 13.
Proof. repeat split. Qed.

Lemma timed_setspeed (d : t) (value : Z) :
  timed (setspeed d value) (if value <=? 0 then 1 else value).
Proof. unfold setspeed. destruct (value <=? 0); repeat split. Qed.

Lemma timed_run (cs : list call) (d : t) :
  (exists w, 1 <= w /\ timed d w) ->
  exists w, 1 <= w /\ timed (run d cs) w.
Proof.
  revert d. induction cs as [|c cs IH]; intros d H; cbn; [exact H|].
  apply IH. destruct c as [now s|v|]; cbn.
  - destruct H as (w & Hw & H). exists w. split; [exact Hw|].
    apply timed_decode, H.
  - exists (if v <=? 0 then 1 else v). split; [|apply timed_setspeed].
    destruct (Z.leb_spec v 0); lia.
  - destruct H as (w & Hw & H). exists w. split; [exact Hw|].
    destruct d; exact H.
Qed.

(** The timing of a reachable decoder is the one of some speed of at
    least 1 wpm. *)
Lemma reachable_timed (d : t) : reachable d -> exists w, 1 <= w /\ timed d w.
Proof.
  intros (pin & a & p & cs & ->). apply timed_run.
  exists 13. split; [lia|apply timed_new].
Qed.

(** The dash time is at least three dot times. *)
Lemma timed_ratio (d : t) (w : Z) :
  1 <= w -> timed d w ->
  0 <= dotTime d /\ 3 * dotTime d <= dashTime d.
Proof.
  intros Hw (Ed & Ea & _). rewrite Ed, Ea.
  rewrite !Z.quot_div_nonneg by lia.
  split; [apply Z.div_pos; lia|].
  apply Z.div_le_lower_bound; [lia|].
  pose proof (Z.mul_div_le 1200 w ltac:(lia)). lia.
Qed.

(** The dash time is at most three dot times and 2 ms. *)
Lemma timed_ratio_upper (d : t) (w : Z) :
  1 <= w -> timed d w -> dashTime d <= 3 * dotTime d + 2.
Proof.
  intros Hw (Ed & Ea & _). rewrite Ed, Ea.
  rewrite !Z.quot_div_nonneg by lia.
  assert (H : (3 * 1200) / w < 3 * (1200 / w) + 3); [|lia].
  apply Z.div_lt_upper_bound; [lia|].
  pose proof (Z.mul_succ_div_gt 1200 w ltac:(lia)). lia.
Qed.

Lemma classify_dot (d : t) :
  gotLastSig d = false ->
  0 < morseTableJumper d ->
  Z.quot (dotTime d) 2 < currentTime d - spaceTime d ->
  Z.quot (dotTime d) 4 < spaceTime d - markTime d ->
  spaceTime d - markTime d < Z.quot (dashTime d) 2 ->
  classify d
  = set_gotLastSig true
      (set_tree (Z.quot (morseTableJumper d) 2)
                (morseTablePointer d - morseTableJumper d) d).
Proof.
  intros Hg Hj Hs Ha Hb. unfold classify. rewrite Hg. cbn [negb].
  apply Z.ltb_lt in Hj, Hs, Ha, Hb. rewrite Hj, Hs, Ha, Hb.
  reflexivity.
Qed.

Lemma classify_dash (d : t) :
  gotLastSig d = false ->
  0 < morseTableJumper d ->
  Z.quot (dotTime d) 2 < currentTime d - spaceTime d ->
  Z.quot (dotTime d) 4 < spaceTime d - markTime d ->
  Z.quot (dashTime d) 2 <= spaceTime d - markTime d ->
  spaceTime d - markTime d < dashTime d + dotTime d ->
  classify d
  = set_gotLastSig true
      (set_tree (Z.quot (morseTableJumper d) 2)
                (morseTablePointer d + morseTableJumper d) d).
Proof.
  intros Hg Hj Hs Ha Hb Hc. unfold classify. rewrite Hg. cbn [negb].
  apply Z.ltb_lt in Hj, Hs, Ha, Hc. apply Z.ltb_ge in Hb.
  rewrite Hj, Hs, Ha, Hb, Hc.
  reflexivity.
Qed.

Lemma classify_neither (d : t) :
  gotLastSig d = false ->
  0 < morseTableJumper d ->
  spaceTime d - markTime d <= Z.quot (dotTime d) 4
  \/ (Z.quot (dashTime d) 2 <= spaceTime d - markTime d
      /\ dashTime d + dotTime d <= spaceTime d - markTime d) ->
  classify d
  = set_gotLastSig false
      (set_tree (morseTableJumper d) (morseTablePointer d) d).
Proof.
  intros Hg Hj Hc.
  assert (E : classify d = d).
  { unfold classify. apply Z.ltb_lt in Hj. rewrite Hj.
    destruct Hc as [Ha | [Hb Hc]].
    - apply Z.ltb_ge in Ha. rewrite Ha.
      repeat match goal with
             | |- context [if ?b then _ else _] => destruct b
             end; reflexivity.
    - apply Z.ltb_ge in Hb, Hc. rewrite Hb, Hc.
      repeat match goal with
             | |- context [if ?b then _ else _] => destruct b
             end; reflexivity. }
  rewrite E. destruct d. cbn in Hg. subst. reflexivity.
Qed.

(** What a tick without signal leaves of the state that the
    classification gives: the rest of [decode()] writes the letter and
    the space when they are due, and nothing else of the tree. *)
Lemma tick_outcome (d : t) (now : Z) (s : sample) (g : bool) (p j : Z) :
  morseSignalState (sensed d now s) = false ->
  classify (sensed d now s)
  = set_gotLastSig g (set_tree j p (sensed d now s)) ->
  gotLastSig (decode d now s) = g
  /\ ends_at (sensed d now s) p j (decode d now s).
Proof.
  intros Hlow Hc. rewrite (decode_silent d now s Hlow). cbv zeta.
  rewrite Hc. generalize (sensed d now s). intros d1.
  destruct d1 as [? ? ? ? ? ? dt da ws j0 p0 ? ? ? g0 sp c ? ? st ct ?].
  unfold ends_at, write_letter, write_space, letter_due, space_due.
  cbn [set_gotLastSig set_tree dotTime currentTime spaceTime
       morseTableJumper morseTablePointer].
  destruct ((dt * 2 <=? ct - st) && (j <? Z.quot (morseTreetop + 1) 2));
    cbn [set_gotLastSig set_tree set_decodedMorseChar wordSpace currentTime
         spaceTime morseSpace];
    destruct ((Z.quot (ws * 2) 3 <? ct - st) && Bool.eqb sp false);
    cbn [set_gotLastSig set_tree set_decodedMorseChar set_morseSpace
         set_lastKeyerState gotLastSig morseTableJumper morseTablePointer
         decodedMorseChar morseKeyer];
    repeat split.
Qed.

Ltac quot_facts d :=
  pose proof (Z.quot_rem' (dotTime d) 4);
  pose proof (Z.rem_bound_pos (dotTime d) 4);
  pose proof (Z.quot_rem' (dashTime d) 2);
  pose proof (Z.rem_bound_pos (dashTime d) 2).

(** C3 (amended).  In a reachable state, on a tick that classifies the
    pulse that just ended (signal released, pulse not yet taken, a level
    of the tree left, silence longer than half a dot), the state after
    [decode()] shows the pulse
    - of dotTime/4 + 1 ms taken, as a dot or as a dash, exactly when dash
      time and dot time add up to 2 ms or more, and as a dot when the
      dash time is at least 4 ms;
    - of dashTime/2 - 1 ms taken as a dot exactly when the dash time is
      at least 4 ms;
    - of dashTime/2 + 1 ms taken as a dash exactly when the dot time is
      at least 1 ms;
    - of dashTime + dotTime + 1 ms not taken, with no step in the tree.
    A pulse taken is a step of the jumper to that side of the tree, the
    jumper halved; when the letter is due on the same tick, the letter at
    the end of the step is written at once. *)
Theorem pulse_classification (d : t) (now : Z) (s : sample) :
  let d1 := sensed d now s in
  let d2 := decode d now s in
  let len := spaceTime d1 - markTime d1 in
  reachable d ->
  morseSignalState d1 = false ->
  gotLastSig d1 = false ->
  0 < morseTableJumper d1 ->
  Z.quot (dotTime d1) 2 < now - spaceTime d1 ->
  (len = Z.quot (dotTime d1) 4 + 1 ->
   ((took_dot d1 d2 \/ took_dash d1 d2) <-> 2 <= dashTime d1 + dotTime d1)
   /\ (4 <= dashTime d1 -> took_dot d1 d2))
  /\ (len = Z.quot (dashTime d1) 2 - 1 ->
      (took_dot d1 d2 <-> 4 <= dashTime d1))
  /\ (len = Z.quot (dashTime d1) 2 + 1 ->
      (took_dash d1 d2 <-> 1 <= dotTime d1))
  /\ (len = dashTime d1 + dotTime d1 + 1 -> took_neither d1 d2).
Proof.
  cbv zeta. intros Hr Hlow Hgot Hj Hsil.
  destruct (reachable_timed d Hr) as (w & Hw & Ht).
  destruct (timed_ratio d w Hw Ht) as [H0 H3].
  pose proof (timed_ratio_upper d w Hw Ht) as H4.
  destruct (sensed_frame d now s) as (_ & _ & _ & _ & _ & Ed & Ea & _ & Ec).
  rewrite <- Ed, <- Ea in H3, H4. rewrite <- Ed in H0.
  assert (Hsil' : Z.quot (dotTime (sensed d now s)) 2
                  < currentTime (sensed d now s) - spaceTime (sensed d now s))
    by (rewrite Ec; exact Hsil).
  pose proof (tick_outcome d now s) as Ho.
  specialize (Ho) with (1 := Hlow).
  revert Hgot Hj Hsil' H0 H3 H4 Ho. clear.
  generalize (decode d now s). generalize (sensed d now s).
  intros d1 d2 Hgot Hj Hsil H0 H3 H4 Ho.
  quot_facts d1.
  assert (Dot : Z.quot (dotTime d1) 4 < spaceTime d1 - markTime d1 ->
                spaceTime d1 - markTime d1 < Z.quot (dashTime d1) 2 ->
                took_dot d1 d2).
  { intros Ha Hb. apply Ho, classify_dot; assumption. }
  assert (Dash : Z.quot (dotTime d1) 4 < spaceTime d1 - markTime d1 ->
                 Z.quot (dashTime d1) 2 <= spaceTime d1 - markTime d1 ->
                 spaceTime d1 - markTime d1 < dashTime d1 + dotTime d1 ->
                 took_dash d1 d2).
  { intros Ha Hb Hc. apply Ho, classify_dash; assumption. }
  assert (Neither : spaceTime d1 - markTime d1 <= Z.quot (dotTime d1) 4
                    \/ (Z.quot (dashTime d1) 2 <= spaceTime d1 - markTime d1
                        /\ dashTime d1 + dotTime d1
                           <= spaceTime d1 - markTime d1) ->
                    took_neither d1 d2).
  { intros Hc. apply Ho, classify_neither; assumption. }
  assert (Excl : took_neither d1 d2 ->
                 ~ took_dot d1 d2 /\ ~ took_dash d1 d2).
  { intros [Hn _]. split; intros [Ht _]; congruence. }
  split; [|split; [|split]].
  - intros E. split; [split|].
    + intros Hacc.
      destruct (Z.lt_ge_cases (dashTime d1 + dotTime d1) 2) as [Hlt|Hge];
        [|exact Hge].
      destruct (Excl (Neither ltac:(right; lia))) as [N1 N2].
      destruct Hacc; contradiction.
    + intros Hge.
      destruct (Z.lt_ge_cases (spaceTime d1 - markTime d1)
                  (Z.quot (dashTime d1) 2)) as [Hlt|Hge'].
      * left. apply Dot; lia.
      * right. apply Dash; lia.
    + intros Hd. apply Dot; lia.
  - intros E. split.
    + intros Hdot.
      destruct (Z.lt_ge_cases (dashTime d1) 4) as [Hlt|Hge]; [|exact Hge].
      destruct (Excl (Neither ltac:(left; lia))) as [N1 _]. contradiction.
    + intros Hd. apply Dot; lia.
  - intros E. split.
    + intros Hdash.
      destruct (Z.lt_ge_cases (dotTime d1) 1) as [Hlt|Hge]; [|exact Hge].
      destruct (Excl (Neither ltac:(right; lia))) as [_ N2]. contradiction.
    + intros Hd. apply Dash; lia.
  - intros E. apply Neither. right. lia.
Qed.

Lemma pulse_classification_witness :
  let d := run (new 4 false false)
             [Decode 0 (digital true); Decode 21 (digital true);
              Decode 137 (digital false)] in
  let d1 := sensed d 200 (digital false) in
  let d2 := decode d 200 (digital false) in
  spaceTime d1 - markTime d1 = Z.quot (dashTime d1) 2 - 1
  /\ took_dot d1 d2.
Proof.
  cbv zeta. split; [reflexivity|].
  refine (proj2 (proj1 (proj2
            (pulse_classification
               (run (new 4 false false)
                  [Decode 0 (digital true); Decode 21 (digital true);
                   Decode 137 (digital false)])
               200 (digital false) _ _ _ _ _)) _) _).
  - exists 4, false, false. eexists. reflexivity.
  - reflexivity.
  - reflexivity.
  - reflexivity.
  - reflexivity.
  - reflexivity.
  - vm_compute. discriminate.
Defined.

(** C3 as stated fails at high speeds: after [setspeed(1000)] the dot
    time is 1 ms and the dash time 3 ms, so the pulse of dashTime/2 - 1 ms
    lasts 0 ms.  An audio decoder hears such a pulse (one sample above the
    threshold), and the tick that classifies it finds it no longer than a
    quarter of a dot: it is not taken, and the tree stays at its top. *)
Lemma shortest_pulse_not_a_dot :
  let d := run (new 4 true false)
             [Setspeed 1000;
              Decode 5 {| digitalRead := false; analogRead := 800 |}] in
  let quiet_sample := {| digitalRead := false; analogRead := 0 |} in
  let d1 := sensed d 6 quiet_sample in
  let d2 := decode d 6 quiet_sample in
  reachable d
  /\ morseSignalState d1 = false
  /\ gotLastSig d1 = false
  /\ 0 < morseTableJumper d1
  /\ Z.quot (dotTime d1) 2 < 6 - spaceTime d1
  /\ spaceTime d1 - markTime d1 = Z.quot (dashTime d1) 2 - 1
  /\ ~ took_dot d1 d2
  /\ gotLastSig d2 = false
  /\ morseTablePointer d2 = morseTreetop
  /\ morseTableJumper d2 = Z.quot (morseTreetop + 1) 2.
Proof.
  cbv zeta. split.
  { exists 4, true, false. eexists. reflexivity. }
  repeat split; try reflexivity.
  intros [H _]. vm_compute in H. discriminate H.
Qed.

(** The bounds on the timing under which the four pulses are classified
    as claimed, as bounds on the speed. *)
Lemma timed_speed_bounds (d : t) (w : Z) :
  1 <= w -> timed d w ->
  (4 <= dashTime d <-> w <= 900)
  /\ (1 <= dotTime d <-> w <= 1200)
  /\ (2 <= dashTime d + dotTime d <-> w <= 1800).
Proof.
  intros Hw (Ed & Ea & _). rewrite Ed, Ea.
  rewrite !Z.quot_div_nonneg by lia.
  change (3 * 1200) with 3600.
  pose proof (Z.mul_div_le 3600 w ltac:(lia)) as A1.
  pose proof (Z.mul_succ_div_gt 3600 w ltac:(lia)) as A2.
  pose proof (Z.mul_div_le 1200 w ltac:(lia)) as B1.
  pose proof (Z.mul_succ_div_gt 1200 w ltac:(lia)) as B2.
  assert (0 <= 3600 / w) by (apply Z.div_pos; lia).
  assert (0 <= 1200 / w) by (apply Z.div_pos; lia).
  repeat split; intros; nia.
Qed.

End Classification.

(** ** Too many pulses *)
Section Overflow.

Import morseDecoder.

Lemma classify_error (d : t) :
  gotLastSig d = false ->
  morseTableJumper d <= 0 ->
  decodedMorseChar (classify d) = chr "#"
  /\ morseTableJumper (classify d) = 32
  /\ morseTablePointer (classify d) = 63
  /\ gotLastSig (classify d) = true.
Proof.
  intros Hg Hj. unfold classify. rewrite Hg. cbn [negb].
  replace (0 <? morseTableJumper d) with false
    by (symmetry; apply Z.ltb_ge; exact Hj).
  destruct d; repeat split.
Qed.

(** The tick that finds the signal released with no level of the tree
    left writes the error mark and returns to the top of the tree. *)
Lemma error_mark_tick (d : t) (now : Z) (s : sample) :
  gotLastSig d = false ->
  morseTableJumper d <= 0 ->
  morseSignalState (decode d now s) = false ->
  space_due (sensed d now s) = false ->
  decodedMorseChar (decode d now s) = chr "#"
  /\ morseTableJumper (decode d now s) = 32
  /\ morseTablePointer (decode d now s) = 63
  /\ gotLastSig (decode d now s) = true.
Proof.
  intros Hg Hj Hq Hsd. rewrite decode_signal_state in Hq.
  destruct (sensed_frame d now s) as (Ej & _ & Eg & _).
  rewrite <- Eg in Hg. rewrite <- Ej in Hj.
  destruct (classify_error _ Hg Hj) as (Hc & Hcj & Hcp & Hcg).
  assert (Hl : letter_due (classify (sensed d now s)) = false).
  { unfold letter_due. rewrite Hcj. apply andb_false_r. }
  pose proof (decode_mailbox d now s) as Hm. cbv zeta in Hm.
  rewrite Hq, space_due_classify, Hsd, Hl, Hc, Hcj, Hcp in Hm.
  destruct Hm as (Hm1 & Hm2 & Hm3).
  repeat split; try assumption.
  destruct (decode_silent_fields _ _ _ Hq) as (_ & _ & _ & _ & -> & _).
  destruct (write_space_frame (write_letter (classify (sensed d now s))))
    as (_ & _ & _ & _ & -> & _).
  destruct (write_letter_frame (classify (sensed d now s)))
    as (_ & _ & _ & -> & _).
  exact Hcg.
Qed.

(** While the signal stays released after a pulse has been taken, no
    call writes the error mark. *)
Lemma no_mark_step (d : t) (c : call) :
  gotLastSig d = true ->
  decodedMorseChar d <> chr "#" ->
  morseSignalState (do d c) = false ->
  gotLastSig (do d c) = true /\ decodedMorseChar (do d c) <> chr "#".
Proof.
  intros Hg Hc Hq. destruct c as [now s|v|]; unfold do in *.
  - rewrite decode_signal_state in Hq.
    destruct (sensed_frame d now s) as (_ & _ & Eg & _ & Ec & _).
    rewrite <- Eg in Hg.
    pose proof (decode_mailbox d now s) as Hm. cbv zeta in Hm.
    destruct Hm as (Hm & _).
    rewrite Hq, (classify_got _ Hg) in Hm. split.
    + destruct (decode_silent_fields _ _ _ Hq) as (_ & _ & _ & _ & -> & _).
      destruct (write_space_frame (write_letter (classify (sensed d now s))))
        as (_ & _ & _ & _ & -> & _).
      destruct (write_letter_frame (classify (sensed d now s)))
        as (_ & _ & _ & -> & _).
      rewrite (classify_got _ Hg). exact Hg.
    + rewrite Hm.
      destruct (space_due (sensed d now s)); [discriminate|].
      destruct (letter_due (sensed d now s)).
      * apply table_char_cases.
      * rewrite Ec. exact Hc.
  - destruct d; cbn in *. split; assumption.
  - destruct d; cbn in *. split; [assumption|discriminate].
Qed.

Lemma no_mark_run (cs : list call) (d : t) :
  gotLastSig d = true ->
  decodedMorseChar d <> chr "#" ->
  quiet d cs ->
  gotLastSig (run d cs) = true /\ decodedMorseChar (run d cs) <> chr "#".
Proof.
  revert d. induction cs as [|c cs IH]; intros d Hg Hc Hq; cbn.
  - split; assumption.
  - destruct Hq as [Hq1 Hq2].
    destruct (no_mark_step d c Hg Hc Hq1) as [Hg' Hc'].
    apply IH; auto.
Qed.

End Overflow.

(** ** The encoder: characters outside the table *)
Section Unmapped.

Import morseEncoder.

Lemma scan_absent (tbl : list char) (c : char) (i : Z) :
  ~ In c tbl -> scan tbl c i = i + Z.of_nat (List.length tbl).
Proof.
  revert i. induction tbl as [|x tbl IH]; intros i H; cbn [scan List.length].
  - lia.
  - destruct (Z.eqb_spec x c) as [E|E].
    + elim H. left. exact E.
    + rewrite IH by (intros Hin; apply H; right; exact Hin). lia.
Qed.







End Unmapped.

(** ** The plan of the encoder *)
Section Plan.

Import morseEncoder.

Lemma range_cases (lo : nat) (len : nat) (x : Z) :
  Z.of_nat lo <= x < Z.of_nat lo + Z.of_nat len ->
  In x (map Z.of_nat (seq lo len)).
Proof.
  intros H. replace x with (Z.of_nat (Z.to_nat x)) by lia.
  apply in_map, in_seq. lia.
Qed.

(** The plan of every position is good, whatever the encoder held
    before. *)
Lemma plan_is_good (pos : Z) (e : t) :
  1 <= pos <= 128 -> plan_good pos (plan pos e) = true.
Proof.
  intros H. assert (Hin : In pos (map Z.of_nat (seq 1 128)))
    by (apply range_cases; lia).
  clear H. vm_compute in Hin. rename Hin into H.
  destruct e as [? ? ? ? ? ? ? ? ? str ? ? ?]. destruct str.
  repeat (destruct H as [<-|H]; [vm_compute; reflexivity|]).
  destruct H.
Qed.

Lemma plan_good_cells (pos : Z) (e : t) :
  plan_good pos e = true ->
  1 <= morseSignals e <= 6
  /\ load (morseSignalString e) (morseSignals e) = 0
  /\ forall k, 0 <= k < morseSignals e ->
               plan_cell (load (morseSignalString e) k).
Proof.
  unfold plan_good. cbv zeta. rewrite !andb_true_iff.
  intros ((((H1 & H2) & H3) & H4) & _).
  split; [lia|]. split; [lia|].
  intros k Hk. rewrite forallb_forall in H4.
  specialize (H4 (Z.to_nat k)). cbv beta in H4.
  rewrite Z2Nat.id in H4 by lia.
  assert (Hin : In (Z.to_nat k) (seq 0 (Z.to_nat (morseSignals e))))
    by (apply in_seq; lia).
  apply H4 in Hin. rewrite !orb_true_iff, !Z.eqb_eq in Hin.
  unfold plan_cell. tauto.
Qed.

Lemma plan_good_letter (pos : Z) (e : t) :
  plan_good pos e = true ->
  pos <> morseTreetop + 1 -> pos <> morseTableLength + 1 ->
  Forall (fun s => s = chr "." \/ s = chr "-") (planned e)
  /\ fst (walk (planned e)) = pos - 1
  /\ Z.of_nat (List.length (planned e)) = morseSignals e
  /\ load (morseSignalString e) 0 <> chr " ".
Proof.
  unfold plan_good. cbv zeta. rewrite !andb_true_iff.
  intros (_ & H) Ha Hb.
  replace (pos =? morseTreetop + 1) with false in H
    by (symmetry; apply Z.eqb_neq; exact Ha).
  replace (pos =? morseTableLength + 1) with false in H
    by (symmetry; apply Z.eqb_neq; exact Hb).
  cbn [orb] in H. rewrite !andb_true_iff in H.
  destruct H as (((H1 & H2) & H3) & H4). split; [|split; [lia|split; [lia|]]].
  2: { apply negb_true_iff, Z.eqb_neq in H4. exact H4. }
  apply Forall_forall. intros s Hs.
  rewrite forallb_forall in H1. apply H1 in Hs.
  rewrite orb_true_iff, !Z.eqb_eq in Hs. exact Hs.
Qed.

Lemma plan_good_space (pos : Z) (e : t) :
  plan_good pos e = true ->
  pos = morseTreetop + 1 \/ pos = morseTableLength + 1 ->
  planned e = [chr " "].
Proof.
  unfold plan_good. cbv zeta. rewrite !andb_true_iff.
  intros (_ & H) Ha.
  replace ((pos =? morseTreetop + 1) || (pos =? morseTableLength + 1))
    with true in H
    by (symmetry; apply orb_true_iff; rewrite !Z.eqb_eq; exact Ha).
  unfold list_char_eqb in H.
  destruct (list_eq_dec Z.eq_dec (planned e) [chr " "]);
    [assumption|discriminate].
Qed.

(** The scan stops inside the table at the first cell that holds the
    character, or at the end of the table. *)
Lemma scan_range (tbl : list char) (c : char) (i : Z) :
  i <= scan tbl c i <= i + Z.of_nat (List.length tbl).
Proof.
  revert i. induction tbl as [|x tbl IH]; intros i; cbn [scan List.length].
  - lia.
  - destruct (x =? c); [lia|]. specialize (IH (i + 1)). lia.
Qed.

Lemma scan_found (tbl : list char) (c : char) (i : Z) :
  In c tbl ->
  scan tbl c i < i + Z.of_nat (List.length tbl)
  /\ nth (Z.to_nat (scan tbl c i - i)) tbl 0 = c.
Proof.
  revert i. induction tbl as [|x tbl IH]; intros i H; [destruct H|].
  cbn [scan List.length]. destruct (Z.eqb_spec x c) as [E|E].
  - split; [lia|]. rewrite Z.sub_diag. exact E.
  - destruct H as [H|H]; [contradiction|].
    destruct (IH (i + 1) H) as [H1 H2].
    pose proof (scan_range tbl c (i + 1)) as Hr.
    split; [lia|].
    replace (Z.to_nat (scan tbl c (i + 1) - i))
      with (S (Z.to_nat (scan tbl c (i + 1) - (i + 1)))) by lia.
    exact H2.
Qed.

(** What [begin] does with a pending character: the plan of the position
    that the scan gives, and the start of the transmission. *)
Lemma begin_plan (e : t) (pin : bool) :
  sendingMorse e = false ->
  encodeMorseChar e <> 0 ->
  let e1 := set_encodeMorseChar (capital (encodeMorseChar e)) e in
  let e2 := plan (scan morseTable (encodeMorseChar e1) 0 + 1) e1 in
  begin e pin =
  (set_sendMorseTimer (currentTime e2)
     (set_sendingMorseSignalNr 0 (set_sendingMorse true e2)),
   if negb (load (morseSignalString e2) 0 =? chr " ") then true else pin).
Proof.
  intros Hs Hc. destruct e as [op c sm w dt da ws n sp str nr tm ct].
  cbn [sendingMorse encodeMorseChar] in Hs, Hc. subst sm.
  unfold begin, plan.
  cbn [sendingMorse encodeMorseChar set_encodeMorseChar negb andb].
  replace (c =? 0) with false by (symmetry; apply Z.eqb_neq; exact Hc).
  cbn [negb]. cbv zeta. reflexivity.
Qed.

Lemma path_frame (n : nat) (i pos : Z) (e : t) :
  let e' := snd (path n i pos e) in
  morseSignals e' = morseSignals e
  /\ sendingMorse e' = sendingMorse e
  /\ dotTime e' = dotTime e /\ dashTime e' = dashTime e
  /\ wordSpace e' = wordSpace e /\ currentTime e' = currentTime e.
Proof.
  revert i pos e. induction n as [|n IH]; intros i pos e; cbn [path].
  - cbn. repeat split.
  - cbv zeta.
    destruct (negb (Z.land (Z.quot (pos + Z.shiftl 1 i) (Z.shiftl 2 i))
                      (Z.b2z (1 =? 1)) =? 0));
      match goal with
      | |- context [path n ?a ?b ?c] =>
          destruct (IH a b c) as (-> & -> & -> & -> & -> & ->)
      end; destruct e; cbn; repeat split.
Qed.

Lemma plan_frame (pos : Z) (e : t) :
  sendingMorse (plan pos e) = sendingMorse e
  /\ dotTime (plan pos e) = dotTime e /\ dashTime (plan pos e) = dashTime e
  /\ wordSpace (plan pos e) = wordSpace e
  /\ currentTime (plan pos e) = currentTime e.
Proof.
  unfold plan. cbv zeta.
  match goal with
  | |- context [if ?b then ?x else ?y] =>
      assert (H : sendingMorse (if b then x else y) = sendingMorse e
                  /\ dotTime (if b then x else y) = dotTime e
                  /\ dashTime (if b then x else y) = dashTime e
                  /\ wordSpace (if b then x else y) = wordSpace e
                  /\ currentTime (if b then x else y) = currentTime e);
      [|revert H; generalize (if b then x else y)]
  end.
  - match goal with |- context [if ?b then _ else _] => destruct b end.
    + match goal with
      | |- context [path ?n ?a ?b ?c] =>
          destruct (path_frame n a b c) as (_ & -> & -> & -> & -> & ->)
      end.
      destruct e; cbn; repeat split.
    + destruct e; cbn; repeat split.
  - intros x H. destruct x; cbn in *. exact H.
Qed.

(** A transmission that has just begun is left as it is by the rest of
    the call, the dot and dash times being positive. *)
Lemma send_just_begun (p : t) (pin : bool) :
  1 <= morseSignals p ->
  (load (morseSignalString p) 0 = chr "."
   \/ load (morseSignalString p) 0 = chr "-") ->
  0 < dotTime p -> 0 < dashTime p ->
  send (set_sendMorseTimer (currentTime p)
          (set_sendingMorseSignalNr 0 (set_sendingMorse true p))) pin
  = (set_sendMorseTimer (currentTime p)
       (set_sendingMorseSignalNr 0 (set_sendingMorse true p)), pin).
Proof.
  intros Hn Hc Hd Ha.
  destruct p as [op c sm w dt da ws n sp str nr tm ct].
  cbn [morseSignals morseSignalString dotTime dashTime] in Hn, Hc, Hd, Ha.
  assert (E1 : (dt <=? 0) = false) by (apply Z.leb_gt; lia).
  assert (E2 : (da <=? 0) = false) by (apply Z.leb_gt; lia).
  assert (E3 : (n <=? 0) = false) by (apply Z.leb_gt; lia).
  unfold send. cbn. rewrite Z.sub_diag, E1, E2.
  destruct Hc as [-> | ->]; cbn; rewrite E3; reflexivity.
Qed.

Lemma begun_fields (p : t) (tm : Z) :
  let b := set_sendMorseTimer tm
             (set_sendingMorseSignalNr 0 (set_sendingMorse true p)) in
  sendingMorse b = true
  /\ morseSignals b = morseSignals p
  /\ planned b = planned p.
Proof. destruct p. repeat split. Qed.

(** Every character of the table is a capital letter, a digit or a
    punctuation mark up to [Z], but for the underscore. *)
Lemma table_upto_Z_check :
  forallb (fun c => (c =? chr "_") || ((0 <? c) && (c <=? chr "Z")))
          morseTable = true.
Proof. vm_compute. reflexivity. Qed.

Lemma table_at_top_check : nth 63 morseTable 0 = chr " ".
Proof. reflexivity. Qed.

Lemma table_no_nul_check :
  forallb (fun c => negb (c =? 0)) morseTable = true.
Proof. vm_compute. reflexivity. Qed.

(** The call of [encode()] that takes a pending character whose capital
    is in the table and is not the space. *)
Lemma first_call (e : t) (c : char) (now : Z) (pin : bool) :
  sendingMorse e = false ->
  0 < dotTime e -> 0 < dashTime e ->
  c <> chr "*" -> In (capital c) morseTable -> capital c <> chr " " ->
  let e' := fst (encode (write e c) now pin) in
  snd (encode (write e c) now pin) = true
  /\ sendingMorse e' = true
  /\ sendingMorseSignalNr e' = 0
  /\ sendMorseTimer e' = now
  /\ dotTime e' = dotTime e /\ dashTime e' = dashTime e
  /\ 1 <= morseSignals e' <= 6
  /\ Z.of_nat (List.length (planned e')) = morseSignals e'
  /\ Forall (fun s => s = chr "." \/ s = chr "-") (planned e')
  /\ table_char (fst (walk (planned e'))) = capital c
  /\ wordSpace e' = wordSpace e.
Proof.
  intros Hs Hd Ha H1 Hin H2. cbv zeta.
  assert (Hc : c <> 0).
  { intros ->.
    pose proof (proj1 (forallb_forall _ _) table_no_nul_check _ Hin) as H.
    discriminate H. }
  unfold encode. set (e0 := set_currentTime now (write e c)).
  assert (F : sendingMorse e0 = false /\ encodeMorseChar e0 = c
              /\ dotTime e0 = dotTime e /\ dashTime e0 = dashTime e
              /\ currentTime e0 = now /\ wordSpace e0 = wordSpace e).
  { unfold e0, write. rewrite Hs.
    replace (c =? chr "*") with false by (symmetry; apply Z.eqb_neq; exact H1).
    destruct e; cbn in *. repeat split; auto. }
  clearbody e0. destruct F as (Hs0 & Hc0 & Hd0 & Ha0 & Ht0 & Hw0).
  rewrite (begin_plan e0 pin Hs0) by (rewrite Hc0; exact Hc). cbv zeta.
  replace (encodeMorseChar
             (set_encodeMorseChar (capital (encodeMorseChar e0)) e0))
    with (capital c) by (rewrite Hc0; destruct e0; reflexivity).
  destruct (scan_found morseTable (capital c) 0 Hin) as [Hlt Hnth].
  pose proof (scan_range morseTable (capital c) 0) as Hr.
  change (Z.of_nat (List.length morseTable)) with 127 in Hlt, Hr.
  set (i := scan morseTable (capital c) 0) in *.
  rewrite Z.sub_0_r in Hnth.
  assert (Hi : i <> 63).
  { intros E. rewrite E in Hnth. rewrite <- Hnth in H2. apply H2. reflexivity. }
  set (e1 := set_encodeMorseChar (capital (encodeMorseChar e0)) e0).
  assert (F1 : dotTime e1 = dotTime e /\ dashTime e1 = dashTime e
               /\ currentTime e1 = now /\ wordSpace e1 = wordSpace e)
    by (unfold e1; destruct e0; cbn in *; auto).
  clearbody e1. destruct F1 as (Hd1 & Ha1 & Ht1 & Hw1).
  pose proof (plan_is_good (i + 1) e1 ltac:(lia)) as Hg.
  destruct (plan_frame (i + 1) e1) as (_ & Hpd & Hpa & Hpw & Hpt).
  destruct (plan_good_cells _ _ Hg) as (Hn & _ & _).
  destruct (plan_good_letter _ _ Hg) as (Hf & Hw & Hl & Hsp);
    [unfold morseTreetop; lia|unfold morseTableLength, morseTreetop; lia|].
  assert (H0 : load (morseSignalString (plan (i + 1) e1)) 0 = chr "."
               \/ load (morseSignalString (plan (i + 1) e1)) 0 = chr "-").
  { revert Hf Hn Hl. unfold planned.
    generalize (plan (i + 1) e1). intros p Hf Hn Hl.
    destruct p as [? ? ? ? ? ? ? n ? str ? ? ?]. cbn in *.
    destruct str. cbn in *.
    destruct (Z.to_nat n) eqn:En; [lia|]. cbn in Hf.
    inversion Hf. assumption. }
  replace (negb (load (morseSignalString (plan (i + 1) e1)) 0 =? chr " "))
    with true by (symmetry; apply negb_true_iff, Z.eqb_neq; exact Hsp).
  rewrite send_just_begun; [|lia|exact H0|lia|lia].
  cbn [fst snd].
  replace (i + 1 - 1) with i in Hw by lia.
  assert (G : currentTime (plan (i + 1) e1) = now
              /\ dotTime (plan (i + 1) e1) = dotTime e
              /\ dashTime (plan (i + 1) e1) = dashTime e
              /\ wordSpace (plan (i + 1) e1) = wordSpace e)
    by (rewrite Hpd, Hpa, Hpt, Hpw; auto).
  revert G Hn Hl Hf Hw. generalize (plan (i + 1) e1).
  intros p (G1 & G2 & G3 & G4) Hn Hl Hf Hw.
  assert (Ht : table_char i = capital c).
  { unfold table_char, morseTable_at.
    replace ((0 <=? i) && (i <=? morseTableLength)) with true; [exact Hnth|].
    symmetry. apply andb_true_iff. unfold morseTableLength, morseTreetop.
    split; lia. }
  destruct (begun_fields p (currentTime p)) as (-> & -> & ->).
  rewrite Hw.
  split; [reflexivity|]. split; [reflexivity|].
  split; [destruct p; reflexivity|]. split; [destruct p; exact G1|].
  split; [destruct p; exact G2|]. split; [destruct p; exact G3|].
  assert (G5 : wordSpace
                 (set_sendMorseTimer (currentTime p)
                    (set_sendingMorseSignalNr 0 (set_sendingMorse true p)))
               = wordSpace e) by (destruct p; exact G4).
  repeat split; try assumption; lia.
Qed.

(** X1.  For every character of the table but the mark of an unused
    position, the space and the underscore, at any speed with positive
    dot and dash times, the call of [encode()] that takes the character
    asserts the pin and plans one to six dots and dashes; replayed with
    the moves of the decoder from the top of the tree, these signals end
    at a cell of the table that holds the character. *)
Theorem plan_reaches_character (e : t) (c : char) (now : Z) (pin : bool) :
  sendingMorse e = false ->
  0 < dotTime e -> 0 < dashTime e ->
  In c morseTable -> c <> chr "*" -> c <> chr " " -> c <> chr "_" ->
  let e' := fst (encode (write e c) now pin) in
  sendingMorse e' = true
  /\ snd (encode (write e c) now pin) = true
  /\ 1 <= morseSignals e' <= 6
  /\ Z.of_nat (List.length (planned e')) = morseSignals e'
  /\ Forall (fun s => s = chr "." \/ s = chr "-") (planned e')
  /\ table_char (fst (walk (planned e'))) = c.
Proof.
  intros Hs Hd Ha Hin H1 H2 H3. cbv zeta.
  assert (Hc : 0 < c <= chr "Z").
  { pose proof (proj1 (forallb_forall _ _) table_upto_Z_check c Hin) as H.
    cbv beta in H. apply orb_true_iff in H. destruct H as [H|H].
    - apply Z.eqb_eq in H. contradiction.
    - apply andb_true_iff in H. lia. }
  assert (Hcap : capital c = c).
  { unfold capital.
    replace (chr "Z" <? c) with false by (symmetry; apply Z.ltb_ge; lia).
    reflexivity. }
  pose proof (first_call e c now pin Hs Hd Ha H1) as F.
  rewrite Hcap in F. specialize (F Hin H2). cbv zeta in F.
  destruct F as (F1 & F2 & _ & _ & _ & _ & F3 & F4 & F5 & F6 & _).
  repeat split; try assumption; lia.
Qed.

Lemma plan_reaches_character_witness :
  table_char
    (fst (walk (planned (fst (encode (write (new 13) (chr "Q")) 5 false)))))
  = chr "Q".
Proof.
  refine (proj2 (proj2 (proj2 (proj2 (proj2
            (plan_reaches_character (new 13) (chr "Q") 5 false
               _ _ _ _ _ _ _)))))).
  - reflexivity.
  - reflexivity.
  - reflexivity.
  - vm_compute. tauto.
  - discriminate.
  - discriminate.
  - discriminate.
Defined.

End Plan.

(** ** The encoder while it sends *)
Section Sending.

Import morseEncoder.

Lemma load_store (a : signals) (i k : Z) (v : char) :
  load (store a i v) k
  = if (k =? i) && (0 <=? i) && (i <=? 6) then v else load a k.
Proof.
  destruct a.
  assert (Hi : i < 0 \/ i = 0 \/ i = 1 \/ i = 2 \/ i = 3 \/ i = 4 \/ i = 5
               \/ i = 6 \/ 6 < i) by lia.
  assert (Hk : k < 0 \/ k = 0 \/ k = 1 \/ k = 2 \/ k = 3 \/ k = 4 \/ k = 5
               \/ k = 6 \/ 6 < k) by lia.
  destruct (Z.eqb_spec k i) as [E|E].
  - subst k.
    destruct Hi as [H|[H|[H|[H|[H|[H|[H|[H|H]]]]]]]]; try (subst i; reflexivity).
    + destruct i; try lia; reflexivity.
    + replace (i <=? 6) with false by (symmetry; apply Z.leb_gt; lia).
      rewrite andb_false_r.
      destruct i as [|p|p]; try lia.
      do 3 (destruct p as [p|p|]; try lia; try reflexivity).
  - cbn [andb].
    destruct Hi as [H|[H|[H|[H|[H|[H|[H|[H|H]]]]]]]];
      try (subst i;
           destruct Hk as [H'|[H'|[H'|[H'|[H'|[H'|[H'|[H'|H']]]]]]]];
           try (subst k; try reflexivity; try lia);
           destruct k as [|p|p]; try lia; try reflexivity;
           do 3 (destruct p as [p|p|]; try lia; try reflexivity)).
    + destruct i; try lia; reflexivity.
    + destruct i as [|p|p]; try lia.
      do 3 (destruct p as [p|p|]; try lia; try reflexivity).
Qed.

Ltac bool_facts :=
  repeat match goal with
         | H : (_ <? _) = true |- _ => apply Z.ltb_lt in H
         | H : (_ <? _) = false |- _ => apply Z.ltb_ge in H
         | H : (_ <=? _) = true |- _ => apply Z.leb_le in H
         | H : (_ <=? _) = false |- _ => apply Z.leb_gt in H
         end.

Lemma send_well_planned (e : t) (pin : bool) :
  well_planned e -> well_planned (fst (send e pin)).
Proof.
  intros H. unfold send. destruct (sendingMorse e) eqn:Hs; [|exact H].
  destruct (H Hs) as (Hn & Hnr & Hcells). clear H.
  destruct e as [op c sm w dt da ws n sp str nr tm ct].
  cbn [sendingMorse morseSignals sendingMorseSignalNr morseSignalString]
    in Hs, Hn, Hnr, Hcells.
  cbn [morseSignalString sendingMorseSignalNr dotTime dashTime wordSpace
       currentTime sendMorseTimer morseSignals].
  repeat match goal with
         | |- context [if ?b then _ else _] => destruct b eqn:?
         end;
    cbn in *; bool_facts; unfold well_planned; cbn;
    intros Hs'; try discriminate; try lia;
    (split; [lia|]); (split; [lia|]);
    intros k Hk;
    first [ apply Hcells; lia
          | rewrite load_store;
            match goal with
            | |- context [if ?b then _ else _] => destruct b
            end;
            first [ solve [unfold plan_cell; auto] | apply Hcells; lia ] ].
Qed.

Lemma begin_well_planned (e : t) (pin : bool) :
  well_planned e -> well_planned (fst (begin e pin)).
Proof.
  intros H.
  destruct (sendingMorse e) eqn:Hs;
    [unfold begin; rewrite Hs; exact H|].
  destruct (Z.eq_dec (encodeMorseChar e) 0) as [Hc|Hc];
    [unfold begin; rewrite Hs, Hc; exact H|].
  rewrite (begin_plan e pin Hs Hc). cbv zeta. cbn [fst].
  set (e1 := set_encodeMorseChar (capital (encodeMorseChar e)) e).
  pose proof (scan_range morseTable (encodeMorseChar e1) 0) as Hr.
  change (Z.of_nat (List.length morseTable)) with 127 in Hr.
  pose proof (plan_is_good (scan morseTable (encodeMorseChar e1) 0 + 1) e1
                ltac:(lia)) as Hg.
  destruct (plan_good_cells _ _ Hg) as (Hn & _ & Hcells).
  revert Hn Hcells.
  generalize (plan (scan morseTable (encodeMorseChar e1) 0 + 1) e1).
  intros p Hn Hcells. destruct p. unfold well_planned. cbn in *.
  intros _. split; [lia|]. split; [lia|]. exact Hcells.
Qed.

Lemma encode_well_planned (e : t) (now : Z) (pin : bool) :
  well_planned e -> well_planned (fst (encode e now pin)).
Proof.
  intros H. unfold encode.
  assert (H' : well_planned (set_currentTime now e)) by (destruct e; exact H).
  revert H'. generalize (set_currentTime now e). intros e0 H0.
  pose proof (begin_well_planned e0 pin H0) as Hb.
  destruct (begin e0 pin) as [e1 p1]. cbn [fst] in Hb.
  apply send_well_planned, Hb.
Qed.

Lemma edo_well_planned (ep : t * bool) (c : ecall) :
  well_planned (fst ep) -> well_planned (fst (edo ep c)).
Proof.
  intros H. destruct ep as [e pin]. destruct c as [ch|v|now]; cbn [edo fst snd].
  - unfold write. destruct (negb (sendingMorse e) && negb (ch =? chr "*"));
      [|exact H]. destruct e; exact H.
  - destruct e; exact H.
  - apply encode_well_planned, H.
Qed.

Lemma eruns_well_planned (cs : list ecall) (ep : t * bool) :
  well_planned (fst ep) -> well_planned (fst (fold_left edo cs ep)).
Proof.
  revert ep. induction cs as [|c cs IH]; intros ep H; cbn [fold_left].
  - exact H.
  - apply IH, edo_well_planned, H.
Qed.

(** X2.  In every state that an encoder reaches from its constructor
    through [write], [setspeed] and [encode] calls at any clock values,
    while a character is being sent the number of signals is between 1
    and 6, the index of the current signal is inside the plan, and the
    cell that the switch of [encode] reads there holds a dot, a dash, the
    mark of a sent signal or the word space: no index leaves the 7-byte
    array and the default case is never reached through another
    character. *)
Theorem sending_stays_in_plan (ep : t * bool) :
  ereachable ep ->
  sendingMorse (fst ep) = true ->
  1 <= morseSignals (fst ep) <= 6
  /\ 0 <= sendingMorseSignalNr (fst ep) < morseSignals (fst ep)
  /\ plan_cell (load (morseSignalString (fst ep))
                     (sendingMorseSignalNr (fst ep))).
Proof.
  intros (pin & lvl & cs & ->) Hs.
  assert (H : well_planned (fst (fold_left edo cs (new pin, lvl)))).
  { apply eruns_well_planned. intros H. discriminate H. }
  destruct (H Hs) as (Hn & Hnr & Hcells).
  split; [exact Hn|]. split; [exact Hnr|]. apply Hcells. exact Hnr.
Qed.

Lemma sending_stays_in_plan_witness :
  let ep := fold_left edo [Write (chr "Q"); Encode 0; Encode 276; Encode 300]
              (new 13, false) in
  sendingMorseSignalNr (fst ep) = 0
  /\ load (morseSignalString (fst ep)) 0 = chr "x"
  /\ 1 <= morseSignals (fst ep) <= 6.
Proof.
  cbv zeta. split; [reflexivity|]. split; [reflexivity|].
  refine (proj1 (sending_stays_in_plan
                   (fold_left edo
                      [Write (chr "Q"); Encode 0; Encode 276; Encode 300]
                      (new 13, false)) _ _)).
  - exists 13, false. eexists. reflexivity.
  - reflexivity.
Defined.

End Sending.

(** ** The keying of a character *)
Section Keying.

Import morseEncoder.

Lemma encode_currentTime (e : t) (x now : Z) (pin : bool) :
  encode (set_currentTime x e) now pin = encode e now pin.
Proof. destruct e; reflexivity. Qed.

Lemma keying_currentTime (fuel : nat) (e : t) (x : Z) (pin : bool)
      (now dt : Z) :
  keying fuel (set_currentTime x e) pin now dt = keying fuel e pin now dt.
Proof.
  destruct fuel; [reflexivity|]. cbn [keying].
  rewrite encode_currentTime. reflexivity.
Qed.

Lemma encode_sending (e : t) (now : Z) (pin : bool) :
  sendingMorse e = true -> encode e now pin = send (set_currentTime now e) pin.
Proof.
  intros H. destruct e as [op c sm w dt da ws n sp str nr tm ct].
  cbn [sendingMorse] in H. subst sm. reflexivity.
Qed.

(** The call while a dot or a dash is on. *)
Lemma encode_signal (e : t) (now : Z) (pin : bool) (s : char) :
  sendingMorse e = true ->
  sendingMorseSignalNr e < morseSignals e ->
  load (morseSignalString e) (sendingMorseSignalNr e) = s ->
  s = chr "." \/ s = chr "-" ->
  encode e now pin
  = if (if s =? chr "." then dotTime e else dashTime e)
       <=? now - sendMorseTimer e
    then (set_morseSignalString
            (store (morseSignalString e) (sendingMorseSignalNr e) (chr "x"))
            (set_sendMorseTimer now (set_currentTime now e)), false)
    else (set_currentTime now e, pin).
Proof.
  intros Hs Hn Hl Hc. rewrite encode_sending by exact Hs.
  destruct e as [op c sm w dt da ws n sp str nr tm ct].
  cbn [sendingMorse sendingMorseSignalNr morseSignals morseSignalString
       dotTime dashTime sendMorseTimer] in *.
  subst sm. unfold send.
  cbn [set_currentTime sendingMorse sendingMorseSignalNr morseSignals
       morseSignalString dotTime dashTime sendMorseTimer currentTime
       wordSpace].
  rewrite Hl.
  assert (E : (n <=? nr) = false) by (apply Z.leb_gt; lia).
  destruct Hc as [-> | ->].
  - change (chr "." =? chr ".") with true. cbv iota.
    destruct (dt <=? now - tm); cbn; rewrite E; reflexivity.
  - change (chr "-" =? chr ".") with false.
    change (chr "-" =? chr "-") with true. cbv iota.
    destruct (da <=? now - tm); cbn; rewrite E; reflexivity.
Qed.

(** The call during the pause after a signal. *)
Lemma encode_pause (e : t) (now : Z) (pin : bool) :
  sendingMorse e = true ->
  sendingMorseSignalNr e < morseSignals e ->
  load (morseSignalString e) (sendingMorseSignalNr e) = chr "x" ->
  encode e now pin
  = if sendingMorseSignalNr e <? morseSignals e - 1 then
      if dotTime e <=? now - sendMorseTimer e
      then (set_sendMorseTimer now
              (set_sendingMorseSignalNr (sendingMorseSignalNr e + 1)
                 (set_currentTime now e)), true)
      else (set_currentTime now e, pin)
    else
      if dashTime e <=? now - sendMorseTimer e
      then (set_encodeMorseChar 0
              (set_sendingMorse false
                 (set_sendMorseTimer now
                    (set_sendingMorseSignalNr (sendingMorseSignalNr e + 1)
                       (set_currentTime now e)))), pin)
      else (set_currentTime now e, pin).
Proof.
  intros Hs Hn Hl. rewrite encode_sending by exact Hs.
  destruct e as [op c sm w dt da ws n sp str nr tm ct].
  cbn [sendingMorse sendingMorseSignalNr morseSignals morseSignalString
       dotTime dashTime sendMorseTimer] in *.
  subst sm. unfold send.
  cbn [set_currentTime sendingMorse sendingMorseSignalNr morseSignals
       morseSignalString dotTime dashTime sendMorseTimer currentTime
       wordSpace].
  rewrite Hl.
  change (chr "x" =? chr ".") with false.
  change (chr "x" =? chr "-") with false.
  change (chr "x" =? chr "x") with true. cbv iota.
  assert (E : (n <=? nr) = false) by (apply Z.leb_gt; lia).
  destruct (Z.ltb_spec nr (n - 1)).
  - assert (E' : (n <=? nr + 1) = false) by (apply Z.leb_gt; lia).
    destruct (dt <=? now - tm); cbn; rewrite ?E, ?E'; reflexivity.
  - assert (E' : (n <=? nr + 1) = true) by (apply Z.leb_le; lia).
    destruct (da <=? now - tm); cbn; rewrite ?E, ?E'; reflexivity.
Qed.

Lemma ticks_spec (dt T : Z) :
  0 < dt -> 0 < T ->
  1 <= ticks dt T /\ (ticks dt T - 1) * dt < T <= ticks dt T * dt.
Proof.
  intros Hdt HT. unfold ticks.
  pose proof (Z.mul_div_le (T + dt - 1) dt Hdt) as H1.
  pose proof (Z.mul_succ_div_gt (T + dt - 1) dt Hdt) as H2.
  set (q := (T + dt - 1) / dt) in *. nia.
Qed.

Lemma runs_head (b : bool) (l : list bool) :
  exists n more, runs (b :: l) = (b, n) :: more.
Proof.
  cbn [runs]. destruct (runs l) as [|[b' n] more]; [eauto|].
  destruct (Bool.eqb b b'); eauto.
Qed.

Lemma runs_repeat (m : nat) (b : bool) (l : list bool) :
  l = [] \/ (exists l', l = negb b :: l') ->
  runs (repeat b (S m) ++ l) = (b, Z.of_nat (S m)) :: runs l.
Proof.
  intros Hl. induction m as [|m IH].
  - cbn [repeat app]. cbn [runs].
    destruct Hl as [-> | [l' ->]]; [reflexivity|].
    destruct (runs_head (negb b) l') as (n & more & E). rewrite E.
    destruct b; reflexivity.
  - change (repeat b (S (S m)) ++ l) with (b :: (repeat b (S m) ++ l)).
    cbn [runs]. rewrite IH. rewrite Bool.eqb_reflx.
    f_equal. f_equal. lia.
Qed.

(** Calls that leave the encoder as it is. *)
Lemma keying_wait (m : nat) (e : t) (b : bool) (t0 dt : Z) (fuel : nat) :
  sendingMorse e = true ->
  (forall j, 1 <= j <= Z.of_nat m ->
             encode e (t0 + j * dt) b = (set_currentTime (t0 + j * dt) e, b)) ->
  keying (m + fuel) e b (t0 + dt) dt
  = option_map (fun r => (repeat b m ++ fst r, snd r))
      (keying fuel e b (t0 + (Z.of_nat m + 1) * dt) dt).
Proof.
  intros Hs. revert t0. induction m as [|m IH]; intros t0 H.
  - cbn [Nat.add repeat]. replace (t0 + (Z.of_nat 0 + 1) * dt) with (t0 + dt)
      by lia.
    destruct (keying fuel e b (t0 + dt) dt) as [[? ?]|]; reflexivity.
  - cbn [Nat.add keying].
    pose proof (H 1 ltac:(lia)) as H1.
    replace (t0 + 1 * dt) with (t0 + dt) in H1 by lia. rewrite H1.
    assert (Ha : available (set_currentTime (t0 + dt) e) = false)
      by (destruct e; cbn in *; subst; reflexivity).
    rewrite Ha, keying_currentTime.
    rewrite (IH (t0 + dt)).
    + replace (t0 + dt + (Z.of_nat m + 1) * dt)
        with (t0 + (Z.of_nat (S m) + 1) * dt) by lia.
      destruct (keying fuel e b (t0 + (Z.of_nat (S m) + 1) * dt) dt)
        as [[? ?]|]; reflexivity.
    + intros j Hj.
      replace (t0 + dt + j * dt) with (t0 + (j + 1) * dt) by lia.
      apply H. lia.
Qed.

Lemma marked_state (e : t) (k : Z) (s : char) (rest : list char) (x y : Z) :
  sending_from e k (s :: rest) ->
  let e' := set_morseSignalString
              (store (morseSignalString e) k (chr "x"))
              (set_sendMorseTimer x (set_currentTime y e)) in
  sendingMorseSignalNr e' = k
  /\ load (morseSignalString e') k = chr "x"
  /\ sending_from (set_sendingMorseSignalNr (k + 1) e') (k + 1) rest
  /\ sendMorseTimer e' = x
  /\ dotTime e' = dotTime e /\ dashTime e' = dashTime e
  /\ wordSpace e' = wordSpace e.
Proof.
  intros (Hs & Hk & Hk0 & Hn & Hn6 & Hf & Hc). cbv zeta.
  destruct e as [op c sm w dt da ws n sp str nr tm ct].
  cbn [sendingMorse sendingMorseSignalNr morseSignals morseSignalString
       List.length] in *.
  unfold sending_from.
  cbn [set_morseSignalString set_sendMorseTimer set_currentTime
       set_sendingMorseSignalNr sendingMorse sendingMorseSignalNr
       morseSignals morseSignalString sendMorseTimer dotTime dashTime
       morseOutPin encodeMorseChar wpm wordSpace morseSignalPos currentTime].
  split; [exact Hk|]. split.
  { rewrite load_store.
    replace ((k =? k) && (0 <=? k) && (k <=? 6)) with true; [reflexivity|].
    symmetry. rewrite !andb_true_iff, Z.eqb_eq, !Z.leb_le. lia. }
  split; [|auto].
  split; [exact Hs|]. split; [reflexivity|]. split; [lia|].
  split; [lia|]. split; [lia|]. split; [inversion Hf; assumption|].
  intros i Hi. rewrite load_store.
  replace (k + 1 + Z.of_nat i =? k) with false
    by (symmetry; apply Z.eqb_neq; lia).
  cbn [andb]. specialize (Hc (S i) ltac:(lia)).
  replace (k + 1 + Z.of_nat i) with (k + Z.of_nat (S i)) by lia. exact Hc.
Qed.

Lemma next_state (e : t) (k : Z) (rest : list char) (x y : Z) :
  sending_from (set_sendingMorseSignalNr k e) k rest ->
  let e' := set_sendMorseTimer x
              (set_sendingMorseSignalNr k (set_currentTime y e)) in
  sending_from e' k rest
  /\ sendMorseTimer e' = x
  /\ dotTime e' = dotTime e /\ dashTime e' = dashTime e
  /\ wordSpace e' = wordSpace e.
Proof.
  intros H. cbv zeta. destruct e. unfold sending_from in *. cbn in *.
  auto.
Qed.

Section Timing.

Variables (D H dt : Z).
Hypotheses (HD : 0 < D) (HH : 0 < H) (Hdt : 0 < dt).

(** A signal, from the call that turned it on to the call that turns it
    off. *)
Lemma signal_phase (e : t) (k : Z) (s : char) (rest : list char)
      (t0 : Z) (fuel : nat) :
  sending_from e k (s :: rest) ->
  sendMorseTimer e = t0 -> dotTime e = D -> dashTime e = H ->
  let J := ticks dt (if s =? chr "." then D else H) in
  let e' := set_morseSignalString
              (store (morseSignalString e) k (chr "x"))
              (set_sendMorseTimer (t0 + J * dt)
                 (set_currentTime (t0 + J * dt) e)) in
  keying (Z.to_nat (J - 1) + S fuel) e true (t0 + dt) dt
  = option_map
      (fun r => (repeat true (Z.to_nat (J - 1)) ++ false :: fst r, snd r))
      (keying fuel e' false (t0 + J * dt + dt) dt).
Proof.
  intros (Hs & Hk & Hk0 & Hn & Hn6 & Hf & Hc) Ht HeD HeH. cbv zeta.
  set (T := if s =? chr "." then D else H).
  assert (HT : 0 < T) by (unfold T; destruct (s =? chr "."); assumption).
  destruct (ticks_spec dt T Hdt HT) as (HJ1 & HJ2 & HJ3).
  set (J := ticks dt T) in *.
  assert (Hs0 : load (morseSignalString e) (sendingMorseSignalNr e) = s).
  { rewrite Hk. specialize (Hc 0%nat ltac:(cbn; lia)).
    rewrite Z.add_0_r in Hc. exact Hc. }
  assert (Hsc : s = chr "." \/ s = chr "-") by (inversion Hf; assumption).
  assert (Hlt : sendingMorseSignalNr e < morseSignals e)
    by (rewrite Hk, <- Hn; cbn [List.length]; lia).
  pose proof (fun now pin => encode_signal e now pin s Hs Hlt Hs0 Hsc) as He.
  rewrite HeD, HeH, Ht in He. fold T in He.
  rewrite keying_wait; [|exact Hs|].
  2:{ intros j Hj. rewrite He.
      replace (T <=? t0 + j * dt - t0) with false; [reflexivity|].
      symmetry. apply Z.leb_gt. nia. }
  replace (Z.of_nat (Z.to_nat (J - 1)) + 1) with J by lia.
  cbn [keying]. rewrite He.
  replace (T <=? t0 + J * dt - t0) with true
    by (symmetry; apply Z.leb_le; lia).
  rewrite Hk.
  match goal with
  | |- context [available ?x] =>
      assert (Ha : available x = false)
        by (destruct e; cbn in *; subst; reflexivity);
      rewrite Ha
  end.
  match goal with
  | |- context [keying fuel ?a ?b ?c ?d] =>
      destruct (keying fuel a b c d) as [[? ?]|]
  end; reflexivity.
Qed.

(** The pause between two signals, from the call that turned the signal
    off to the call that turns the next one on. *)
Lemma pause_phase (e : t) (k : Z) (s : char) (rest : list char)
      (t0 : Z) (fuel : nat) :
  sendingMorseSignalNr e = k ->
  load (morseSignalString e) k = chr "x" ->
  sending_from (set_sendingMorseSignalNr (k + 1) e) (k + 1) (s :: rest) ->
  sendMorseTimer e = t0 -> dotTime e = D ->
  let G := ticks dt D in
  let e' := set_sendMorseTimer (t0 + G * dt)
              (set_sendingMorseSignalNr (k + 1)
                 (set_currentTime (t0 + G * dt) e)) in
  keying (Z.to_nat (G - 1) + S fuel) e false (t0 + dt) dt
  = option_map
      (fun r => (repeat false (Z.to_nat (G - 1)) ++ true :: fst r, snd r))
      (keying fuel e' true (t0 + G * dt + dt) dt).
Proof.
  intros Hk Hx (Hs & _ & Hk0 & Hn & Hn6 & Hf & Hc) Ht HeD. cbv zeta.
  destruct (ticks_spec dt D Hdt HD) as (HJ1 & HJ2 & HJ3).
  set (G := ticks dt D) in *.
  assert (Hs' : sendingMorse e = true) by (destruct e; exact Hs).
  assert (Hn' : k + 1 + Z.of_nat (List.length (s :: rest)) = morseSignals e)
    by (destruct e; exact Hn).
  cbn [List.length] in Hn'.
  assert (Hlt : sendingMorseSignalNr e < morseSignals e) by lia.
  assert (Hx' : load (morseSignalString e) (sendingMorseSignalNr e) = chr "x")
    by (rewrite Hk; exact Hx).
  pose proof (fun now pin => encode_pause e now pin Hs' Hlt Hx') as He.
  replace (sendingMorseSignalNr e <? morseSignals e - 1) with true in He
    by (symmetry; apply Z.ltb_lt; lia).
  rewrite HeD, Ht in He.
  rewrite keying_wait; [|exact Hs'|].
  2:{ intros j Hj. rewrite He.
      replace (D <=? t0 + j * dt - t0) with false; [reflexivity|].
      symmetry. apply Z.leb_gt. nia. }
  replace (Z.of_nat (Z.to_nat (G - 1)) + 1) with G by lia.
  cbn [keying]. rewrite He.
  replace (D <=? t0 + G * dt - t0) with true
    by (symmetry; apply Z.leb_le; lia).
  rewrite Hk.
  match goal with
  | |- context [available ?x] =>
      assert (Ha : available x = false)
        by (destruct e; cbn in *; subst; reflexivity);
      rewrite Ha
  end.
  match goal with
  | |- context [keying fuel ?a ?b ?c ?d] =>
      destruct (keying fuel a b c d) as [[? ?]|]
  end; reflexivity.
Qed.

(** The pause after the last signal, to the call that ends the
    transmission. *)
Lemma last_pause_phase (e : t) (k : Z) (t0 : Z) :
  sendingMorseSignalNr e = k ->
  load (morseSignalString e) k = chr "x" ->
  sending_from (set_sendingMorseSignalNr (k + 1) e) (k + 1) [] ->
  sendMorseTimer e = t0 -> dashTime e = H ->
  exists e',
    idle e' (dotTime e) (dashTime e) (wordSpace e)
    /\ forall fuel,
         keying (Z.to_nat (ticks dt H - 1) + S fuel) e false (t0 + dt) dt
         = Some (repeat false (Z.to_nat (ticks dt H - 1)), (e', false)).
Proof.
  intros Hk Hx (Hs & _ & Hk0 & Hn & Hn6 & Hf & Hc) Ht HeH.
  destruct (ticks_spec dt H Hdt HH) as (HJ1 & HJ2 & HJ3).
  set (G := ticks dt H) in *.
  assert (Hs' : sendingMorse e = true) by (destruct e; exact Hs).
  assert (Hn' : k + 1 + Z.of_nat (@List.length char []) = morseSignals e)
    by (destruct e; exact Hn).
  cbn [List.length] in Hn'.
  assert (Hlt : sendingMorseSignalNr e < morseSignals e) by lia.
  assert (Hx' : load (morseSignalString e) (sendingMorseSignalNr e) = chr "x")
    by (rewrite Hk; exact Hx).
  pose proof (fun now pin => encode_pause e now pin Hs' Hlt Hx') as He.
  replace (sendingMorseSignalNr e <? morseSignals e - 1) with false in He
    by (symmetry; apply Z.ltb_ge; lia).
  rewrite HeH, Ht in He.
  exists (set_encodeMorseChar 0
            (set_sendingMorse false
               (set_sendMorseTimer (t0 + G * dt)
                  (set_sendingMorseSignalNr (sendingMorseSignalNr e + 1)
                     (set_currentTime (t0 + G * dt) e))))).
  split; [unfold idle; destruct e; cbn; repeat split; assumption|].
  intros fuel.
  rewrite keying_wait; [|exact Hs'|].
  2:{ intros j Hj. rewrite He.
      replace (H <=? t0 + j * dt - t0) with false; [reflexivity|].
      symmetry. apply Z.leb_gt. nia. }
  replace (Z.of_nat (Z.to_nat (G - 1)) + 1) with G by lia.
  cbn [keying]. rewrite He.
  replace (H <=? t0 + G * dt - t0) with true
    by (symmetry; apply Z.leb_le; lia).
  match goal with
  | |- context [available ?x] =>
      assert (Ha : available x = true)
        by (destruct e; cbn in *; subst; reflexivity);
      rewrite Ha
  end.
  cbn [option_map fst snd]. rewrite app_nil_r. reflexivity.
Qed.

Lemma canonical_head (s : char) (rest : list char) (dot dash : Z) :
  exists more,
    canonical (s :: rest) dot dash
    = (true, if s =? chr "." then dot else dash) :: more.
Proof. cbn [canonical]. eauto. Qed.

(** The keying of the signals from the current one on. *)
Lemma key_rest (rest : list char) :
  forall (s : char) (e : t) (k t0 : Z),
    sending_from e k (s :: rest) ->
    sendMorseTimer e = t0 -> dotTime e = D -> dashTime e = H ->
    exists l e',
      runs (true :: l) = canonical (s :: rest) (ticks dt D) (ticks dt H)
      /\ idle e' D H (wordSpace e)
      /\ forall fuel,
           keying (S (List.length l) + fuel) e true (t0 + dt) dt
           = Some (l, (e', false)).
Proof.
  induction rest as [|s2 rest IH]; intros s e k t0 Hsf Ht HeD HeH.
  - set (T := if s =? chr "." then D else H).
    assert (HT : 0 < T) by (unfold T; destruct (s =? chr "."); assumption).
    destruct (ticks_spec dt T Hdt HT) as (HJ1 & _).
    destruct (ticks_spec dt H Hdt HH) as (HG1 & _).
    set (m := Z.to_nat (ticks dt T - 1)).
    set (g := Z.to_nat (ticks dt H - 1)).
    destruct (marked_state e k s [] (t0 + ticks dt T * dt)
                (t0 + ticks dt T * dt) Hsf)
      as (M1 & M2 & M3 & M4 & M5 & M6 & M7).
    cbv zeta in M1, M2, M3, M4, M5, M6, M7.
    destruct (last_pause_phase _ k (t0 + ticks dt T * dt) M1 M2 M3 M4)
      as (e' & Hi & Hlast); [rewrite M6; exact HeH|].
    rewrite M5, M6, M7, HeD, HeH in Hi.
    exists (repeat true m ++ false :: repeat false g), e'. split; [|split].
    + replace (true :: repeat true m ++ false :: repeat false g)
        with (repeat true (S m) ++ repeat false (S g) ++ [])
        by (cbn [repeat app]; rewrite app_nil_r; reflexivity).
      rewrite runs_repeat by (right; eexists; reflexivity).
      rewrite runs_repeat by (left; reflexivity).
      cbn [runs canonical].
      replace (Z.of_nat (S m)) with (ticks dt T) by lia.
      replace (Z.of_nat (S g)) with (ticks dt H) by lia.
      unfold T. destruct (s =? chr "."); reflexivity.
    + exact Hi.
    + intros fuel.
      replace (S (List.length (repeat true m ++ false :: repeat false g))
               + fuel)%nat
        with (m + S (g + S fuel))%nat
        by (rewrite length_app; cbn [List.length]; rewrite !repeat_length;
            lia).
      unfold m. rewrite (signal_phase e k s [] t0 _ Hsf Ht HeD HeH).
      fold T. unfold g. rewrite Hlast. reflexivity.
  - set (T := if s =? chr "." then D else H).
    assert (HT : 0 < T) by (unfold T; destruct (s =? chr "."); assumption).
    destruct (ticks_spec dt T Hdt HT) as (HJ1 & _).
    destruct (ticks_spec dt D Hdt HD) as (HG1 & _).
    set (m := Z.to_nat (ticks dt T - 1)).
    set (g := Z.to_nat (ticks dt D - 1)).
    set (t1 := t0 + ticks dt T * dt).
    set (t2 := t1 + ticks dt D * dt).
    destruct (marked_state e k s (s2 :: rest) t1 t1 Hsf)
      as (M1 & M2 & M3 & M4 & M5 & M6 & M7).
    cbv zeta in M1, M2, M3, M4, M5, M6, M7.
    set (e1 := set_morseSignalString
                 (store (morseSignalString e) k (chr "x"))
                 (set_sendMorseTimer t1 (set_currentTime t1 e))) in *.
    destruct (next_state e1 (k + 1) (s2 :: rest) t2 t2 M3)
      as (N1 & N2 & N3 & N4 & N5).
    cbv zeta in N1, N2, N3, N4, N5.
    set (e2 := set_sendMorseTimer t2
                 (set_sendingMorseSignalNr (k + 1) (set_currentTime t2 e1)))
      in *.
    destruct (IH s2 e2 (k + 1) t2 N1 N2)
      as (l3 & e3 & Hr & Hi & Hk3); [congruence|congruence|].
    rewrite N5, M7 in Hi.
    exists (repeat true m ++ false :: repeat false g ++ true :: l3), e3.
    split; [|split].
    + change (true :: repeat true m ++ false :: repeat false g ++ true :: l3)
        with (repeat true (S m) ++ repeat false (S g) ++ true :: l3).
      rewrite runs_repeat by (right; eexists; reflexivity).
      rewrite runs_repeat by (right; eexists; reflexivity).
      rewrite Hr. cbn [canonical].
      replace (Z.of_nat (S m)) with (ticks dt T) by lia.
      replace (Z.of_nat (S g)) with (ticks dt D) by lia.
      unfold T. destruct (s =? chr "."); reflexivity.
    + exact Hi.
    + intros fuel.
      replace (S (List.length
                    (repeat true m ++ false :: repeat false g ++ true :: l3))
               + fuel)%nat
        with (m + S (g + S (S (List.length l3) + fuel)))%nat
        by (rewrite length_app; cbn [List.length]; rewrite length_app;
            cbn [List.length]; rewrite !repeat_length; lia).
      unfold m. rewrite (signal_phase e k s (s2 :: rest) t0 _ Hsf Ht HeD HeH).
      fold T. fold t1. fold e1.
      unfold g.
      rewrite (pause_phase e1 k s2 rest t1 _ M1 M2 M3 M4)
        by (rewrite M5; exact HeD).
      fold t2. fold e2. rewrite Hk3. cbn [option_map fst snd].
      reflexivity.
Qed.

End Timing.

Lemma planned_cells (e : t) (i : nat) :
  1 <= morseSignals e <= 6 ->
  (i < List.length (planned e))%nat ->
  load (morseSignalString e) (0 + Z.of_nat i) = nth i (planned e) 0.
Proof.
  intros Hn Hi. unfold planned in *.
  destruct e as [op c sm w dt da ws n sp str nr tm ct].
  cbn [morseSignals morseSignalString] in *. destruct str.
  assert (Hc : n = 1 \/ n = 2 \/ n = 3 \/ n = 4 \/ n = 5 \/ n = 6) by lia.
  destruct Hc as [-> | [-> | [-> | [-> | [-> | ->]]]]];
    do 6 (destruct i as [|i];
          [vm_compute; reflexivity|try (vm_compute in Hi; lia)]).
Qed.

Lemma keying_canonical (e : t) (c : char) (now dt : Z) (pin : bool) :
  sendingMorse e = false ->
  0 < dotTime e -> 0 < dashTime e -> 0 < dt ->
  c <> chr "*" -> In (capital c) morseTable -> capital c <> chr " " ->
  let sigs := planned (fst (encode (write e c) now pin)) in
  table_char (fst (walk sigs)) = capital c
  /\ exists l e',
       runs l = canonical sigs (ticks dt (dotTime e)) (ticks dt (dashTime e))
       /\ idle e' (dotTime e) (dashTime e) (wordSpace e)
       /\ forall fuel, (List.length l < fuel)%nat ->
                       keying fuel (write e c) pin now dt
                       = Some (l, (e', false)).
Proof.
  intros Hs Hd Ha Hdt H1 Hin H2. cbv zeta.
  pose proof (first_call e c now pin Hs Hd Ha H1 Hin H2) as F.
  cbv zeta in F.
  destruct (encode (write e c) now pin) as [e' p'] eqn:E.
  cbn [fst snd] in F |- *.
  destruct F as (-> & F2 & F3 & F4 & F5 & F6 & F7 & F8 & F9 & F10 & F11).
  split; [exact F10|].
  destruct (planned e') as [|s rest] eqn:Ep; [cbn in F8; lia|].
  assert (Hsf : sending_from e' 0 (s :: rest)).
  { unfold sending_from.
    split; [exact F2|]. split; [exact F3|]. split; [lia|].
    split; [lia|]. split; [lia|]. split; [exact F9|].
    intros i Hi. rewrite <- Ep in Hi |- *.
    apply planned_cells; [exact F7|exact Hi]. }
  destruct (key_rest (dotTime e) (dashTime e) dt Hd Ha Hdt rest s e' 0 now
              Hsf F4 F5 F6) as (l & e2 & Hr & Hi & Hk).
  rewrite F11 in Hi.
  exists (true :: l), e2. split; [exact Hr|]. split; [exact Hi|].
  intros fuel Hf. cbn [List.length] in Hf.
  replace fuel with (S (S (List.length l) + (fuel - S (S (List.length l)))))
    by lia.
  cbn [keying]. rewrite E.
  assert (Hav : available e' = false)
    by (unfold available; rewrite F2; reflexivity).
  rewrite Hav.
  change (S (List.length l + (fuel - S (S (List.length l)))))%nat
    with (S (List.length l) + (fuel - S (S (List.length l))))%nat.
  rewrite Hk. reflexivity.
Qed.

(** X3.  The keying of a character: an idle encoder with positive dot
    and dash times is given a character whose capital is in the table and
    is not the space, and [encode()] is called every [dt] milliseconds
    from the call that takes it.  Then the signals planned lead the
    decoder to the capital of the character, and the levels of the pin
    after the calls, up to the call that ends the transmission, are those
    of the planned signals: on for a dot time or a dash time, off for a
    dot time between two signals and for a dash time after the last, each
    time counted in calls and rounded up to whole calls.  The call that
    ends the transmission leaves the pin low and the encoder idle, with the
    timing it had. *)
Theorem keying_is_canonical (e : t) (c : char) (now dt : Z) (pin : bool) :
  sendingMorse e = false ->
  0 < dotTime e -> 0 < dashTime e -> 0 < dt ->
  c <> chr "*" -> In (capital c) morseTable -> capital c <> chr " " ->
  let sigs := planned (fst (encode (write e c) now pin)) in
  table_char (fst (walk sigs)) = capital c
  /\ exists l e',
       runs l = canonical sigs (ticks dt (dotTime e)) (ticks dt (dashTime e))
       /\ idle e' (dotTime e) (dashTime e) (wordSpace e)
       /\ forall fuel, (List.length l < fuel)%nat ->
                       keying fuel (write e c) pin now dt
                       = Some (l, (e', false)).
Proof. exact (keying_canonical e c now dt pin). Qed.

Lemma keying_is_canonical_witness :
  exists l e',
    runs l = [(true, 92); (false, 92); (true, 276); (false, 276)]
    /\ idle e' 92 276 646
    /\ forall fuel, (List.length l < fuel)%nat ->
                    keying fuel (write (new 13) (chr "a")) false 0 1
                    = Some (l, (e', false)).
Proof.
  refine (proj2 (keying_is_canonical (new 13) (chr "a") 0 1 false
                   _ _ _ _ _ _ _)).
  - reflexivity.
  - reflexivity.
  - reflexivity.
  - reflexivity.
  - discriminate.
  - vm_compute. tauto.
  - discriminate.
Defined.

(** *** The keying of a space *)

Lemma send_space (e : t) (pin : bool) :
  sendingMorse e = true -> morseSignals e = 1 ->
  sendingMorseSignalNr e = 0 ->
  load (morseSignalString e) 0 = chr " " ->
  send e pin
  = if wordSpace e - dashTime e <? currentTime e - sendMorseTimer e
    then (set_encodeMorseChar 0
            (set_sendingMorse false (set_sendingMorseSignalNr 1 e)), pin)
    else (e, pin).
Proof.
  intros Hs Hn Hk Hl.
  destruct e as [op c sm w dt da ws n sp str nr tm ct].
  cbn [sendingMorse sendingMorseSignalNr morseSignals morseSignalString] in *.
  subst sm n nr. unfold send.
  cbn [sendingMorse sendingMorseSignalNr morseSignals morseSignalString
       dotTime dashTime sendMorseTimer currentTime wordSpace].
  rewrite Hl.
  change (chr " " =? chr ".") with false.
  change (chr " " =? chr "-") with false.
  change (chr " " =? chr "x") with false. cbv iota.
  destruct (ws - da <? ct - tm); reflexivity.
Qed.

(** The call that takes a pending space. *)
Lemma space_call (e : t) (c : char) (now : Z) (pin : bool) :
  sendingMorse e = false ->
  dashTime e <= wordSpace e ->
  c <> chr "*" -> c <> 0 ->
  capital c = chr " " \/ ~ In (capital c) morseTable ->
  let e' := fst (encode (write e c) now pin) in
  snd (encode (write e c) now pin) = pin
  /\ sendingMorse e' = true
  /\ morseSignals e' = 1
  /\ sendingMorseSignalNr e' = 0
  /\ load (morseSignalString e') 0 = chr " "
  /\ sendMorseTimer e' = now
  /\ dotTime e' = dotTime e /\ dashTime e' = dashTime e
  /\ wordSpace e' = wordSpace e.
Proof.
  intros Hs Hw H1 Hc H2. cbv zeta.
  unfold encode. set (e0 := set_currentTime now (write e c)).
  assert (F : sendingMorse e0 = false /\ encodeMorseChar e0 = c
              /\ dotTime e0 = dotTime e /\ dashTime e0 = dashTime e
              /\ currentTime e0 = now /\ wordSpace e0 = wordSpace e).
  { unfold e0, write. rewrite Hs.
    replace (c =? chr "*") with false by (symmetry; apply Z.eqb_neq; exact H1).
    destruct e; cbn in *. repeat split; auto. }
  clearbody e0. destruct F as (Hs0 & Hc0 & Hd0 & Ha0 & Ht0 & Hw0).
  rewrite (begin_plan e0 pin Hs0) by (rewrite Hc0; exact Hc). cbv zeta.
  replace (encodeMorseChar
             (set_encodeMorseChar (capital (encodeMorseChar e0)) e0))
    with (capital c) by (rewrite Hc0; destruct e0; reflexivity).
  set (pos := scan morseTable (capital c) 0 + 1).
  assert (Hpos : pos = morseTreetop + 1 \/ pos = morseTableLength + 1).
  { unfold pos. destruct H2 as [-> | H2]; [left; reflexivity|right].
    rewrite (scan_absent _ _ 0 H2). reflexivity. }
  clearbody pos.
  set (e1 := set_encodeMorseChar (capital (encodeMorseChar e0)) e0).
  assert (F1 : dotTime e1 = dotTime e /\ dashTime e1 = dashTime e
               /\ currentTime e1 = now /\ wordSpace e1 = wordSpace e)
    by (unfold e1; destruct e0; cbn in *; auto).
  clearbody e1. destruct F1 as (Hd1 & Ha1 & Ht1 & Hw1).
  assert (Hg : plan_good pos (plan pos e1) = true)
    by (apply plan_is_good; destruct Hpos as [-> | ->]; vm_compute;
        split; discriminate).
  destruct (plan_frame pos e1) as (_ & Hpd & Hpa & Hpw & Hpt).
  destruct (plan_good_cells _ _ Hg) as (Hn & _ & _).
  pose proof (plan_good_space _ _ Hg Hpos) as Hp.
  assert (G : currentTime (plan pos e1) = now
              /\ dotTime (plan pos e1) = dotTime e
              /\ dashTime (plan pos e1) = dashTime e
              /\ wordSpace (plan pos e1) = wordSpace e)
    by (rewrite Hpd, Hpa, Hpt, Hpw; auto).
  revert G Hn Hp. generalize (plan pos e1).
  intros p (G1 & G2 & G3 & G4) Hn Hp.
  assert (Hcell : morseSignals p = 1 /\ load (morseSignalString p) 0 = chr " ").
  { unfold planned in Hp.
    destruct p as [? ? ? ? ? ? ? n ? str ? ? ?]. cbn in *. destruct str.
    assert (Hc6 : n = 1 \/ n = 2 \/ n = 3 \/ n = 4 \/ n = 5 \/ n = 6) by lia.
    destruct Hc6 as [-> | [-> | [-> | [-> | [-> | ->]]]]];
      vm_compute in Hp; try discriminate Hp.
    injection Hp as ->. split; reflexivity. }
  destruct Hcell as [Hn1 Hl0].
  rewrite Hl0. change (negb (chr " " =? chr " ")) with false. cbv iota.
  rewrite send_space;
    [|destruct p; reflexivity|destruct p; exact Hn1|destruct p; reflexivity
     |destruct p; exact Hl0].
  assert (E : (wordSpace
                 (set_sendMorseTimer (currentTime p)
                    (set_sendingMorseSignalNr 0 (set_sendingMorse true p)))
               - dashTime
                   (set_sendMorseTimer (currentTime p)
                      (set_sendingMorseSignalNr 0 (set_sendingMorse true p)))
               <? currentTime
                    (set_sendMorseTimer (currentTime p)
                       (set_sendingMorseSignalNr 0 (set_sendingMorse true p)))
                  - sendMorseTimer
                      (set_sendMorseTimer (currentTime p)
                         (set_sendingMorseSignalNr 0
                            (set_sendingMorse true p)))) = false).
  { destruct p; cbn in *. apply Z.ltb_ge. lia. }
  rewrite E. cbn [fst snd].
  destruct p; cbn in *. repeat split; assumption.
Qed.

Lemma encode_space (e : t) (now : Z) (pin : bool) :
  sendingMorse e = true -> morseSignals e = 1 ->
  sendingMorseSignalNr e = 0 ->
  load (morseSignalString e) 0 = chr " " ->
  encode e now pin
  = if wordSpace e - dashTime e <? now - sendMorseTimer e
    then (set_encodeMorseChar 0
            (set_sendingMorse false
               (set_sendingMorseSignalNr 1 (set_currentTime now e))), pin)
    else (set_currentTime now e, pin).
Proof.
  intros Hs Hn Hk Hl. rewrite encode_sending by exact Hs.
  rewrite send_space; destruct e; cbn in *; auto.
Qed.

Lemma keying_unfold (fuel : nat) (e : t) (pin : bool) (now dt : Z) :
  keying (S fuel) e pin now dt
  = let '(e, pin) := encode e now pin in
    if available e then Some ([], (e, pin))
    else option_map (fun r => (pin :: fst r, snd r))
           (keying fuel e pin (now + dt) dt).
Proof. reflexivity. Qed.

(** The keying of a space, or of a character that the table does not
    hold: the pin is left as it is until a call finds that more than the
    word space less the dash time has passed. *)
Lemma keying_space (e : t) (c : char) (now dt : Z) (pin : bool) (D H W : Z) :
  idle e D H W -> H <= W -> 0 < dt ->
  c <> chr "*" -> c <> 0 ->
  capital c = chr " " \/ ~ In (capital c) morseTable ->
  exists e',
    idle e' D H W
    /\ forall fuel,
         keying (S (S (Z.to_nat ((W - H) / dt))) + fuel) (write e c) pin now dt
         = Some (repeat pin (S (Z.to_nat ((W - H) / dt))), (e', pin)).
Proof.
  intros (Hs & HD & HH & HW) Hle Hdt H1 Hc H2.
  pose proof (space_call e c now pin Hs ltac:(lia) H1 Hc H2) as F.
  cbv zeta in F.
  destruct (encode (write e c) now pin) as [e1 p1] eqn:E.
  cbn [fst snd] in F.
  destruct F as (-> & F1 & F2 & F3 & F4 & F5 & F6 & F7 & F8).
  pose proof (fun t b => encode_space e1 t b F1 F2 F3 F4) as He.
  rewrite F7, F8, F5, HH, HW in He.
  set (m := Z.to_nat ((W - H) / dt)).
  assert (Hm : Z.of_nat m = (W - H) / dt)
    by (unfold m; apply Z2Nat.id; apply Z.div_pos; lia).
  assert (Hlo : Z.of_nat m * dt <= W - H)
    by (rewrite Hm, Z.mul_comm; apply Z.mul_div_le; lia).
  assert (Hhi : W - H < (Z.of_nat m + 1) * dt).
  { rewrite Hm. pose proof (Z.mul_succ_div_gt (W - H) dt Hdt). lia. }
  exists (set_encodeMorseChar 0
            (set_sendingMorse false
               (set_sendingMorseSignalNr 1
                  (set_currentTime (now + (Z.of_nat m + 1) * dt) e1)))).
  split.
  { unfold idle. destruct e1; cbn in *. repeat split; congruence. }
  intros fuel.
  change (S (S m) + fuel)%nat with (S (S m + fuel)).
  rewrite keying_unfold, E.
  assert (Ha : available e1 = false)
    by (unfold available; rewrite F1; reflexivity).
  rewrite Ha.
  replace (S m + fuel)%nat with (m + S fuel)%nat by lia.
  rewrite keying_wait; [|exact F1|].
  2:{ intros j Hj. rewrite He.
      replace (W - H <? now + j * dt - now) with false; [reflexivity|].
      symmetry. apply Z.ltb_ge. nia. }
  rewrite keying_unfold, He.
  replace (W - H <? now + (Z.of_nat m + 1) * dt - now)
    with true by (symmetry; apply Z.ltb_lt; lia).
  match goal with
  | |- context [available ?x] =>
      assert (Hb : available x = true)
        by (destruct e1; cbn in *; subst; reflexivity);
      rewrite Hb
  end.
  cbn [option_map fst snd repeat]. rewrite app_nil_r. reflexivity.
Qed.

(** X4.  The keying of a space: an idle encoder whose dash time is at
    most its word space is given the space, or a character other than the
    asterisk and NUL whose capital the table does not hold, and
    [encode()] is called every [dt] milliseconds from the call that takes
    it.  Then no call changes the pin, the transmission ends at the first
    call that comes more than the word space less the dash time after the
    first one, that is after [(W - H) / dt + 2] calls, and that call
    leaves the encoder idle, with the timing it had. *)
Theorem keying_of_a_space (e : t) (c : char) (now dt : Z) (pin : bool)
        (D H W : Z) :
  idle e D H W -> H <= W -> 0 < dt ->
  c <> chr "*" -> c <> 0 ->
  capital c = chr " " \/ ~ In (capital c) morseTable ->
  exists e',
    idle e' D H W
    /\ forall fuel,
         keying (S (S (Z.to_nat ((W - H) / dt))) + fuel) (write e c) pin now dt
         = Some (repeat pin (S (Z.to_nat ((W - H) / dt))), (e', pin)).
Proof. exact (keying_space e c now dt pin D H W). Qed.

Lemma keying_of_a_space_witness :
  exists e',
    idle e' 92 276 646
    /\ forall fuel,
         keying (S (S (Z.to_nat ((646 - 276) / 10))) + fuel)
           (write (new 13) (chr " ")) true 0 10
         = Some (repeat true (S (Z.to_nat ((646 - 276) / 10))), (e', true)).
Proof.
  refine (keying_of_a_space (new 13) (chr " ") 0 10 true 92 276 646
            _ _ _ _ _ _).
  - repeat split.
  - lia.
  - lia.
  - discriminate.
  - discriminate.
  - left. reflexivity.
Defined.

End Keying.

(** ** The decoder: configuration, front ends, silence *)
Section DecoderMore.

Import morseDecoder.

Ltac case_ifs :=
  repeat match goal with
         | |- context [if ?b then _ else _] => destruct b eqn:?
         end.

Lemma front_end_config (d : t) (s : sample) : config (front_end d s) = config d.
Proof. destruct d; unfold front_end; cbn; case_ifs; reflexivity. Qed.

Lemma classify_config (d : t) : config (classify d) = config d.
Proof. destruct d; unfold classify; cbn; case_ifs; reflexivity. Qed.

Lemma write_letter_config (d : t) : config (write_letter d) = config d.
Proof. destruct d; unfold write_letter; cbn; case_ifs; reflexivity. Qed.

Lemma write_space_config (d : t) : config (write_space d) = config d.
Proof. destruct d; unfold write_space; cbn; case_ifs; reflexivity. Qed.

Lemma decode_config (d : t) (now : Z) (s : sample) :
  config (decode d now s) = config d.
Proof.
  assert (H1 : config (sensed d now s) = config d).
  { unfold sensed. rewrite front_end_config. destruct d; reflexivity. }
  destruct (morseSignalState (sensed d now s)) eqn:E.
  - rewrite (decode_signal _ _ _ E). cbv zeta. rewrite <- H1.
    generalize (sensed d now s). intros x. destruct x; reflexivity.
  - rewrite (decode_silent _ _ _ E). cbv zeta.
    rewrite <- H1, <- (classify_config (sensed d now s)),
      <- (write_letter_config (classify (sensed d now s))),
      <- (write_space_config (write_letter (classify (sensed d now s)))).
    generalize (write_space (write_letter (classify (sensed d now s)))).
    intros x. destruct x; reflexivity.
Qed.

Lemma run_config_inv (cs : list call) (d : t) :
  debounceDelay d = 20 /\ AudioThreshold d = 700
  /\ 1 <= wpm d /\ timed d (wpm d) ->
  debounceDelay (run d cs) = 20 /\ AudioThreshold (run d cs) = 700
  /\ 1 <= wpm (run d cs) /\ timed (run d cs) (wpm (run d cs)).
Proof.
  revert d. induction cs as [|c cs IH]; intros d H; cbn; [exact H|].
  apply IH. destruct H as (H1 & H2 & H3 & H4).
  destruct c as [now s|v|]; cbn.
  - pose proof (decode_config d now s) as E. unfold config in E.
    injection E as _ _ Ew Ea Ed. rewrite Ew, Ea, Ed.
    repeat split; try assumption; apply timed_decode; apply H4.
  - destruct d; cbn in *. unfold setspeed. cbn.
    destruct (Z.leb_spec v 0); repeat split; try assumption; lia.
  - destruct d; cbn in *. repeat split; try assumption; apply H4.
Qed.

Lemma reachable_config (d : t) :
  reachable d ->
  debounceDelay d = 20 /\ AudioThreshold d = 700
  /\ 1 <= wpm d /\ timed d (wpm d).
Proof.
  intros (pin & a & p & cs & ->). apply run_config_inv.
  repeat split. cbn. lia.
Qed.

(** X5.  In every reachable state the timing is the one of the speed
    that the decoder holds, which is at least 1 wpm: the dot time is
    1200/wpm, the dash time 3600/wpm and the word space 8400/wpm, so that
    no tick, read or sequence of them changes the timing, the dot time is
    never negative, a dash lasts at least three dots and a word space at
    least seven. *)
Theorem timing_follows_speed (d : t) :
  reachable d ->
  1 <= wpm d
  /\ dotTime d = Z.quot 1200 (wpm d)
  /\ dashTime d = Z.quot 3600 (wpm d)
  /\ wordSpace d = Z.quot 8400 (wpm d)
  /\ 0 <= dotTime d <= 1200
  /\ 3 * dotTime d <= dashTime d
  /\ 7 * dotTime d <= wordSpace d.
Proof.
  intros H. destruct (reachable_config d H) as (_ & _ & Hw & Hd & Ha & Hs).
  change (3 * 1200) with 3600 in Ha. change (7 * 1200) with 8400 in Hs.
  split; [exact Hw|]. split; [exact Hd|]. split; [exact Ha|].
  split; [exact Hs|].
  rewrite Hd, Ha, Hs. rewrite !Z.quot_div_nonneg by lia.
  pose proof (Z.mul_div_le 1200 (wpm d) ltac:(lia)).
  assert (0 <= 1200 / wpm d) by (apply Z.div_pos; lia).
  split; [split; [assumption|]|split].
  - apply Z.div_le_upper_bound; lia.
  - apply Z.div_le_lower_bound; lia.
  - apply Z.div_le_lower_bound; lia.
Qed.

Lemma timing_follows_speed_witness :
  dotTime (run (new 4 false false)
             [Setspeed 0; Decode 5 (digital true); Setspeed 25; Read;
              Decode 40 (digital true)]) = 48.
Proof.
  refine (eq_trans (proj1 (proj2
            (timing_follows_speed
               (run (new 4 false false)
                  [Setspeed 0; Decode 5 (digital true); Setspeed 25; Read;
                   Decode 40 (digital true)]) _))) _).
  - exists 4, false, false. eexists. reflexivity.
  - reflexivity.
Defined.

(** The signal state that the digital front end leaves. *)
Lemma sensed_digital (d : t) (now : Z) (s : sample) :
  morseAudio d = false ->
  0 <= debounceDelay d ->
  morseSignalState (sensed d now s)
  = (if Bool.eqb (keyer_level d s) (lastKeyerState d)
        && (debounceDelay d <? now - lastDebounceTime d)
     then keyer_level d s else morseSignalState d)
  /\ lastDebounceTime (sensed d now s)
     = (if Bool.eqb (keyer_level d s) (lastKeyerState d)
        then lastDebounceTime d else now)
  /\ morseKeyer (sensed d now s) = keyer_level d s.
Proof.
  intros Ha Hd. destruct d as [ip au al w th db dt da ws j p k st lk g sp c
                                ldt mk stm ct asg].
  cbn in Ha, Hd. subst au. unfold sensed, front_end, keyer_level. cbn.
  destruct (Bool.eqb (if al then negb (digitalRead s) else digitalRead s) lk)
    eqn:E; cbn.
  - destruct (db <? now - ldt); cbn; case_ifs; cbn; auto.
  - rewrite Z.sub_diag.
    replace (db <? 0) with false by (symmetry; apply Z.ltb_ge; lia).
    auto.
Qed.

(** X6.  The debounce of the digital keyer: in every reachable state of
    a decoder in digital mode the debounce delay is 20 ms, and a tick
    takes the level of the keyer as the signal state only when it reads
    the level that the tick before read and more than 20 ms have passed
    since the level was last seen to change; on every other tick the
    signal state is left as it was, and a tick that reads a changed level
    restarts the delay. *)
Theorem debounce_guarantee (d : t) (now : Z) (s : sample) :
  reachable d ->
  morseAudio d = false ->
  debounceDelay d = 20
  /\ morseSignalState (decode d now s)
     = (if Bool.eqb (keyer_level d s) (lastKeyerState d)
           && (20 <? now - lastDebounceTime d)
        then keyer_level d s else morseSignalState d)
  /\ lastDebounceTime (decode d now s)
     = (if Bool.eqb (keyer_level d s) (lastKeyerState d)
        then lastDebounceTime d else now)
  /\ lastKeyerState (decode d now s) = keyer_level d s.
Proof.
  intros Hr Ha. destruct (reachable_config d Hr) as (Hd & _).
  destruct (sensed_digital d now s Ha ltac:(lia)) as (H1 & H2 & H3).
  rewrite Hd in H1. split; [exact Hd|].
  rewrite decode_signal_state. split; [exact H1|].
  rewrite <- H2, <- H3.
  destruct (morseSignalState (sensed d now s)) eqn:E.
  - rewrite (decode_signal _ _ _ E). cbv zeta.
    generalize (sensed d now s). intros x. destruct x. split; reflexivity.
  - rewrite (decode_silent _ _ _ E). cbv zeta.
    assert (F : lastDebounceTime
                  (write_space (write_letter (classify (sensed d now s))))
                = lastDebounceTime (sensed d now s)
                /\ morseKeyer
                     (write_space (write_letter (classify (sensed d now s))))
                   = morseKeyer (sensed d now s)).
    { generalize (sensed d now s). intros x.
      destruct x; unfold write_space, write_letter, classify; cbn;
        case_ifs; cbn; split; reflexivity. }
    revert F.
    generalize (write_space (write_letter (classify (sensed d now s)))).
    intros x [F1 F2]. destruct x. cbn in *. split; assumption.
Qed.

Lemma debounce_guarantee_witness :
  let d := run (new 4 false false)
             [Decode 100 (digital true); Decode 110 (digital false);
              Decode 119 (digital true)] in
  morseSignalState (decode d 130 (digital true)) = false
  /\ debounceDelay d = 20.
Proof.
  cbv zeta. split; [vm_compute; reflexivity|].
  refine (proj1 (debounce_guarantee
                   (run (new 4 false false)
                      [Decode 100 (digital true); Decode 110 (digital false);
                       Decode 119 (digital true)])
                   130 (digital true) _ _)).
  - exists 4, false, false. eexists. reflexivity.
  - reflexivity.
Defined.

(** X7.  The audio front end: a tick of a decoder in audio mode raises
    the signal state only on a sample above the threshold that comes more
    than half a dot after the last such sample, and then takes the time
    of the tick as the start of the pulse; it drops the signal state only
    on a sample at or below the threshold that comes more than half a dot
    after the last sample above it, and then takes the time of that last
    sample as the end of the pulse. *)
Theorem audio_front_end (d : t) (now : Z) (s : sample) :
  morseAudio d = true ->
  (morseSignalState d = false -> morseSignalState (decode d now s) = true ->
   AudioThreshold d < analogRead s
   /\ Z.quot (dotTime d) 2 < now - lastDebounceTime d
   /\ markTime (decode d now s) = now)
  /\ (morseSignalState d = true -> morseSignalState (decode d now s) = false ->
      analogRead s <= AudioThreshold d
      /\ Z.quot (dotTime d) 2 < now - lastDebounceTime d
      /\ spaceTime (decode d now s) = lastDebounceTime d).
Proof.
  intros Ha.
  assert (F : forall x, morseSignalState (decode d now s) = x ->
                        morseSignalState (sensed d now s) = x)
    by (intros x <-; symmetry; apply decode_signal_state).
  assert (G : markTime (decode d now s) = markTime (sensed d now s)
              /\ spaceTime (decode d now s) = spaceTime (sensed d now s)).
  { destruct (morseSignalState (sensed d now s)) eqn:E.
    - rewrite (decode_signal _ _ _ E). cbv zeta.
      generalize (sensed d now s). intros x. destruct x. split; reflexivity.
    - rewrite (decode_silent _ _ _ E). cbv zeta.
      generalize (sensed d now s). intros x.
      destruct x; unfold write_space, write_letter, classify; cbn;
        case_ifs; cbn; split; reflexivity. }
  destruct G as [-> ->].
  destruct d as [ip au al w th db dt da ws j p k st lk g sp c
                   ldt mk stm ct asg].
  cbn in Ha. subst au. cbn [morseSignalState AudioThreshold dotTime
                            lastDebounceTime].
  split; intros Hst Hnew; apply F in Hnew; subst st;
    revert Hnew; unfold sensed, front_end; cbn;
      destruct (Z.ltb_spec th (analogRead s));
      destruct (Z.ltb_spec (Z.quot dt 2) (now - ldt)); cbn;
        intros Hnew; try discriminate; repeat split; try lia.
Qed.

Lemma audio_front_end_witness :
  let d := run (new 0 true false) [Decode 100 (audio_sample 800)] in
  spaceTime (decode d 160 (audio_sample 3)) = 100.
Proof.
  cbv zeta.
  refine (proj2 (proj2 (proj2
            (audio_front_end
               (run (new 0 true false) [Decode 100 (audio_sample 800)])
               160 (audio_sample 3) _) _ _))).
  - reflexivity.
  - reflexivity.
  - reflexivity.
Defined.

Lemma table_char_not_nul_check :
  forallb (fun n => negb (table_char (Z.of_nat n) =? 0)) (seq 0 127) = true.
Proof. vm_compute. reflexivity. Qed.

Lemma table_char_not_nul (p : Z) : 0 <= p <= 126 -> table_char p <> 0.
Proof.
  intros H E.
  pose proof (proj1 (forallb_forall _ _) table_char_not_nul_check (Z.to_nat p))
    as Hc.
  cbv beta in Hc. rewrite Z2Nat.id in Hc by lia.
  rewrite E in Hc. discriminate Hc. apply in_seq. lia.
Qed.

(** X8.  A tick never empties the mailbox and never puts the NUL into
    it: in a reachable state, after a tick the mailbox holds what it held
    before or a character other than NUL, so that every character a tick
    writes is announced by [available()]. *)
Theorem tick_never_writes_nul (d : t) (now : Z) (s : sample) :
  reachable d ->
  decodedMorseChar (decode d now s) = decodedMorseChar d
  \/ available (decode d now s) = true.
Proof.
  intros Hr.
  pose proof (decode_mailbox d now s) as Hm. cbv zeta in Hm.
  destruct Hm as (Hm & _).
  assert (Hnz : forall c, c <> 0 -> decodedMorseChar (decode d now s) = c ->
                          available (decode d now s) = true).
  { intros c Hc E. unfold available. rewrite E.
    destruct (Z.eqb_spec c 0); [contradiction|reflexivity]. }
  destruct (morseSignalState (sensed d now s)); [left; exact Hm|].
  destruct (space_due (classify (sensed d now s))).
  { right. apply (Hnz (chr " ")); [discriminate|exact Hm]. }
  destruct (letter_due (classify (sensed d now s))).
  { right. refine (Hnz _ (table_char_not_nul _ _) Hm).
    apply tree_inv_bounds, tree_inv_classify.
    destruct (sensed_frame d now s) as (Ej & Ep & _).
    eapply tree_inv_ext; [exact Ej|exact Ep|].
    apply reachable_tree_inv, Hr. }
  destruct (classify_char (sensed d now s)) as [E|E].
  - right. apply (Hnz (chr "#")); [discriminate|congruence].
  - left. rewrite Hm, E.
    destruct (sensed_frame d now s) as (_ & _ & _ & _ & -> & _). reflexivity.
Qed.

Lemma settled_step (d : t) (c : call) :
  settled d ->
  morseSignalState (do d c) = false ->
  settled (do d c)
  /\ (decodedMorseChar (do d c) = decodedMorseChar d
      \/ (decodedMorseChar (do d c) = chr " " /\ morseSpace d = false)
      \/ decodedMorseChar (do d c) = 0)
  /\ (morseSpace d = true -> morseSpace (do d c) = true).
Proof.
  intros [Hg Hj] Hq. destruct c as [now s|v|]; unfold do in *.
  - rewrite decode_signal_state in Hq.
    destruct (sensed_frame d now s) as (Ej & _ & Eg & Es & Ec & _).
    rewrite <- Eg in Hg. rewrite <- Ej in Hj.
    pose proof (decode_mailbox d now s) as (Hm & Hmj & _).
    cbv zeta in Hm, Hmj. rewrite Hq, (classify_got _ Hg) in Hm, Hmj.
    assert (Hl : letter_due (sensed d now s) = false).
    { unfold letter_due. rewrite Hj.
      replace (Z.quot (morseTreetop + 1) 2 <? Z.quot (morseTreetop + 1) 2)
        with false by reflexivity.
      apply andb_false_r. }
    rewrite Hl in Hm, Hmj.
    destruct (decode_silent_fields _ _ _ Hq)
      as (_ & _ & _ & Hsp & Hgg & _).
    rewrite write_space_flag, space_due_write_letter in Hsp.
    destruct (write_space_frame (write_letter (classify (sensed d now s))))
      as (_ & _ & _ & _ & Hg3 & _).
    destruct (write_letter_frame (classify (sensed d now s)))
      as (Hs2 & _ & _ & Hg2 & _).
    rewrite (classify_got _ Hg) in Hsp, Hgg, Hg3, Hg2, Hs2.
    split; [split; [congruence|rewrite Hmj; exact Hj]|].
    unfold space_due in Hm, Hsp. rewrite Es in Hm, Hsp, Hs2.
    split.
    + destruct (morseSpace d) eqn:Esp.
      * cbn [Bool.eqb] in Hm. rewrite andb_false_r in Hm. cbv iota in Hm.
        left. congruence.
      * cbn [Bool.eqb] in Hm. rewrite andb_true_r in Hm.
        destruct (Z.quot (wordSpace (sensed d now s) * 2) 3
                  <? currentTime (sensed d now s) - spaceTime (sensed d now s));
          cbv iota in Hm; [right; left; auto|left; congruence].
    + intros Esp. rewrite Esp in Hsp. cbn [Bool.eqb] in Hsp.
      rewrite andb_false_r in Hsp. cbv iota in Hsp.
      rewrite Hsp, Hs2. exact Esp.
  - destruct d; unfold settled; cbn in *. auto.
  - destruct d; unfold settled; cbn in *. auto.
Qed.

Lemma settled_run (cs : list call) (d : t) :
  settled d ->
  quiet d cs ->
  settled (run d cs)
  /\ (decodedMorseChar (run d cs) = decodedMorseChar d
      \/ decodedMorseChar (run d cs) = chr " "
      \/ decodedMorseChar (run d cs) = 0)
  /\ (morseSpace d = true ->
      morseSpace (run d cs) = true
      /\ (decodedMorseChar (run d cs) = decodedMorseChar d
          \/ decodedMorseChar (run d cs) = 0)).
Proof.
  revert d. induction cs as [|c cs IH]; intros d Hs Hq.
  - cbn. auto.
  - change (run d (c :: cs)) with (run (do d c) cs).
    cbn [quiet] in Hq. destruct Hq as [Hq1 Hq2].
    destruct (settled_step d c Hs Hq1) as (Hs' & Hc & Hsp).
    destruct (IH _ Hs' Hq2) as (Hs'' & Hc' & Hsp').
    split; [exact Hs''|]. split.
    + destruct Hc' as [E|[E|E]]; [|auto|auto].
      rewrite E. destruct Hc as [E'|[[E' _]|E']]; auto.
    + intros Esp. destruct (Hsp' (Hsp Esp)) as [Hf Hc''].
      split; [exact Hf|].
      destruct Hc'' as [E|E]; [|auto]. rewrite E.
      destruct Hc as [E'|[[_ E']|E']]; [auto|congruence|auto].
Qed.

(** X9.  A decoder at rest that has written the space of the current
    pause and whose mailbox is empty stays silent: as long as the calls
    (ticks at any time, speed changes, reads) leave the signal state low,
    nothing becomes available.  A decoder fresh from its constructor is in
    that state. *)
Theorem silence_yields_nothing (d : t) (cs : list call) :
  settled d ->
  morseSpace d = true ->
  decodedMorseChar d = 0 ->
  quiet d cs ->
  available (run d cs) = false.
Proof.
  intros Hs Hsp Hc Hq.
  destruct (settled_run cs d Hs Hq) as (_ & _ & H).
  destruct (H Hsp) as [_ [E|E]]; unfold available; rewrite E, ?Hc; reflexivity.
Qed.

Lemma silence_yields_nothing_witness :
  available (run (new 4 false false)
               [Decode 0 (digital false); Decode 7000 (digital false);
                Setspeed 5; Decode 9000 (digital true)]) = false.
Proof.
  apply (silence_yields_nothing (new 4 false false)).
  - split; reflexivity.
  - reflexivity.
  - reflexivity.
  - vm_compute. repeat split.
Defined.

(** X10.  Once the pulses of a character have been taken and the tree is
    back at its top (the letter, or the error mark, has been written), the
    rest of the silence writes no further letter and no error mark: as
    long as the calls leave the signal state low, the mailbox holds what
    it held, or the space, or nothing. *)
Theorem after_a_letter_only_a_space (d : t) (cs : list call) :
  settled d ->
  quiet d cs ->
  decodedMorseChar (run d cs) = decodedMorseChar d
  \/ decodedMorseChar (run d cs) = chr " "
  \/ decodedMorseChar (run d cs) = 0.
Proof.
  intros Hs Hq. apply (settled_run cs d Hs Hq).
Qed.

Lemma after_a_letter_only_a_space_witness :
  let d := run (new 4 false false)
             [Decode 0 (digital true); Decode 21 (digital true);
              Decode 92 (digital false); Decode 300 (digital false)] in
  let cs := [Decode 301 (digital false); Read; Decode 400 (digital false);
             Decode 600 (digital false)] in
  decodedMorseChar d = chr "E"
  /\ (decodedMorseChar (run d cs) = decodedMorseChar d
      \/ decodedMorseChar (run d cs) = chr " "
      \/ decodedMorseChar (run d cs) = 0).
Proof.
  cbv zeta. split; [reflexivity|].
  apply (after_a_letter_only_a_space
           (run (new 4 false false)
              [Decode 0 (digital true); Decode 21 (digital true);
               Decode 92 (digital false); Decode 300 (digital false)])).
  - split; reflexivity.
  - vm_compute. repeat split.
Defined.

Lemma tick_never_writes_nul_witness :
  let d := run (new 4 false false)
             [Decode 0 (digital true); Decode 21 (digital true);
              Decode 92 (digital false)] in
  decodedMorseChar (decode d 300 (digital false)) = decodedMorseChar d
  \/ available (decode d 300 (digital false)) = true.
Proof.
  cbv zeta.
  apply (tick_never_writes_nul
           (run (new 4 false false)
              [Decode 0 (digital true); Decode 21 (digital true);
               Decode 92 (digital false)])).
  exists 4, false, false. eexists. reflexivity.
Defined.

End DecoderMore.

(** ** The decoder on the keying of a character *)
Section Hearing.

Import morseDecoder.

Variables (D H W : Z).

Ltac open_state d Hr Hv :=
  destruct d as [? ? ? ? ? ? ? ? ? ? ? ? ? ? ? ? ? ? ? ? ? ?];
  unfold rigged, views in *;
  cbn [morseAudio activeLow debounceDelay dotTime dashTime wordSpace
       morseSignalState lastKeyerState gotLastSig morseSpace
       decodedMorseChar lastDebounceTime markTime spaceTime
       morseTableJumper morseTablePointer] in Hr, Hv;
  destruct Hr as (? & ? & ? & ? & ? & ?);
  destruct Hv as (? & ? & ? & ? & ? & ? & ? & ? & ? & ?);
  subst.

Ltac eval_fields :=
  cbn [set_currentTime set_morseKeyer set_lastDebounceTime
       set_morseSignalState set_markTime set_spaceTime set_gotLastSig
       set_morseSpace set_decodedMorseChar set_lastKeyerState set_tree
       morseInPin morseAudio activeLow wpm AudioThreshold debounceDelay
       dotTime dashTime wordSpace morseTableJumper morseTablePointer
       morseKeyer morseSignalState lastKeyerState gotLastSig morseSpace
       decodedMorseChar lastDebounceTime markTime spaceTime currentTime
       audioSignal digitalRead analogRead negb andb Bool.eqb].

Ltac solve_views :=
  unfold rigged, views; eval_fields; repeat split; reflexivity.

Ltac decide_cmp :=
  repeat match goal with
         | |- context [?a <? ?b] =>
             first [ replace (a <? b) with true
                       by (symmetry; apply Z.ltb_lt; lia)
                   | replace (a <? b) with false
                       by (symmetry; apply Z.ltb_ge; lia) ]
         end.

(** A tick that reads the pin high while the signal state is still low:
    the level is being debounced. *)
Lemma tick_high_debounce (d : t) (now : Z) (L SP : bool)
      (LD MT ST J P : Z) :
  rigged d D H W -> views d false L true SP LD MT ST J P ->
  now - (if L then LD else now) <= 20 ->
  (D * 2 <=? now - ST) && (J <? Z.quot (morseTreetop + 1) 2) = false ->
  (Z.quot (W * 2) 3 <? now - ST) && Bool.eqb SP false = false ->
  exists d',
    Rig.listen d now true = (d', [])
    /\ rigged d' D H W
    /\ views d' false true true SP (if L then LD else now) MT ST J P.
Proof.
  intros Hr Hv Hd Hl Hs. open_state d Hr Hv.
  destruct L.
  - eexists. split.
    { unfold Rig.listen, decode, front_end; eval_fields.
      replace (20 <? now - LD) with false by (symmetry; apply Z.ltb_ge; lia).
      eval_fields.
      unfold classify. eval_fields.
      unfold write_letter, letter_due. eval_fields. rewrite Hl.
      unfold write_space, space_due. eval_fields. rewrite Hs.
      eval_fields. unfold available. eval_fields. reflexivity. }
    split; solve_views.
  - eexists. split.
    { unfold Rig.listen, decode, front_end; eval_fields.
      replace (20 <? now - now) with false by (symmetry; apply Z.ltb_ge; lia).
      eval_fields.
      unfold classify. eval_fields.
      unfold write_letter, letter_due. eval_fields. rewrite Hl.
      unfold write_space, space_due. eval_fields. rewrite Hs.
      eval_fields. unfold available. eval_fields. reflexivity. }
    split; solve_views.
Qed.

(** A tick that reads the pin high as the tick before did, more than the
    debounce delay after the edge: the signal is on. *)
Lemma tick_high_stable (d : t) (now : Z) (S G SP : bool)
      (LD MT ST J P : Z) :
  rigged d D H W -> views d S true G SP LD MT ST J P ->
  20 < now - LD ->
  exists d',
    Rig.listen d now true = (d', [])
    /\ rigged d' D H W
    /\ views d' true true false false LD LD ST J P.
Proof.
  intros Hr Hv Hd. open_state d Hr Hv.
  eexists. split.
  { unfold Rig.listen, decode, front_end; eval_fields.
    replace (20 <? now - LD) with true by (symmetry; apply Z.ltb_lt; lia).
    eval_fields. unfold available. eval_fields. reflexivity. }
  split; solve_views.
Qed.

(** A tick that reads the pin low while the signal state is still high. *)
Lemma tick_low_debounce (d : t) (now : Z) (L G SP : bool)
      (LD MT ST J P : Z) :
  rigged d D H W -> views d true L G SP LD MT ST J P ->
  now - (if L then now else LD) <= 20 ->
  exists d',
    Rig.listen d now false = (d', [])
    /\ rigged d' D H W
    /\ views d' true false false false (if L then now else LD) MT ST J P.
Proof.
  intros Hr Hv Hd. open_state d Hr Hv.
  destruct L.
  - eexists. split.
    { unfold Rig.listen, decode, front_end; eval_fields.
      replace (20 <? now - now) with false by (symmetry; apply Z.ltb_ge; lia).
      eval_fields. unfold available. eval_fields. reflexivity. }
    split; solve_views.
  - eexists. split.
    { unfold Rig.listen, decode, front_end; eval_fields.
      replace (20 <? now - LD) with false by (symmetry; apply Z.ltb_ge; lia).
      eval_fields. unfold available. eval_fields. reflexivity. }
    split; solve_views.
Qed.

(** A tick that reads the pin low more than the debounce delay after the
    edge, before the pulse can be classified. *)
Lemma tick_low_early (d : t) (now : Z) (S SP : bool) (LD MT ST J P : Z) :
  rigged d D H W -> views d S false false SP LD MT ST J P ->
  20 < now - LD -> 0 < J ->
  now - LD <= Z.quot D 2 -> now - LD < D * 2 ->
  (Z.quot (W * 2) 3 <? now - LD) && Bool.eqb SP false = false ->
  exists d',
    Rig.listen d now false = (d', [])
    /\ rigged d' D H W
    /\ views d' false false false SP LD MT LD J P.
Proof.
  intros Hr Hv Hd HJ Hc Hl Hs. open_state d Hr Hv.
  eexists. split.
  { unfold Rig.listen, decode, front_end; eval_fields.
    replace (20 <? now - LD) with true by (symmetry; apply Z.ltb_lt; lia).
    eval_fields.
    unfold classify. eval_fields.
    replace (0 <? J) with true by (symmetry; apply Z.ltb_lt; lia).
    replace (Z.quot D 2 <? now - LD) with false
      by (symmetry; apply Z.ltb_ge; lia).
    unfold write_letter, letter_due. eval_fields.
    replace (D * 2 <=? now - LD) with false
      by (symmetry; apply Z.leb_gt; lia).
    eval_fields.
    unfold write_space, space_due. eval_fields. rewrite Hs.
    eval_fields. unfold available. eval_fields. reflexivity. }
  split; solve_views.
Qed.

(** The tick that classifies the pulse. *)
Lemma tick_low_classify (d : t) (now : Z) (S SP : bool) (LD MT ST J P : Z)
      (s : char) :
  rigged d D H W -> views d S false false SP LD MT ST J P ->
  20 < now - LD -> 0 < J ->
  Z.quot D 2 < now - LD -> now - LD < D * 2 ->
  Z.quot D 4 < LD - MT ->
  (s = chr "." /\ LD - MT < Z.quot H 2
   \/ s = chr "-" /\ Z.quot H 2 <= LD - MT < H + D) ->
  (Z.quot (W * 2) 3 <? now - LD) && Bool.eqb SP false = false ->
  exists d',
    Rig.listen d now false = (d', [])
    /\ rigged d' D H W
    /\ views d' false false true SP LD MT LD
         (snd (tree_move (P, J) s)) (fst (tree_move (P, J) s)).
Proof.
  intros Hr Hv Hd HJ Hc Hl Hq Hp Hs. open_state d Hr Hv.
  assert (El : (D * 2 <=? now - LD) = false) by (apply Z.leb_gt; lia).
  destruct Hp as [[-> Hp] | [-> Hp]].
  - eexists. split.
    { unfold Rig.listen, decode, front_end; eval_fields.
      replace (20 <? now - LD) with true by (symmetry; apply Z.ltb_lt; lia).
      eval_fields.
      unfold classify. eval_fields.
      replace (0 <? J) with true by (symmetry; apply Z.ltb_lt; lia).
      replace (Z.quot D 2 <? now - LD) with true
        by (symmetry; apply Z.ltb_lt; lia).
      replace (Z.quot D 4 <? LD - MT) with true
        by (symmetry; apply Z.ltb_lt; lia).
      replace (LD - MT <? Z.quot H 2) with true
        by (symmetry; apply Z.ltb_lt; lia).
      unfold write_letter, letter_due. eval_fields. rewrite El.
      eval_fields.
      unfold write_space, space_due. eval_fields. rewrite Hs.
      eval_fields. unfold available. eval_fields. reflexivity. }
    split; solve_views.
  - eexists. split.
    { unfold Rig.listen, decode, front_end; eval_fields.
      replace (20 <? now - LD) with true by (symmetry; apply Z.ltb_lt; lia).
      eval_fields.
      unfold classify. eval_fields.
      replace (0 <? J) with true by (symmetry; apply Z.ltb_lt; lia).
      replace (Z.quot D 2 <? now - LD) with true
        by (symmetry; apply Z.ltb_lt; lia).
      replace (Z.quot D 4 <? LD - MT) with true
        by (symmetry; apply Z.ltb_lt; lia).
      replace (LD - MT <? Z.quot H 2) with false
        by (symmetry; apply Z.ltb_ge; lia).
      replace (LD - MT <? H + D) with true
        by (symmetry; apply Z.ltb_lt; lia).
      unfold write_letter, letter_due. eval_fields. rewrite El.
      eval_fields.
      unfold write_space, space_due. eval_fields. rewrite Hs.
      eval_fields. unfold available. eval_fields. reflexivity. }
    split; solve_views.
Qed.

(** A tick of the pause after the pulse has been classified, before the
    letter is due. *)
Lemma tick_low_wait (d : t) (now : Z) (S SP : bool) (LD MT ST J P : Z) :
  rigged d D H W -> views d S false true SP LD MT ST J P ->
  20 < now - LD ->
  (D * 2 <=? now - LD) && (J <? Z.quot (morseTreetop + 1) 2) = false ->
  (Z.quot (W * 2) 3 <? now - LD) && Bool.eqb SP false = false ->
  exists d',
    Rig.listen d now false = (d', [])
    /\ rigged d' D H W
    /\ views d' false false true SP LD MT LD J P.
Proof.
  intros Hr Hv Hd Hl Hs. open_state d Hr Hv.
  eexists. split.
  { unfold Rig.listen, decode, front_end; eval_fields.
    replace (20 <? now - LD) with true by (symmetry; apply Z.ltb_lt; lia).
    eval_fields.
    unfold classify. eval_fields.
    unfold write_letter, letter_due. eval_fields. rewrite Hl.
    unfold write_space, space_due. eval_fields. rewrite Hs.
    eval_fields. unfold available. eval_fields. reflexivity. }
  split; solve_views.
Qed.

(** The tick that writes the letter, which the loop reads at once. *)
Lemma tick_low_letter (d : t) (now : Z) (S SP : bool) (LD MT ST J P : Z) :
  rigged d D H W -> views d S false true SP LD MT ST J P ->
  20 < now - LD ->
  D * 2 <= now - LD -> J < Z.quot (morseTreetop + 1) 2 ->
  table_char P <> 0 ->
  (Z.quot (W * 2) 3 <? now - LD) && Bool.eqb SP false = false ->
  exists d',
    Rig.listen d now false = (d', [table_char P])
    /\ rigged d' D H W
    /\ views d' false false true SP LD MT LD
         (Z.quot (morseTreetop + 1) 2) morseTreetop.
Proof.
  intros Hr Hv Hd Hl HJ Hc Hs. open_state d Hr Hv.
  eexists. split.
  { unfold Rig.listen, decode, front_end; eval_fields.
    replace (20 <? now - LD) with true by (symmetry; apply Z.ltb_lt; lia).
    eval_fields.
    unfold classify. eval_fields.
    unfold write_letter, letter_due. eval_fields.
    replace (D * 2 <=? now - LD) with true
      by (symmetry; apply Z.leb_le; lia).
    replace (J <? Z.quot (morseTreetop + 1) 2) with true
      by (symmetry; apply Z.ltb_lt; lia).
    eval_fields.
    unfold write_space, space_due. eval_fields. rewrite Hs.
    eval_fields. unfold available. eval_fields.
    replace (table_char P =? 0) with false
      by (symmetry; apply Z.eqb_neq; exact Hc).
    unfold read. eval_fields. reflexivity. }
  split; solve_views.
Qed.

Lemma listens_app (l1 l2 : list bool) (d : t) (now : Z) :
  listens d now 1 (l1 ++ l2)
  = let '(d1, o1) := listens d now 1 l1 in
    let '(d2, o2) := listens d1 (now + Z.of_nat (List.length l1)) 1 l2 in
    (d2, o1 ++ o2).
Proof.
  revert d now. induction l1 as [|b l1 IH]; intros d now.
  - cbn [app listens List.length]. rewrite Z.add_0_r.
    destruct (listens d now 1 l2); reflexivity.
  - cbn [app listens List.length].
    destruct (Rig.listen d now b) as [d1 o1].
    rewrite IH.
    destruct (listens d1 (now + 1) 1 l1) as [d2 o2].
    replace (now + 1 + Z.of_nat (List.length l1))
      with (now + Z.of_nat (S (List.length l1))) by lia.
    destruct (listens d2 (now + Z.of_nat (S (List.length l1))) 1 l2).
    rewrite app_assoc. reflexivity.
Qed.

(** Ticks at a constant level that yield nothing, under an invariant
    that may depend on the time. *)
Lemma listens_repeat (I : Z -> t -> Prop) (b : bool) (n : nat) :
  forall (now : Z) (d : t),
    I now d ->
    (forall x d0, now <= x < now + Z.of_nat n -> I x d0 ->
                  exists d', Rig.listen d0 x b = (d', []) /\ I (x + 1) d') ->
    exists d',
      listens d now 1 (repeat b n) = (d', []) /\ I (now + Z.of_nat n) d'.
Proof.
  induction n as [|n IH]; intros now d Hi Hstep.
  - exists d. cbn [repeat listens]. rewrite Z.add_0_r. auto.
  - destruct (Hstep now d ltac:(lia) Hi) as (d1 & E1 & Hi1).
    destruct (IH (now + 1) d1 Hi1) as (d2 & E2 & Hi2).
    { intros x d0 Hx. apply Hstep. lia. }
    exists d2. cbn [repeat listens]. rewrite E1, E2.
    replace (now + Z.of_nat (S n)) with (now + 1 + Z.of_nat n) by lia.
    auto.
Qed.

Hypothesis HD : 22 <= D.
Hypothesis HH : 2 * D + 2 <= H.
Hypothesis HW : H <= Z.quot (W * 2) 3.

(** A pulse of at least 22 ms. *)
Lemma pulse_on (d : t) (r n : Z) (SP : bool) (LD0 MT0 ST J P : Z) :
  rigged d D H W -> views d false false true SP LD0 MT0 ST J P ->
  22 <= n -> calm D W r ST J SP ->
  exists d',
    listens d r 1 (repeat true (Z.to_nat n)) = (d', [])
    /\ rigged d' D H W
    /\ views d' true true false false r r ST J P.
Proof.
  intros Hr Hv Hn Hq.
  destruct (listens_repeat
              (fun x d0 =>
                 rigged d0 D H W
                 /\ ((x = r /\ views d0 false false true SP LD0 MT0 ST J P)
                     \/ (r < x <= r + 21
                         /\ views d0 false true true SP r MT0 ST J P)
                     \/ (r + 21 < x
                         /\ views d0 true true false false r r ST J P)))
              true (Z.to_nat n) r d) as (d' & E & Hr' & Hi).
  - split; [exact Hr|]. left. auto.
  - intros x d0 Hx (Hr0 & [[-> Hv0] | [[Hx1 Hv0] | [Hx1 Hv0]]]).
    + destruct (Hq r ltac:(lia)) as [Q1 Q2].
      destruct (tick_high_debounce d0 r false SP LD0 MT0 ST J P Hr0 Hv0
                  ltac:(lia) Q1 Q2) as (d1 & E1 & Hr1 & Hv1).
      exists d1. split; [exact E1|]. split; [exact Hr1|].
      right. left. split; [lia|exact Hv1].
    + destruct (Z.eq_dec x (r + 21)) as [->|Hne].
      * destruct (tick_high_stable d0 (r + 21) false true SP r MT0 ST J P
                    Hr0 Hv0 ltac:(lia)) as (d1 & E1 & Hr1 & Hv1).
        exists d1. split; [exact E1|]. split; [exact Hr1|].
        right. right. split; [lia|exact Hv1].
      * destruct (Hq x ltac:(lia)) as [Q1 Q2].
        destruct (tick_high_debounce d0 x true SP r MT0 ST J P Hr0 Hv0
                    ltac:(lia) Q1 Q2) as (d1 & E1 & Hr1 & Hv1).
        exists d1. split; [exact E1|]. split; [exact Hr1|].
        right. left. split; [lia|exact Hv1].
    + destruct (tick_high_stable d0 x true false false r r ST J P
                  Hr0 Hv0 ltac:(lia)) as (d1 & E1 & Hr1 & Hv1).
      exists d1. split; [exact E1|]. split; [exact Hr1|].
      right. right. split; [lia|exact Hv1].
  - exists d'. split; [exact E|]. split; [exact Hr'|].
    destruct Hi as [[Hx _] | [[Hx _] | [_ Hv']]]; [lia|lia|exact Hv'].
Qed.

(** The pause after a pulse, up to but not including the tick at which
    the letter is due: the pulse is classified. *)
Lemma pulse_off (d : t) (f r n : Z) (ST0 J P : Z) (s : char) :
  rigged d D H W -> views d true true false false r r ST0 J P ->
  D <= n <= D * 2 -> 0 < J ->
  (s = chr "." /\ f - r = D \/ s = chr "-" /\ f - r = H) ->
  exists d',
    listens d f 1 (repeat false (Z.to_nat n)) = (d', [])
    /\ rigged d' D H W
    /\ views d' false false true false f r f
         (snd (tree_move (P, J) s)) (fst (tree_move (P, J) s)).
Proof.
  intros Hr Hv Hn HJ Hs.
  assert (Hq4 : Z.quot D 4 < f - r).
  { pose proof (Z.quot_le_upper_bound D 4 D ltac:(lia) ltac:(lia)).
    assert (Z.quot D 4 < D).
    { apply Z.quot_lt_upper_bound; lia. }
    destruct Hs as [[_ ->] | [_ ->]]; lia. }
  assert (Hh2 : D < Z.quot H 2).
  { assert (D + 1 <= Z.quot H 2); [|lia].
    apply Z.quot_le_lower_bound; lia. }
  assert (Hh3 : Z.quot H 2 <= H).
  { apply Z.quot_le_upper_bound; lia. }
  assert (Hd2 : Z.quot D 2 < n - 1).
  { assert (Z.quot D 2 * 2 <= D); [|lia].
    rewrite Z.mul_comm. apply Z.mul_quot_le; lia. }
  assert (Hcls : s = chr "." /\ f - r < Z.quot H 2
                 \/ s = chr "-" /\ Z.quot H 2 <= f - r < H + D).
  { destruct Hs as [[-> ->] | [-> ->]]; [left|right]; split; auto; lia. }
  set (J' := snd (tree_move (P, J) s)).
  set (P' := fst (tree_move (P, J) s)).
  destruct (listens_repeat
              (fun x d0 =>
                 rigged d0 D H W
                 /\ ((x = f /\ views d0 true true false false r r ST0 J P)
                     \/ (f < x <= f + 21
                         /\ views d0 true false false false f r ST0 J P)
                     \/ (f + 21 < x
                         /\ if Z.quot D 2 <? x - 1 - f
                            then views d0 false false true false f r f J' P'
                            else views d0 false false false false f r f J P)))
              false (Z.to_nat n) f d) as (d' & E & Hr' & Hi).
  - split; [exact Hr|]. left. auto.
  - assert (Sp : forall x, x < f + n ->
                 (Z.quot (W * 2) 3 <? x - f) && Bool.eqb false false = false).
    { intros x Hx. apply andb_false_iff. left. apply Z.ltb_ge. lia. }
    intros x d0 Hx (Hr0 & [[-> Hv0] | [[Hx1 Hv0] | [Hx1 Hv0]]]).
    + destruct (tick_low_debounce d0 f true false false r r ST0 J P Hr0 Hv0
                  ltac:(lia)) as (d1 & E1 & Hr1 & Hv1).
      exists d1. split; [exact E1|]. split; [exact Hr1|].
      right. left. split; [lia|exact Hv1].
    + destruct (Z.eq_dec x (f + 21)) as [->|Hne].
      * destruct (Z.ltb_spec (Z.quot D 2) (f + 21 + 1 - 1 - f)) as [Hc|Hc].
        -- destruct (tick_low_classify d0 (f + 21) true false f r ST0 J P s
                       Hr0 Hv0 ltac:(lia) HJ ltac:(lia) ltac:(lia) Hq4 Hcls
                       (Sp (f + 21) ltac:(lia))) as (d1 & E1 & Hr1 & Hv1).
           exists d1. split; [exact E1|]. split; [exact Hr1|].
           right. right. split; [lia|].
           replace (Z.quot D 2 <? f + 21 + 1 - 1 - f) with true
             by (symmetry; apply Z.ltb_lt; lia).
           exact Hv1.
        -- destruct (tick_low_early d0 (f + 21) true false f r ST0 J P
                       Hr0 Hv0 ltac:(lia) HJ ltac:(lia) ltac:(lia)
                       (Sp (f + 21) ltac:(lia))) as (d1 & E1 & Hr1 & Hv1).
           exists d1. split; [exact E1|]. split; [exact Hr1|].
           right. right. split; [lia|].
           replace (Z.quot D 2 <? f + 21 + 1 - 1 - f) with false
             by (symmetry; apply Z.ltb_ge; lia).
           exact Hv1.
      * destruct (tick_low_debounce d0 x false false false f r ST0 J P
                    Hr0 Hv0 ltac:(lia)) as (d1 & E1 & Hr1 & Hv1).
        exists d1. split; [exact E1|]. split; [exact Hr1|].
        right. left. split; [lia|exact Hv1].
    + destruct (Z.ltb_spec (Z.quot D 2) (x - 1 - f)) as [Hc|Hc].
      * destruct (tick_low_wait d0 x false false f r f J' P' Hr0 Hv0
                    ltac:(lia)) as (d1 & E1 & Hr1 & Hv1).
        { apply andb_false_iff. left. apply Z.leb_gt. lia. }
        { apply Sp. lia. }
        exists d1. split; [exact E1|]. split; [exact Hr1|].
        right. right. split; [lia|].
        replace (Z.quot D 2 <? x + 1 - 1 - f) with true
          by (symmetry; apply Z.ltb_lt; lia).
        exact Hv1.
      * destruct (Z.ltb_spec (Z.quot D 2) (x + 1 - 1 - f)) as [Hc'|Hc'].
        -- destruct (tick_low_classify d0 x false false f r f J P s
                       Hr0 Hv0 ltac:(lia) HJ ltac:(lia) ltac:(lia) Hq4 Hcls
                       (Sp x ltac:(lia))) as (d1 & E1 & Hr1 & Hv1).
           exists d1. split; [exact E1|]. split; [exact Hr1|].
           right. right. split; [lia|exact Hv1].
        -- destruct (tick_low_early d0 x false false f r f J P
                       Hr0 Hv0 ltac:(lia) HJ ltac:(lia) ltac:(lia)
                       (Sp x ltac:(lia))) as (d1 & E1 & Hr1 & Hv1).
           exists d1. split; [exact E1|]. split; [exact Hr1|].
           right. right. split; [lia|exact Hv1].
  - exists d'. split; [exact E|]. split; [exact Hr'|].
    destruct Hi as [[Hx _] | [[Hx _] | [_ Hv']]]; [lia|lia|].
    replace (Z.quot D 2 <? f + Z.of_nat (Z.to_nat n) - 1 - f) with true
      in Hv' by (symmetry; apply Z.ltb_lt; lia).
    exact Hv'.
Qed.

(** A tick of silence at rest: nothing but the space can be due. *)
Lemma tick_rest (d : t) (now : Z) (SP : bool) (f MT : Z) :
  rigged d D H W ->
  views d false false true SP f MT f (Z.quot (morseTreetop + 1) 2)
        morseTreetop ->
  exists d',
    Rig.listen d now false
    = (d', if (Z.quot (W * 2) 3 <? now - f) && Bool.eqb SP false
           then [chr " "] else [])
    /\ rigged d' D H W
    /\ views d' false false true
         (SP || (Z.quot (W * 2) 3 <? now - f)) f MT f
         (Z.quot (morseTreetop + 1) 2) morseTreetop.
Proof.
  intros Hr Hv. open_state d Hr Hv.
  change (Z.quot (morseTreetop + 1) 2) with 32.
  destruct (20 <? now - f) eqn:Ed;
    destruct (Z.quot (W * 2) 3 <? now - f) eqn:Es; destruct SP;
    (eexists; split;
     [ unfold Rig.listen, decode, front_end; eval_fields;
       rewrite Ed; eval_fields;
       unfold classify; eval_fields;
       unfold write_letter, letter_due; eval_fields;
       change (32 <? Z.quot (morseTreetop + 1) 2) with false;
       rewrite andb_false_r;
       unfold write_space, space_due; eval_fields; rewrite Es;
       eval_fields; unfold available; eval_fields;
       try change (chr " " =? 0) with false; cbv iota;
       unfold read; eval_fields; reflexivity
     | split; solve_views ]).
Qed.

(** The tick at which the letter is due and the rest of the pause after
    the last pulse. *)
Lemma pulse_last (d : t) (f r J P : Z) :
  rigged d D H W -> views d false false true false f r f J P ->
  J < Z.quot (morseTreetop + 1) 2 -> table_char P <> 0 ->
  exists d',
    listens d (f + D * 2) 1
      (false :: repeat false (Z.to_nat (H - D * 2 - 1)))
    = (d', [table_char P])
    /\ rigged d' D H W
    /\ views d' false false true false f r f
         (Z.quot (morseTreetop + 1) 2) morseTreetop.
Proof.
  intros Hr Hv HJ Hc.
  assert (Sp : forall x, x <= f + H ->
               (Z.quot (W * 2) 3 <? x - f) && Bool.eqb false false = false).
  { intros x Hx. apply andb_false_iff. left. apply Z.ltb_ge. lia. }
  assert (Lt : forall x, (D * 2 <=? x - f)
                         && (Z.quot (morseTreetop + 1) 2
                             <? Z.quot (morseTreetop + 1) 2) = false).
  { intros x. apply andb_false_iff. right. apply Z.ltb_irrefl. }
  destruct (tick_low_letter d (f + D * 2) false false f r f J P Hr Hv
              ltac:(lia) ltac:(lia) HJ Hc (Sp (f + D * 2) ltac:(lia)))
    as (d1 & E1 & Hr1 & Hv1).
  destruct (listens_repeat
              (fun _ d0 =>
                 rigged d0 D H W
                 /\ views d0 false false true false f r f
                      (Z.quot (morseTreetop + 1) 2) morseTreetop)
              false (Z.to_nat (H - D * 2 - 1)) (f + D * 2 + 1) d1)
    as (d2 & E2 & Hr2 & Hv2).
  - auto.
  - intros x d0 Hx (Hr0 & Hv0).
    destruct (tick_low_wait d0 x false false f r f _ _ Hr0 Hv0 ltac:(lia)
                (Lt x) (Sp x ltac:(lia))) as (d3 & E3 & Hr3 & Hv3).
    exists d3. auto.
  - exists d2. cbn [listens]. rewrite E1, E2. auto.
Qed.

Lemma tree_move_snd (P J : Z) (s : char) :
  snd (tree_move (P, J) s) = Z.quot J 2.
Proof. unfold tree_move. destruct (s =? chr "."); reflexivity. Qed.

(** The pulses of a character from the current one on: the letter is
    heard, and nothing else, and the decoder is at rest, with no space
    written, a dash time after the last pulse fell. *)
Lemma hear_pulses (rest : list char) :
  forall (s : char) (d : t) (r : Z) (SP : bool) (LD0 MT0 ST J P : Z),
    rigged d D H W -> views d false false true SP LD0 MT0 ST J P ->
    calm D W r ST J SP -> J <= Z.quot (morseTreetop + 1) 2 ->
    (forall k, (k < List.length (s :: rest))%nat ->
               0 < snd (fold_left tree_move (firstn k (s :: rest)) (P, J))) ->
    Forall (fun c => c = chr "." \/ c = chr "-") (s :: rest) ->
    table_char (fst (fold_left tree_move (s :: rest) (P, J))) <> 0 ->
    exists d' f MT,
      listens d r 1 (expand (canonical (s :: rest) D H))
      = (d', [table_char (fst (fold_left tree_move (s :: rest) (P, J)))])
      /\ rigged d' D H W
      /\ views d' false false true false f MT f
           (Z.quot (morseTreetop + 1) 2) morseTreetop
      /\ f + H
         = r + Z.of_nat (List.length (expand (canonical (s :: rest) D H))).
Proof.
  induction rest as [|s2 rest IH];
    intros s d r SP LD0 MT0 ST J P Hr Hv Hq HJ32 Hpos Hf Hc.
  - set (T := if s =? chr "." then D else H).
    assert (HT : 22 <= T) by (unfold T; destruct (s =? chr "."); lia).
    assert (Hs : s = chr "." /\ r + T - r = D \/ s = chr "-" /\ r + T - r = H).
    { inversion Hf as [|? ? [-> | ->] _]; [left|right]; split; auto;
        unfold T; cbn; lia. }
    pose proof (Hpos 0%nat ltac:(cbn; lia)) as HJ. cbn in HJ.
    destruct (pulse_on d r T SP LD0 MT0 ST J P Hr Hv HT Hq)
      as (d1 & E1 & Hr1 & Hv1).
    destruct (pulse_off d1 (r + T) r (D * 2) ST J P s Hr1 Hv1 ltac:(lia) HJ Hs)
      as (d2 & E2 & Hr2 & Hv2).
    cbn [fold_left] in Hc |- *.
    destruct (pulse_last d2 (r + T) r _ _ Hr2 Hv2) as (d3 & E3 & Hr3 & Hv3).
    { rewrite tree_move_snd.
      assert (Z.quot J 2 <= Z.quot (Z.quot (morseTreetop + 1) 2) 2)
        by (apply Z.quot_le_mono; lia).
      change (Z.quot (Z.quot (morseTreetop + 1) 2) 2) with 16 in *.
      change (Z.quot (morseTreetop + 1) 2) with 32. lia. }
    { exact Hc. }
    exists d3, (r + T), r. cbn [canonical expand]. fold T.
    rewrite app_nil_r.
    split; [|split; [exact Hr3|split; [exact Hv3|]]].
    + replace (Z.to_nat H)
        with (Z.to_nat (D * 2) + S (Z.to_nat (H - D * 2 - 1)))%nat by lia.
      rewrite repeat_app. cbn [repeat].
      rewrite listens_app, E1, repeat_length.
      rewrite listens_app.
      replace (r + Z.of_nat (Z.to_nat T)) with (r + T) by lia.
      rewrite E2, repeat_length.
      replace (r + T + Z.of_nat (Z.to_nat (D * 2))) with (r + T + D * 2)
        by lia.
      rewrite E3. reflexivity.
    + rewrite length_app, !repeat_length. lia.
  - set (T := if s =? chr "." then D else H).
    assert (HT : 22 <= T) by (unfold T; destruct (s =? chr "."); lia).
    assert (Hs : s = chr "." /\ r + T - r = D \/ s = chr "-" /\ r + T - r = H).
    { inversion Hf as [|? ? [-> | ->] _]; [left|right]; split; auto;
        unfold T; cbn; lia. }
    pose proof (Hpos 0%nat ltac:(cbn; lia)) as HJ. cbn in HJ.
    destruct (pulse_on d r T SP LD0 MT0 ST J P Hr Hv HT Hq)
      as (d1 & E1 & Hr1 & Hv1).
    destruct (pulse_off d1 (r + T) r D ST J P s Hr1 Hv1 ltac:(lia) HJ Hs)
      as (d2 & E2 & Hr2 & Hv2).
    destruct (IH s2 d2 (r + T + D) false (r + T) r (r + T)
                (snd (tree_move (P, J) s)) (fst (tree_move (P, J) s))
                Hr2 Hv2) as (d3 & f & MT & E3 & Hr3 & Hv3 & Hf3).
    { intros x Hx. split; apply andb_false_iff; left.
      - apply Z.leb_gt. lia.
      - apply Z.ltb_ge. lia. }
    { rewrite tree_move_snd.
      assert (Z.quot J 2 <= J) by (apply Z.quot_le_upper_bound; lia). lia. }
    { intros k Hk. rewrite <- surjective_pairing.
      exact (Hpos (S k) ltac:(cbn [List.length] in *; lia)). }
    { inversion Hf; assumption. }
    { rewrite <- surjective_pairing. exact Hc. }
    exists d3, f, MT.
    change (canonical (s :: s2 :: rest) D H)
      with ((true, T) :: (false, D) :: canonical (s2 :: rest) D H).
    cbn [expand].
    split; [|split; [exact Hr3|split; [exact Hv3|]]].
    + rewrite listens_app, E1, repeat_length.
      rewrite listens_app.
      replace (r + Z.of_nat (Z.to_nat T)) with (r + T) by lia.
      rewrite E2, repeat_length.
      replace (r + T + Z.of_nat (Z.to_nat D)) with (r + T + D) by lia.
      rewrite <- surjective_pairing in E3.
      cbn [fold_left]. rewrite E3. reflexivity.
    + rewrite !length_app, !repeat_length. lia.
Qed.

(** The pulses of a character from the current one on, and one more
    tick at any level: the letter is heard, and nothing else. *)
Lemma hear_rest (rest : list char) :
  forall (s : char) (d : t) (r : Z) (SP : bool) (LD0 MT0 ST J P : Z)
         (p : bool),
    rigged d D H W -> views d false false true SP LD0 MT0 ST J P ->
    calm D W r ST J SP -> J <= Z.quot (morseTreetop + 1) 2 ->
    (forall k, (k < List.length (s :: rest))%nat ->
               0 < snd (fold_left tree_move (firstn k (s :: rest)) (P, J))) ->
    Forall (fun c => c = chr "." \/ c = chr "-") (s :: rest) ->
    table_char (fst (fold_left tree_move (s :: rest) (P, J))) <> 0 ->
    exists d',
      listens d r 1 (expand (canonical (s :: rest) D H) ++ [p])
      = (d', [table_char (fst (fold_left tree_move (s :: rest) (P, J)))]).
Proof.
  intros s d r SP LD0 MT0 ST J P p Hr Hv Hq HJ32 Hpos Hf Hc.
  destruct (hear_pulses rest s d r SP LD0 MT0 ST J P Hr Hv Hq HJ32 Hpos Hf Hc)
    as (d1 & f & MT & E1 & Hr1 & Hv1 & Hf1).
  assert (E2 : exists d2,
             Rig.listen d1 (f + H) p = (d2, [])).
  { destruct p.
    - destruct (tick_high_debounce d1 (f + H) false false f MT f _ _
                  Hr1 Hv1 ltac:(lia)) as (d2 & E2 & _); [| |eauto].
      + apply andb_false_iff. right. apply Z.ltb_irrefl.
      + apply andb_false_iff. left. apply Z.ltb_ge. lia.
    - destruct (tick_rest d1 (f + H) false f MT Hr1 Hv1) as (d2 & E2 & _).
      replace (Z.quot (W * 2) 3 <? f + H - f) with false in E2
        by (symmetry; apply Z.ltb_ge; lia).
      eauto. }
  destruct E2 as (d2 & E2). exists d2.
  rewrite listens_app, E1, <- Hf1. cbn [listens]. rewrite E2. reflexivity.
Qed.

Lemma walk_jumper (l : list char) :
  forall p j,
    snd (fold_left tree_move l (p, j))
    = Nat.iter (List.length l) (fun j => Z.quot j 2) j.
Proof.
  induction l as [|s l IH]; intros p j; [reflexivity|].
  cbn [fold_left List.length].
  rewrite (surjective_pairing (tree_move (p, j) s)), IH, tree_move_snd.
  symmetry.
  exact (Nat.iter_succ_r (List.length l) Z (fun j => Z.quot j 2) j).
Qed.

Lemma walk_range (l : list char) :
  forall p j, 0 <= j ->
    Z.abs (fst (fold_left tree_move l (p, j)) - p) <= Z.max 0 (2 * j - 1).
Proof.
  induction l as [|s l IH]; intros p j Hj; [cbn; lia|].
  cbn [fold_left].
  rewrite (surjective_pairing (tree_move (p, j) s)), tree_move_snd.
  assert (Hq : 0 <= Z.quot j 2) by (apply Z.quot_pos; lia).
  assert (Hm : 2 * Z.quot j 2 <= j) by (apply Z.mul_quot_le; lia).
  specialize (IH (fst (tree_move (p, j) s)) (Z.quot j 2) Hq).
  assert (Hs : Z.abs (fst (tree_move (p, j) s) - p) = j).
  { unfold tree_move. destruct (s =? chr "."); cbn [fst snd]; lia. }
  assert (j = 0 \/ 1 <= j) as [-> | Hj1] by lia.
  - change (Z.quot 0 2) with 0 in *. lia.
  - lia.
Qed.

End Hearing.

Section Pair.

Import morseDecoder.

Lemma hears_keying (d : t) (sigs : list char) (now : Z) (p : bool)
        (D H W LD MT ST : Z) :
  rigged d D H W ->
  views d false false true true LD MT ST
        (Z.quot (morseTreetop + 1) 2) morseTreetop ->
  22 <= D -> 2 * D + 2 <= H -> H <= Z.quot (W * 2) 3 ->
  sigs <> [] -> (List.length sigs <= 6)%nat ->
  Forall (fun c => c = chr "." \/ c = chr "-") sigs ->
  exists d',
    listens d now 1 (expand (canonical sigs D H) ++ [p])
    = (d', [table_char (fst (walk sigs))]).
Proof.
  intros Hr Hv HD HH HW Hne Hlen Hf.
  destruct sigs as [|s rest]; [contradiction Hne; reflexivity|].
  unfold walk.
  apply (hear_rest D H W HD HH HW rest s d now true LD MT ST _ _ p Hr Hv).
  - intros x Hx. split.
    + apply andb_false_iff. right. apply Z.ltb_irrefl.
    + apply andb_false_iff. right. reflexivity.
  - lia.
  - intros k Hk. rewrite walk_jumper.
    assert (Hk' : (List.length (firstn k (s :: rest)) <= 5)%nat)
      by (rewrite length_firstn; lia).
    revert Hk'. generalize (List.length (firstn k (s :: rest))). intros n Hn.
    do 6 (destruct n as [|n]; [vm_compute; reflexivity|]). lia.
  - exact Hf.
  - apply table_char_not_nul.
    pose proof (walk_range (s :: rest) morseTreetop
                  (Z.quot (morseTreetop + 1) 2) ltac:(vm_compute; discriminate))
      as Hw.
    change (Z.max 0 (2 * Z.quot (morseTreetop + 1) 2 - 1)) with 63 in Hw.
    unfold morseTreetop in *. lia.
Qed.

(** X11.  The decoder hears the keying of a character: a digital,
    active-high decoder at rest (signal state low, last pulse taken, tree
    at its top, space of the pause written, mailbox empty), with a dot
    time of at least 22 ms, a dash time of at least two dot times plus 2
    ms and at most two thirds of the word space, is run every millisecond
    on the levels of one to six dots and dashes in the 1:3 timing (a dash
    time of silence after the last), and on one more level.  Then the loop
    reads exactly one character from it: the one that the table holds at
    the end of the walk of these signals. *)
Theorem decoder_hears_keying (d : t) (sigs : list char) (now : Z) (p : bool)
        (D H W LD MT ST : Z) :
  rigged d D H W ->
  views d false false true true LD MT ST
        (Z.quot (morseTreetop + 1) 2) morseTreetop ->
  22 <= D -> 2 * D + 2 <= H -> H <= Z.quot (W * 2) 3 ->
  sigs <> [] -> (List.length sigs <= 6)%nat ->
  Forall (fun c => c = chr "." \/ c = chr "-") sigs ->
  exists d',
    listens d now 1 (expand (canonical sigs D H) ++ [p])
    = (d', [table_char (fst (walk sigs))]).
Proof. exact (hears_keying d sigs now p D H W LD MT ST). Qed.

Lemma decoder_hears_keying_witness :
  exists d',
    listens (morseDecoder.setspeed (morseDecoder.new 4 false false) 20) 0 1
      (expand (canonical [chr "."; chr "-"] 60 180) ++ [false])
    = (d', [chr "A"]).
Proof.
  refine (decoder_hears_keying
            (morseDecoder.setspeed (morseDecoder.new 4 false false) 20)
            [chr "."; chr "-"] 0 false 60 180 420 0 0 0 _ _ _ _ _ _ _ _).
  - repeat split.
  - repeat split.
  - lia.
  - lia.
  - vm_compute. discriminate.
  - discriminate.
  - cbn. lia.
  - constructor; [left; reflexivity|].
    constructor; [right; reflexivity|constructor].
Defined.

End Pair.

(** ** Round trip of a message *)
Section Silence.

Import morseDecoder.

Variables (D H W : Z).

Lemma hear_quiet (n : nat) (d : t) (now f MT : Z) :
  rigged d D H W ->
  views d false false true true f MT f (Z.quot (morseTreetop + 1) 2)
        morseTreetop ->
  exists d',
    listens d now 1 (repeat false n) = (d', [])
    /\ rigged d' D H W
    /\ views d' false false true true f MT f (Z.quot (morseTreetop + 1) 2)
         morseTreetop.
Proof.
  intros Hr Hv.
  destruct (listens_repeat
              (fun _ d0 =>
                 rigged d0 D H W
                 /\ views d0 false false true true f MT f
                      (Z.quot (morseTreetop + 1) 2) morseTreetop)
              false n now d) as (d' & E & Hr' & Hv'); [auto| |eauto].
  intros x d0 _ (Hr0 & Hv0).
  destruct (tick_rest D H W d0 x true f MT Hr0 Hv0) as (d1 & E1 & Hr1 & Hv1).
  rewrite andb_false_r in E1. exists d1. auto.
Qed.

Lemma hear_gap (n : nat) (d : t) (now f MT : Z) :
  rigged d D H W ->
  views d false false true false f MT f (Z.quot (morseTreetop + 1) 2)
        morseTreetop ->
  now <= f + Z.quot (W * 2) 3 + 1 < now + Z.of_nat n ->
  exists d',
    listens d now 1 (repeat false n) = (d', [chr " "])
    /\ rigged d' D H W
    /\ views d' false false true true f MT f (Z.quot (morseTreetop + 1) 2)
         morseTreetop.
Proof.
  intros Hr Hv Hn.
  set (x := f + Z.quot (W * 2) 3 + 1) in *.
  replace n with (Z.to_nat (x - now) + S (Z.to_nat (now + Z.of_nat n - x - 1)))%nat
    by lia.
  rewrite repeat_app. cbn [repeat].
  destruct (listens_repeat
              (fun _ d0 =>
                 rigged d0 D H W
                 /\ views d0 false false true false f MT f
                      (Z.quot (morseTreetop + 1) 2) morseTreetop)
              false (Z.to_nat (x - now)) now d) as (d1 & E1 & Hr1 & Hv1);
    [auto| |].
  { intros y d0 Hy (Hr0 & Hv0).
    destruct (tick_rest D H W d0 y false f MT Hr0 Hv0) as (d1 & E1 & Hr1 & Hv1).
    replace (Z.quot (W * 2) 3 <? y - f) with false in E1, Hv1
      by (symmetry; apply Z.ltb_ge; lia).
    exists d1. auto. }
  destruct (tick_rest D H W d1 x false f MT Hr1 Hv1) as (d2 & E2 & Hr2 & Hv2).
  replace (Z.quot (W * 2) 3 <? x - f) with true in E2, Hv2
    by (symmetry; apply Z.ltb_lt; lia).
  cbn [andb orb Bool.eqb] in E2, Hv2.
  destruct (hear_quiet (Z.to_nat (now + Z.of_nat n - x - 1)) d2 (x + 1) f MT
              Hr2 Hv2) as (d3 & E3 & Hr3 & Hv3).
  exists d3. rewrite listens_app, E1, repeat_length.
  replace (now + Z.of_nat (Z.to_nat (x - now))) with x by lia.
  cbn [listens]. rewrite E2, E3. auto.
Qed.

End Silence.

Section Message.

Lemma runs_positive (l : list bool) : Forall (fun r => 0 < snd r) (runs l).
Proof.
  induction l as [|b l IH]; [constructor|].
  cbn [runs]. destruct (runs l) as [|[b' n] more].
  - repeat constructor.
  - inversion IH as [|? ? Hn Hm]; subst. cbn [snd] in Hn.
    destruct (Bool.eqb b b'); repeat constructor; cbn [snd]; try lia;
      assumption.
Qed.

Lemma expand_runs (l : list bool) : expand (runs l) = l.
Proof.
  induction l as [|b l IH]; [reflexivity|].
  pose proof (runs_positive l) as Hp.
  cbn [runs]. destruct (runs l) as [|[b' n] more].
  - cbn [expand] in IH. subst l. reflexivity.
  - inversion Hp as [|? ? Hn _]; subst. cbn [snd] in Hn. clear Hp.
    destruct (Bool.eqb_spec b b') as [->|Hne].
    + cbn [expand].
      replace (Z.to_nat (n + 1)) with (S (Z.to_nat n)) by lia.
      reflexivity.
    + cbn [expand]. change (Z.to_nat 1) with 1%nat. reflexivity.
Qed.

Lemma canonical_length (sigs : list char) (D H : Z) :
  0 < D <= H ->
  Z.of_nat (List.length (expand (canonical sigs D H)))
  <= Z.of_nat (List.length sigs) * (2 * H).
Proof.
  intros HD. induction sigs as [|s rest IH]; [cbn; lia|].
  cbn [canonical expand List.length].
  rewrite !length_app, !repeat_length.
  assert (0 < (if s =? chr "." then D else H) <= H)
    by (destruct (s =? chr "."); lia).
  assert (0 < match rest with [] => H | _ :: _ => D end <= H)
    by (destruct rest; lia).
  lia.
Qed.

(** The loop while a character is keyed, until the encoder is available
    again: the decoder has listened to the levels of the keying and to
    the level after the call that ended the transmission. *)
Lemma transmit_keying (f : nat) :
  forall (e : morseEncoder.t) (pin : bool) (now dt : Z) (l : list bool)
         (e' : morseEncoder.t) (p' : bool)
         (d : morseDecoder.t) (h : list char) (msg : list char)
         (extra : nat),
    keying f e pin now dt = Some (l, (e', p')) ->
    Rig.transmit (List.length l + extra)
      (Rig.loop (Rig.mk e d pin h) now) msg (now + dt) dt
    = Rig.transmit extra
        (Rig.mk e' (fst (listens d now dt (l ++ [p']))) p'
           (h ++ snd (listens d now dt (l ++ [p']))))
        msg (now + dt + Z.of_nat (List.length l) * dt) dt.
Proof.
  induction f as [|f IH]; intros e pin now dt l e' p' d h msg extra Hk;
    [discriminate Hk|].
  cbn [keying] in Hk. unfold Rig.loop at 1.
  cbn [Rig.enc Rig.pin Rig.dec Rig.heard].
  destruct (morseEncoder.encode e now pin) as [e1 p1].
  destruct (Rig.listen d now p1) as [d1 o1] eqn:El.
  destruct (morseEncoder.available e1) eqn:Ea.
  - injection Hk as <- <- <-.
    cbn [Nat.add List.length app listens]. rewrite El.
    cbn [fst snd]. rewrite app_nil_r.
    replace (now + dt + Z.of_nat 0 * dt) with (now + dt) by lia.
    reflexivity.
  - destruct (keying f e1 p1 (now + dt) dt) as [[l' [e2 p2]]|] eqn:Ek;
      [|discriminate Hk].
    cbn [option_map fst snd] in Hk. injection Hk as <- <- <-.
    cbn [List.length Nat.add Rig.transmit Rig.enc]. rewrite Ea.
    rewrite (IH e1 p1 (now + dt) dt l' e2 p2 d1 (h ++ o1) msg extra Ek).
    cbn [app listens]. rewrite El.
    destruct (listens d1 (now + dt) dt (l' ++ [p2])) as [d2 o2].
    cbn [fst snd]. rewrite app_assoc.
    replace (now + dt + dt + Z.of_nat (List.length l') * dt)
      with (now + dt + Z.of_nat (S (List.length l')) * dt) by lia.
    reflexivity.
Qed.

Lemma transmit_write (f : nat) (r : Rig.t) (c : char) (msg : list char)
      (now dt : Z) :
  morseEncoder.available (Rig.enc r) = true ->
  Rig.transmit (S f) r (c :: msg) now dt
  = Rig.transmit f
      (Rig.loop (Rig.mk (morseEncoder.write (Rig.enc r) c) (Rig.dec r)
                   (Rig.pin r) (Rig.heard r)) now) msg (now + dt) dt.
Proof. intros H. cbn [Rig.transmit]. rewrite H. reflexivity. Qed.

Lemma transmit_end (f : nat) (r : Rig.t) (now dt : Z) :
  morseEncoder.available (Rig.enc r) = true ->
  Rig.transmit (S f) r [] now dt = Some (r, now).
Proof. intros H. cbn [Rig.transmit]. rewrite H. reflexivity. Qed.

Lemma ticks_1 (T : Z) : ticks 1 T = T.
Proof. unfold ticks. rewrite Z.div_1_r. lia. Qed.

Variables (D H W : Z).
Hypothesis HD : 22 <= D.
Hypothesis HH : 2 * D + 2 <= H.
Hypothesis HW : H + 21 <= Z.quot (W * 2) 3.

Lemma word_space_le : Z.quot (W * 2) 3 <= W.
Proof.
  assert (0 <= W).
  { destruct (Z.le_gt_cases 0 W) as [|Hn]; [assumption|].
    assert (Z.quot (W * 2) 3 <= 0); [|lia].
    apply Z.quot_le_upper_bound; lia. }
  apply Z.quot_le_upper_bound; lia.
Qed.

(** One character of the message. *)
Lemma transmit_character (r : Rig.t) (now : Z) (sp : bool) (c : char) :
  between r now sp D H W ->
  c <> chr "*" -> c <> 0 ->
  exists (n : nat) (r' : Rig.t),
    (forall msg extra,
        Rig.transmit (S n + extra) r (c :: msg) now 1
        = Rig.transmit extra r' msg (now + 1 + Z.of_nat n) 1)
    /\ Z.of_nat n <= 12 * H + W
    /\ between r' (now + 1 + Z.of_nat n) (negb (letter c)) D H W
    /\ Rig.heard r' = Rig.heard r ++ heard_of sp [c].
Proof.
  intros (Hi & Hp & Hr & f & MT & Hv & Hsp) H1 H0.
  destruct r as [e d pin h]. cbn [Rig.enc Rig.pin Rig.dec Rig.heard] in *.
  subst pin.
  pose proof Hi as (Hs & HeD & HeH & HeW).
  assert (Ha : morseEncoder.available e = true)
    by (unfold morseEncoder.available; rewrite Hs; reflexivity).
  pose proof word_space_le as Hwl.
  destruct (letter c) eqn:Elc.
  2:{ (* a space, or a character that the table does not hold *)
    assert (H2 : morseEncoder.capital c = chr " "
                 \/ ~ In (morseEncoder.capital c) morseTable).
    { unfold letter in Elc. apply andb_false_iff in Elc.
      destruct Elc as [Elc|Elc].
      - right. intros Hin.
        assert (Hx : existsb (Z.eqb (morseEncoder.capital c)) morseTable
                     = true).
        { apply existsb_exists. exists (morseEncoder.capital c).
          split; [exact Hin|apply Z.eqb_refl]. }
        rewrite Hx in Elc. discriminate Elc.
      - left. apply negb_false_iff, Z.eqb_eq in Elc. exact Elc. }
    destruct (keying_space e c now 1 false D H W Hi ltac:(lia) ltac:(lia)
                H1 H0 H2) as (e' & Hi' & Hk).
    rewrite Z.div_1_r in Hk.
    set (m := Z.to_nat (W - H)) in *.
    assert (Hd : exists d',
               listens d now 1 (repeat false (S m) ++ [false])
               = (d', if sp then [] else [chr " "])
               /\ rigged d' D H W
               /\ views d' false false true true f MT f
                    (Z.quot (morseTreetop + 1) 2) morseTreetop).
    { rewrite <- repeat_cons.
      change (false :: repeat false (S m)) with (repeat false (S (S m))).
      destruct sp.
      - apply hear_quiet; assumption.
      - destruct Hsp as [Hsp|Hsp]; [discriminate Hsp|].
        apply hear_gap; [assumption|assumption|]. unfold m. lia. }
    destruct Hd as (d' & Ed & Hr' & Hv').
    exists (S m), (Rig.mk e' d' false (h ++ if sp then [] else [chr " "])).
    split; [|split; [|split]].
    + intros msg extra.
      change (S (S m) + extra)%nat with (S (S m + extra)).
      rewrite transmit_write by exact Ha.
      cbn [Rig.enc Rig.pin Rig.dec Rig.heard].
      pose proof (transmit_keying _ _ _ _ _ _ _ _ d h msg extra (Hk 0%nat))
        as E.
      rewrite repeat_length in E. rewrite E, Ed. cbn [fst snd].
      f_equal. lia.
    + unfold m. lia.
    + unfold between. cbn [Rig.enc Rig.pin Rig.dec Rig.heard].
      split; [exact Hi'|]. split; [reflexivity|]. split; [exact Hr'|].
      exists f, MT. split; [exact Hv'|]. left. reflexivity.
    + cbn [Rig.heard heard_of]. rewrite Elc.
      rewrite app_nil_r. reflexivity. }
  - (* a letter *)
    assert (Hin : In (morseEncoder.capital c) morseTable).
    { unfold letter in Elc. apply andb_true_iff in Elc.
      destruct Elc as [Elc _]. apply existsb_exists in Elc.
      destruct Elc as (x & Hx & Ex). apply Z.eqb_eq in Ex.
      rewrite Ex. exact Hx. }
    assert (H2 : morseEncoder.capital c <> chr " ").
    { unfold letter in Elc. apply andb_true_iff in Elc.
      destruct Elc as [_ Elc]. apply negb_true_iff, Z.eqb_neq in Elc.
      exact Elc. }
    pose proof (first_call e c now false Hs ltac:(lia) ltac:(lia) H1 Hin H2)
      as F. cbv zeta in F.
    destruct F as (_ & _ & _ & _ & _ & _ & F7 & F8 & F9 & _).
    destruct (keying_canonical e c now 1 false Hs ltac:(lia) ltac:(lia)
                ltac:(lia) H1 Hin H2) as (Hc & l & e' & Hruns & Hi' & Hk).
    rewrite HeD, HeH, HeW in Hi'.
    rewrite HeD, HeH, !ticks_1 in Hruns.
    set (sigs := planned (fst (morseEncoder.encode (morseEncoder.write e c)
                                 now false))) in *.
    assert (Hl : l = expand (canonical sigs D H))
      by (rewrite <- Hruns; symmetry; apply expand_runs).
    assert (Hlen : Z.of_nat (List.length l) <= 12 * H).
    { rewrite Hl. pose proof (canonical_length sigs D H ltac:(lia)). nia. }
    destruct sigs as [|s rest] eqn:Esig; [cbn in F8; lia|].
    destruct (hear_pulses D H W HD HH ltac:(lia) rest s d now sp f MT f
                (Z.quot (morseTreetop + 1) 2) morseTreetop Hr Hv)
      as (d1 & f1 & MT1 & E1 & Hr1 & Hv1 & Hf1).
    { intros x Hx. split.
      - apply andb_false_iff. right. apply Z.ltb_irrefl.
      - destruct Hsp as [-> | ->].
        + apply andb_false_iff. right. reflexivity.
        + apply andb_false_iff. left. apply Z.ltb_ge. lia. }
    { lia. }
    { intros k Hk'. rewrite walk_jumper.
      assert (Hk'' : (List.length (firstn k (s :: rest)) <= 5)%nat)
        by (rewrite length_firstn; lia).
      revert Hk''. generalize (List.length (firstn k (s :: rest))).
      intros n Hn.
      do 6 (destruct n as [|n]; [vm_compute; reflexivity|]). lia. }
    { exact F9. }
    { apply table_char_not_nul.
      pose proof (walk_range (s :: rest) morseTreetop
                    (Z.quot (morseTreetop + 1) 2)
                    ltac:(vm_compute; discriminate)) as Hw.
      change (Z.max 0 (2 * Z.quot (morseTreetop + 1) 2 - 1)) with 63 in Hw.
      unfold morseTreetop in *. lia. }
    rewrite <- Hl in E1, Hf1.
    change (fold_left tree_move (s :: rest)
              (morseTreetop, Z.quot (morseTreetop + 1) 2))
      with (walk (s :: rest)) in E1.
    rewrite Hc in E1.
    destruct (tick_rest D H W d1 (f1 + H) false f1 MT1 Hr1 Hv1)
      as (d2 & E2 & Hr2 & Hv2).
    replace (Z.quot (W * 2) 3 <? f1 + H - f1) with false in E2, Hv2
      by (symmetry; apply Z.ltb_ge; lia).
    cbn [andb orb] in E2, Hv2.
    exists (List.length l), (Rig.mk e' d2 false (h ++ [morseEncoder.capital c])).
    split; [|split; [|split]].
    + intros msg extra.
      change (S (List.length l) + extra)%nat
        with (S (List.length l + extra)).
      rewrite transmit_write by exact Ha.
      cbn [Rig.enc Rig.pin Rig.dec Rig.heard].
      rewrite (transmit_keying _ _ _ _ _ _ _ _ d h msg extra
                 (Hk (S (List.length l)) ltac:(lia))).
      rewrite listens_app, E1, <- Hf1. cbn [listens]. rewrite E2.
      cbn [fst snd]. rewrite app_nil_r. f_equal. lia.
    + lia.
    + unfold between. cbn [Rig.enc Rig.pin Rig.dec Rig.heard].
      split; [exact Hi'|]. split; [reflexivity|]. split; [exact Hr2|].
      exists f1, MT1. split; [exact Hv2|]. right. lia.
    + cbn [Rig.heard heard_of]. rewrite Elc. reflexivity.
Qed.

Lemma transmit_message (msg : list char) :
  forall (r : Rig.t) (now : Z) (sp : bool),
    between r now sp D H W ->
    Forall (fun c => c <> chr "*" /\ c <> 0) msg ->
    exists (n : nat) (r' : Rig.t) (t' : Z),
      (forall extra, Rig.transmit (S n + extra) r msg now 1 = Some (r', t'))
      /\ Z.of_nat n <= Z.of_nat (List.length msg) * (12 * H + W + 1)
      /\ Rig.heard r' = Rig.heard r ++ heard_of sp msg.
Proof.
  induction msg as [|c msg IH]; intros r now sp Hb Hf.
  - exists 0%nat, r, now. split; [|split].
    + intros extra. apply transmit_end.
      destruct Hb as ((Hs & _) & _).
      unfold morseEncoder.available. rewrite Hs. reflexivity.
    + cbn. lia.
    + cbn [heard_of]. rewrite app_nil_r. reflexivity.
  - inversion Hf as [|? ? [H1 H0] Hf']; subst.
    destruct (transmit_character r now sp c Hb H1 H0)
      as (n1 & r1 & E1 & Hn1 & Hb1 & Hh1).
    destruct (IH r1 _ _ Hb1 Hf') as (n2 & r2 & t2 & E2 & Hn2 & Hh2).
    exists (S n1 + n2)%nat, r2, t2. split; [|split].
    + intros extra.
      replace (S (S n1 + n2) + extra)%nat with (S n1 + (S n2 + extra))%nat
        by lia.
      rewrite E1. apply E2.
    + cbn [List.length]. lia.
    + rewrite Hh2, Hh1, <- app_assoc. f_equal.
      cbn [heard_of].
      destruct (letter c); [|destruct sp]; cbn [app negb];
        rewrite ?app_nil_r; reflexivity.
Qed.

End Message.

Lemma speed_facts (w : Z) :
  1 <= w <= 54 ->
  (w <=? 0) = false
  /\ 22 <= Z.quot 1200 w
  /\ 2 * Z.quot 1200 w + 2 <= Z.quot (3 * 1200) w
  /\ Z.quot (3 * 1200) w + 21 <= Z.quot (Z.quot (7 * 1200) w * 2) 3
  /\ 12 * Z.quot (3 * 1200) w + Z.quot (7 * 1200) w + 1 <= 51601.
Proof.
  intros Hw.
  assert (Hin : In w (map Z.of_nat (seq 1 54))) by (apply range_cases; lia).
  clear Hw. vm_compute in Hin.
  repeat (destruct Hin as [<-|Hin];
          [vm_compute; repeat split; discriminate|]).
  destruct Hin.
Qed.

(** A fresh rig is between two characters, the space written. *)
Lemma fresh_between (w : Z) :
  (w <=? 0) = false ->
  between (Rig.fresh w) 0 true
    (Z.quot 1200 w) (Z.quot (3 * 1200) w) (Z.quot (7 * 1200) w).
Proof.
  intros Hw0. unfold between, Rig.fresh.
  cbn [Rig.enc Rig.pin Rig.dec Rig.heard].
  split; [|split; [reflexivity|split]].
  - unfold idle, morseEncoder.setspeed. rewrite Hw0. repeat split.
  - unfold morseDecoder.setspeed. rewrite Hw0. repeat split.
  - exists 0, 0. split; [|left; reflexivity].
    unfold morseDecoder.setspeed. rewrite Hw0. repeat split.
Qed.

Lemma roundtrip_text (w : Z) (msg : list char) :
  1 <= w <= 54 ->
  Forall (fun c => c <> chr "*" /\ c <> 0) msg ->
  exists (n : nat) (r : Rig.t) (t : Z),
    (forall extra,
        Rig.transmit (S n + extra) (Rig.fresh w) msg 0 1 = Some (r, t))
    /\ Z.of_nat n <= Z.of_nat (List.length msg) * 51601
    /\ Rig.heard r = heard_of true msg.
Proof.
  intros Hw Hf.
  destruct (speed_facts w Hw) as (Hw0 & HD & HH & HW & Hn).
  destruct (transmit_message _ _ _ HD HH HW msg (Rig.fresh w) 0 true
              (fresh_between w Hw0) Hf) as (n & r & t & E & Hle & Hh).
  exists n, r, t. split; [exact E|]. split; [nia|exact Hh].
Qed.

Lemma fresh_floor (w : Z) : w <= 0 -> Rig.fresh w = Rig.fresh 1.
Proof.
  intros Hw. unfold Rig.fresh, morseEncoder.setspeed, morseDecoder.setspeed.
  replace (w <=? 0) with true by (symmetry; apply Z.leb_le; exact Hw).
  reflexivity.
Qed.

(** A message of up to three characters ends within the iterations that
    [Rig.roundtrip] allows, at every speed that the debounce lets through;
    [setspeed] takes a speed of zero or less as 1 wpm. *)
Lemma roundtrip_short (w : Z) (msg : list char) :
  w <= 54 ->
  Forall (fun c => c <> chr "*" /\ c <> 0) msg ->
  (List.length msg <= 3)%nat ->
  Rig.roundtrip w 1 msg = Some (heard_of true msg).
Proof.
  intros Hw Hf Hlen.
  assert (Hp : forall v, 1 <= v <= 54 ->
                 Rig.roundtrip v 1 msg = Some (heard_of true msg)).
  { intros v Hv.
    destruct (roundtrip_text v msg Hv Hf) as (n & r & t & E & Hn & Hh).
    unfold Rig.roundtrip.
    replace (Z.to_nat 200000)
      with (S n + Z.to_nat (199999 - Z.of_nat n))%nat by lia.
    rewrite E. cbn [option_map fst]. rewrite Hh. reflexivity. }
  destruct (Z.le_gt_cases w 0) as [H0|H0].
  - assert (E : Rig.roundtrip w 1 msg = Rig.roundtrip 1 1 msg)
      by (unfold Rig.roundtrip; rewrite (fresh_floor w H0); reflexivity).
    rewrite E. apply Hp. lia.
  - apply Hp. lia.
Qed.

Lemma letter_of_table (c : char) :
  In (morseEncoder.capital c) morseTable ->
  morseEncoder.capital c <> chr " " ->
  letter c = true.
Proof.
  intros Hin H2. unfold letter. apply andb_true_iff. split.
  - apply existsb_exists. exists (morseEncoder.capital c).
    split; [exact Hin|apply Z.eqb_refl].
  - apply negb_true_iff, Z.eqb_neq. exact H2.
Qed.

Lemma roundtrip_speed (w : Z) (c : char) :
  1 <= w <= 54 ->
  c <> chr "*" ->
  In (morseEncoder.capital c) morseTable ->
  morseEncoder.capital c <> chr " " ->
  Rig.roundtrip w 1 [c] = Some [morseEncoder.capital c].
Proof.
  intros Hw H1 Hin H2.
  assert (H0 : c <> 0).
  { intros ->.
    pose proof (proj1 (forallb_forall _ _) table_no_nul_check _ Hin) as H.
    discriminate H. }
  rewrite (roundtrip_short w [c]);
    [|lia|repeat constructor; assumption|cbn; lia].
  cbn [heard_of]. rewrite (letter_of_table c Hin H2). reflexivity.
Qed.

(** X12.  Round trip of a message at every speed from 1 to 54 words per
    minute: a fresh encoder and a fresh digital decoder are set to the
    same speed, the pin of the encoder drives the decoder, the loop runs
    once per millisecond and writes the next character whenever the
    encoder is available.  For every message without the asterisk and the
    NUL character the loop comes to the end of the message, and the
    decoder has then yielded the capital of every letter of the message
    (a character whose capital the table holds, the space apart), in
    order, and one space for every run of other characters that follows a
    letter; other characters at the start of the message yield nothing. *)
Theorem roundtrip_message (w : Z) (msg : list char) :
  1 <= w <= 54 ->
  Forall (fun c => c <> chr "*" /\ c <> 0) msg ->
  exists (n : nat) (r : Rig.t) (t : Z),
    (forall fuel, (n <= fuel)%nat ->
                  Rig.transmit fuel (Rig.fresh w) msg 0 1 = Some (r, t))
    /\ Rig.heard r = heard_of true msg.
Proof.
  intros Hw Hf.
  destruct (roundtrip_text w msg Hw Hf) as (n & r & t & E & _ & Hh).
  exists (S n), r, t. split; [|exact Hh].
  intros fuel Hfuel.
  replace fuel with (S n + (fuel - S n))%nat by lia. apply E.
Qed.

Lemma roundtrip_message_witness :
  exists (n : nat) (r : Rig.t) (t : Z),
    (forall fuel, (n <= fuel)%nat ->
                  Rig.transmit fuel (Rig.fresh 20) (chars " cq  de{k") 0 1
                  = Some (r, t))
    /\ Rig.heard r = chars "CQ DE K".
Proof.
  refine (roundtrip_message 20 (chars " cq  de{k") _ _).
  - lia.
  - repeat constructor; discriminate.
Defined.


(** ** The preferences of the trainer *)
Section Preferences.

Import Trainer.

Ltac limits :=
  repeat match goal with
         | |- context [at_index ?l ?k] =>
             let x := eval vm_compute in (at_index l k) in
             change (at_index l k) with x
         end.

Lemma within_limits_fields (a b c d e f g h : Z) :
  within_limits (Prefs a b c d e f g h) <->
  (0 <= a <= 170 /\ 1 <= b <= 15 /\ 0 <= c <= 30 /\ 10 <= d <= 30
   /\ 1 <= e <= 6 /\ 1 <= f <= 40 /\ 0 <= g <= 39 /\ 0 <= h <= 1).
Proof.
  unfold within_limits, NUM_PREFS. split.
  - intros H.
    pose proof (H 0 ltac:(lia)). pose proof (H 1 ltac:(lia)).
    pose proof (H 2 ltac:(lia)). pose proof (H 3 ltac:(lia)).
    pose proof (H 4 ltac:(lia)). pose proof (H 5 ltac:(lia)).
    pose proof (H 6 ltac:(lia)). pose proof (H 7 ltac:(lia)).
    clear H.
    repeat match goal with
           | H : context [at_index ?l ?k] |- _ =>
               let x := eval vm_compute in (at_index l k) in
               change (at_index l k) with x in H
           end.
    cbn [get] in *. lia.
  - intros H i Hi.
    assert (Hc : i = 0 \/ i = 1 \/ i = 2 \/ i = 3 \/ i = 4 \/ i = 5 \/ i = 6
                 \/ i = 7) by lia.
    destruct Hc as [E|[E|[E|[E|[E|[E|[E|E]]]]]]]; subst i; limits;
      cbn [get]; lia.
Qed.

Lemma index_cases (i : Z) :
  0 <= i <= 7 ->
  i = 0 \/ i = 1 \/ i = 2 \/ i = 3 \/ i = 4 \/ i = 5 \/ i = 6 \/ i = 7.
Proof. lia. Qed.

Lemma get_put (p : table) (i k v : Z) :
  0 <= i <= 7 -> get (put p i v) k = if k =? i then v else get p k.
Proof.
  intros Hi. destruct p.
  destruct (Z.eqb_spec k i) as [E|E].
  - subst k. destruct (index_cases i Hi) as [E|[E|[E|[E|[E|[E|[E|E]]]]]]];
      subst i; reflexivity.
  - destruct (index_cases i Hi) as [H|[H|[H|[H|[H|[H|[H|H]]]]]]]; subst i;
      (destruct k as [|q|q]; [try reflexivity; try lia| |reflexivity]);
      do 3 (destruct q as [q|q|]; try reflexivity; try lia).
Qed.

Lemma wrapped_range (i val : Z) :
  0 <= i <= 7 -> at_index lo_lim i <= wrapped i val <= at_index hi_lim i.
Proof.
  intros Hi. unfold wrapped.
  destruct (index_cases i Hi) as [H|[H|[H|[H|[H|[H|[H|H]]]]]]]; subst i;
    limits;
    repeat match goal with
           | |- context [?a <? ?b] => destruct (Z.ltb_spec a b)
           end; lia.
Qed.

(** The index that [prefs_set] uses, the value it makes, and the table
    it leaves. *)
Lemma prefs_set_spec (p : table) (pref val : Z) :
  0 <= pref <= 255 ->
  let i := Z.min pref 7 in
  let v := if i =? KOCH_SKIP
           then (if get p KOCH_NUM <=? wrapped i val
                 then to_byte (get p KOCH_NUM - 1) else wrapped i val)
           else wrapped i val in
  prefs_set p pref val = (v, put p i v).
Proof.
  intros Hp. cbv zeta.
  assert (Hi : to_byte (constrain pref 0 (NUM_PREFS - 1)) = Z.min pref 7).
  { unfold constrain, NUM_PREFS, to_byte.
    destruct (Z.ltb_spec pref 0); [lia|].
    destruct (Z.ltb_spec (8 - 1) pref).
    - rewrite Z.min_r by lia. reflexivity.
    - rewrite Z.min_l by lia. apply Z.mod_small. lia. }
  unfold prefs_set. rewrite Hi.
  set (i := Z.min pref 7).
  assert (Hr : 0 <= i <= 7) by (unfold i; lia).
  pose proof (wrapped_range i val Hr) as Hw.
  assert (Hv : (if (if at_index hi_lim i <? val then at_index lo_lim i else val)
                   <? at_index lo_lim i
                then at_index hi_lim i
                else (if at_index hi_lim i <? val then at_index lo_lim i
                      else val)) = wrapped i val).
  { unfold wrapped.
    destruct (Z.ltb_spec (at_index hi_lim i) val);
      [|reflexivity].
    replace (at_index lo_lim i <? at_index lo_lim i) with false
      by (symmetry; apply Z.ltb_irrefl).
    destruct (Z.ltb_spec val (at_index lo_lim i)); [lia|reflexivity]. }
  rewrite Hv.
  assert (Hb : to_byte (constrain (wrapped i val) (at_index lo_lim i)
                          (at_index hi_lim i)) = wrapped i val).
  { unfold constrain.
    replace (wrapped i val <? at_index lo_lim i) with false
      by (symmetry; apply Z.ltb_ge; lia).
    replace (at_index hi_lim i <? wrapped i val) with false
      by (symmetry; apply Z.ltb_ge; lia).
    apply Z.mod_small.
    assert (0 <= at_index lo_lim i /\ at_index hi_lim i <= 170).
    { destruct (index_cases i Hr) as [H|[H|[H|[H|[H|[H|[H|H]]]]]]];
        rewrite H; limits; lia. }
    lia. }
  rewrite Hb.
  destruct (index_cases i Hr) as [H|[H|[H|[H|[H|[H|[H|H]]]]]]]; rewrite H;
    reflexivity.
Qed.

Lemma to_byte_small (z : Z) : 0 <= z <= 255 -> to_byte z = z.
Proof. intros H. apply Z.mod_small. lia. Qed.

Lemma wrapped_within (i val : Z) :
  at_index lo_lim i <= val <= at_index hi_lim i -> wrapped i val = val.
Proof.
  intros H. unfold wrapped.
  replace (at_index hi_lim i <? val) with false
    by (symmetry; apply Z.ltb_ge; lia).
  replace (val <? at_index lo_lim i) with false
    by (symmetry; apply Z.ltb_ge; lia).
  reflexivity.
Qed.

Lemma prefs_set_limits (p : table) (pref val : Z) :
  0 <= pref <= 255 ->
  within_limits p ->
  let i := Z.min pref 7 in
  let r := prefs_set p pref val in
  within_limits (snd r)
  /\ get (snd r) i = fst r
  /\ (forall k, k <> i -> get (snd r) k = get p k)
  /\ at_index lo_lim i <= fst r <= at_index hi_lim i
  /\ (i <> KOCH_SKIP -> fst r = wrapped i val)
  /\ (i = KOCH_SKIP -> fst r < get p KOCH_NUM).
Proof.
  intros Hp Hl. cbv zeta. rewrite (prefs_set_spec p pref val Hp). cbv zeta.
  set (i := Z.min pref 7).
  assert (Hi : 0 <= i <= 7) by (unfold i; lia).
  pose proof (wrapped_range i val Hi) as Hw.
  set (v := if i =? KOCH_SKIP
            then (if get p KOCH_NUM <=? wrapped i val
                  then to_byte (get p KOCH_NUM - 1) else wrapped i val)
            else wrapped i val).
  assert (Hv : at_index lo_lim i <= v <= at_index hi_lim i
               /\ (i <> KOCH_SKIP -> v = wrapped i val)
               /\ (i = KOCH_SKIP -> v < get p KOCH_NUM)).
  { unfold v. destruct (Z.eqb_spec i KOCH_SKIP) as [E|E].
    - pose proof (Hl KOCH_NUM ltac:(unfold KOCH_NUM, NUM_PREFS; lia)) as H5.
      rewrite E in *. unfold KOCH_SKIP, KOCH_NUM in *.
      change (at_index lo_lim 5) with 1 in H5.
      change (at_index hi_lim 5) with 40 in H5.
      change (at_index lo_lim 6) with 0 in *.
      change (at_index hi_lim 6) with 39 in *.
      destruct (Z.leb_spec (get p 5) (wrapped 6 val)).
      + rewrite to_byte_small by lia.
        split; [lia|]. split; [intros F; now elim F|intros _; lia].
      + split; [lia|]. split; [intros F; now elim F|intros _; lia].
    - split; [lia|]. split; [intros _; reflexivity|].
      intros E'. contradiction. }
  cbn [fst snd]. destruct Hv as (Hv1 & Hv2 & Hv3).
  split; [|split; [|split; [|split; [exact Hv1|split; assumption]]]].
  - intros k Hk. rewrite get_put by exact Hi.
    destruct (Z.eqb_spec k i) as [->|_]; [exact Hv1|apply Hl, Hk].
  - rewrite get_put by exact Hi. rewrite Z.eqb_refl. reflexivity.
  - intros k Hk. rewrite get_put by exact Hi.
    destruct (Z.eqb_spec k i); [contradiction|reflexivity].
Qed.

(** X13.  [prefs_set] keeps the table within its limits, whatever the
    index and the value: the index is brought into 0..7 (an index above 7
    lands on the output mode), the value above the upper limit of the
    preference becomes its lower limit and the value below the lower limit
    its upper limit (the menu wraps around), the number of characters to
    skip is kept below the number of Koch characters, and only the
    preference at that index is written, with the value returned. *)
Theorem prefs_set_keeps_limits (p : table) (pref val : Z) :
  0 <= pref <= 255 ->
  within_limits p ->
  let i := Z.min pref 7 in
  let r := prefs_set p pref val in
  within_limits (snd r)
  /\ get (snd r) i = fst r
  /\ (forall k, k <> i -> get (snd r) k = get p k)
  /\ at_index lo_lim i <= fst r <= at_index hi_lim i
  /\ (i <> KOCH_SKIP -> fst r = wrapped i val)
  /\ (i = KOCH_SKIP -> fst r < get p KOCH_NUM).
Proof. exact (prefs_set_limits p pref val). Qed.

Lemma prefs_set_keeps_limits_witness :
  fst (prefs_set (Prefs 170 1 0 30 5 5 0 1) KEY_SPEED 31) = 10.
Proof.
  refine (eq_trans (proj1 (proj2 (proj2 (proj2 (proj2
            (prefs_set_keeps_limits (Prefs 170 1 0 30 5 5 0 1) KEY_SPEED 31
               _ _))))) _) _).
  - unfold KEY_SPEED. lia.
  - apply within_limits_fields. lia.
  - discriminate.
  - reflexivity.
Defined.

(** The table that the loop over the EEPROM leaves. *)
Lemma restore_table (p : table) (ee : eeprom) :
  restore (Z.to_nat NUM_PREFS) 0 ee p
  = Prefs (wrapped 0 (ee 0)) (wrapped 1 (ee 1)) (wrapped 2 (ee 2))
          (wrapped 3 (ee 3)) (wrapped 4 (ee 4)) (wrapped 5 (ee 5))
          (if wrapped 5 (ee 5) <=? wrapped 6 (ee 6)
           then to_byte (wrapped 5 (ee 5) - 1) else wrapped 6 (ee 6))
          (wrapped 7 (ee 7)).
Proof.
  change (restore (Z.to_nat NUM_PREFS) 0 ee p) with
    (snd (prefs_set (snd (prefs_set (snd (prefs_set (snd (prefs_set
       (snd (prefs_set (snd (prefs_set (snd (prefs_set (snd (prefs_set p
          0 (ee 0))) 1 (ee 1))) 2 (ee 2))) 3 (ee 3))) 4 (ee 4)))
          5 (ee 5))) 6 (ee 6))) 7 (ee 7))).
  rewrite (prefs_set_spec p 0) by lia. cbv zeta. cbn [snd].
  rewrite (prefs_set_spec _ 1) by lia. cbv zeta. cbn [snd].
  rewrite (prefs_set_spec _ 2) by lia. cbv zeta. cbn [snd].
  rewrite (prefs_set_spec _ 3) by lia. cbv zeta. cbn [snd].
  rewrite (prefs_set_spec _ 4) by lia. cbv zeta. cbn [snd].
  rewrite (prefs_set_spec _ 5) by lia. cbv zeta. cbn [snd].
  rewrite (prefs_set_spec _ 6) by lia. cbv zeta. cbn [snd].
  rewrite (prefs_set_spec _ 7) by lia. cbv zeta. cbn [snd].
  destruct p. reflexivity.
Qed.

(** X14.  [prefs_init] leaves a table within its limits whatever the
    table held and whatever the EEPROM holds, with fewer characters to
    skip than Koch characters; when the EEPROM does not start with the
    saved mark 170 the table holds the defaults (group of 1, no delay, 25
    wpm, Koch set, 5 characters, none skipped, speaker). *)
Theorem prefs_init_limits (p : table) (ee : eeprom) :
  within_limits (prefs_init p ee)
  /\ get (prefs_init p ee) KOCH_SKIP < get (prefs_init p ee) KOCH_NUM
  /\ (if ee 0 =? 170 then get (prefs_init p ee) SAVED_FLG = 170
      else prefs_init p ee = Prefs 0 1 0 25 5 5 0 1).
Proof.
  unfold prefs_init. destruct (Z.eqb_spec (ee 0) 170) as [E|E].
  - rewrite restore_table.
    pose proof (wrapped_range 0 (ee 0) ltac:(lia)).
    pose proof (wrapped_range 1 (ee 1) ltac:(lia)).
    pose proof (wrapped_range 2 (ee 2) ltac:(lia)).
    pose proof (wrapped_range 3 (ee 3) ltac:(lia)).
    pose proof (wrapped_range 4 (ee 4) ltac:(lia)).
    pose proof (wrapped_range 5 (ee 5) ltac:(lia)).
    pose proof (wrapped_range 6 (ee 6) ltac:(lia)).
    pose proof (wrapped_range 7 (ee 7) ltac:(lia)).
    repeat match goal with
           | H : context [at_index ?l ?k] |- _ =>
               let x := eval vm_compute in (at_index l k) in
               change (at_index l k) with x in H
           end.
    assert (E0 : wrapped 0 (ee 0) = 170)
      by (rewrite E; reflexivity).
    split; [|split].
    + apply within_limits_fields.
      destruct (Z.leb_spec (wrapped 5 (ee 5)) (wrapped 6 (ee 6)));
        rewrite ?to_byte_small by lia; lia.
    + cbn [get KOCH_SKIP KOCH_NUM].
      destruct (Z.leb_spec (wrapped 5 (ee 5)) (wrapped 6 (ee 6)));
        rewrite ?to_byte_small by lia; lia.
    + exact E0.
  - match goal with
    | |- within_limits ?t /\ _ =>
        assert (Ed : t = Prefs 0 1 0 25 5 5 0 1) by (destruct p; reflexivity)
    end.
    rewrite Ed. split; [|split; [reflexivity|reflexivity]].
    apply within_limits_fields. lia.
Qed.

Lemma save_all (p : table) (ee : eeprom) (a : Z) :
  save (Z.to_nat NUM_PREFS) 0 p ee a
  = if (0 <=? a) && (a <? NUM_PREFS) then get p a else ee a.
Proof.
  change (save (Z.to_nat NUM_PREFS) 0 p ee) with
    (EEPROM_write (EEPROM_write (EEPROM_write (EEPROM_write (EEPROM_write
       (EEPROM_write (EEPROM_write (EEPROM_write ee 0 (get p 0)) 1 (get p 1))
          2 (get p 2)) 3 (get p 3)) 4 (get p 4)) 5 (get p 5)) 6 (get p 6))
       7 (get p 7)).
  unfold EEPROM_write, NUM_PREFS.
  repeat match goal with
         | |- context [a =? ?k] => destruct (Z.eqb_spec a k); [subst a; reflexivity|]
         end.
  destruct (Z.leb_spec 0 a); destruct (Z.ltb_spec a 8); cbn [andb];
    try reflexivity. lia.
Qed.

Lemma prefs_press_inv (m : menu) (buttons : Z) :
  within_limits (prefs m) -> 1 <= pref m <= 7 ->
  within_limits (prefs (fst (prefs_press m buttons)))
  /\ 1 <= pref (fst (prefs_press m buttons)) <= 7.
Proof.
  intros Hl Hp. unfold prefs_press.
  assert (Hc : forall tmp, 1 <= to_byte (constrain tmp 1 (NUM_PREFS - 1)) <= 7).
  { intros tmp. unfold constrain, NUM_PREFS.
    destruct (Z.ltb_spec tmp 1); [rewrite to_byte_small; lia|].
    destruct (Z.ltb_spec (8 - 1) tmp); rewrite to_byte_small; lia. }
  destruct (pressed buttons BUTTON_SELECT); [auto|].
  destruct (pressed buttons BUTTON_UP); [cbn; auto|].
  destruct (pressed buttons BUTTON_DOWN); [cbn; auto|].
  destruct (pressed buttons BUTTON_RIGHT).
  { pose proof (prefs_set_limits (prefs m) (pref m) (p_val m + 1)
                  ltac:(lia) Hl) as H. cbv zeta in H.
    destruct (prefs_set (prefs m) (pref m) (p_val m + 1)). cbn in *.
    split; [apply H|exact Hp]. }
  destruct (pressed buttons BUTTON_LEFT).
  { pose proof (prefs_set_limits (prefs m) (pref m) (p_val m - 1)
                  ltac:(lia) Hl) as H. cbv zeta in H.
    destruct (prefs_set (prefs m) (pref m) (p_val m - 1)). cbn in *.
    split; [apply H|exact Hp]. }
  auto.
Qed.

Lemma prefs_menu_inv (presses : list Z) (m m' : menu) :
  within_limits (prefs m) -> 1 <= pref m <= 7 ->
  prefs_menu m presses = Some m' ->
  within_limits (prefs m') /\ 1 <= pref m' <= 7.
Proof.
  revert m. induction presses as [|b rest IH]; intros m Hl Hp E;
    cbn [prefs_menu] in E; [discriminate|].
  destruct (prefs_press_inv m b Hl Hp) as [Hl' Hp'].
  destruct (prefs_press m b) as [m1 done]. cbn [fst] in Hl', Hp'.
  destruct done.
  - injection E as <-. auto.
  - apply (IH m1); assumption.
Qed.

(** X15.  Saving and restoring the preferences: when the menu of
    [set_prefs] is left with the select button, starting from a table
    within its limits, the table is still within its limits, its saved
    mark is 170, and the first eight bytes of the EEPROM hold the table
    (the other bytes are left alone); [prefs_init] then restores, over
    any table, the table that was saved, except that a number of
    characters to skip that is not below the number of Koch characters
    comes back as that number less one. *)
Theorem saved_prefs_restore (p p' : table) (ee ee' : eeprom)
        (presses : list Z) :
  within_limits p ->
  set_prefs p ee presses = Some (p', ee') ->
  within_limits p'
  /\ get p' SAVED_FLG = 170
  /\ (forall a, ee' a = if (0 <=? a) && (a <? NUM_PREFS) then get p' a
                        else ee a)
  /\ (forall q, prefs_init q ee'
                = put p' KOCH_SKIP
                    (if get p' KOCH_NUM <=? get p' KOCH_SKIP
                     then get p' KOCH_NUM - 1 else get p' KOCH_SKIP))
  /\ (get p' KOCH_SKIP < get p' KOCH_NUM ->
      forall q, prefs_init q ee' = p').
Proof.
  intros Hl E. unfold set_prefs in E.
  destruct (prefs_menu {| pref := 1; p_val := get p 1; prefs := p |} presses)
    as [m|] eqn:Em; [|discriminate].
  destruct (prefs_menu_inv presses {| pref := 1; p_val := get p 1; prefs := p |}
              m Hl ltac:(cbn; lia) Em) as [Hm _].
  pose proof (prefs_set_limits (prefs m) SAVED_FLG 170
                ltac:(unfold SAVED_FLG; lia) Hm) as H.
  cbv zeta in H.
  remember (prefs_set (prefs m) SAVED_FLG 170) as r eqn:Er. clear Er.
  injection E as E1 E2. rewrite E1 in H, E2.
  destruct H as (Hl' & H0 & _ & _ & Hw & _).
  assert (H170 : get p' SAVED_FLG = 170).
  { change (Z.min SAVED_FLG 7) with 0 in H0, Hw. unfold SAVED_FLG.
    rewrite H0, Hw by discriminate. reflexivity. }
  assert (Hee : forall a, ee' a = if (0 <=? a) && (a <? NUM_PREFS)
                                  then get p' a else ee a).
  { intros a. rewrite <- E2. apply save_all. }
  assert (Hr : forall q, prefs_init q ee'
                = put p' KOCH_SKIP
                    (if get p' KOCH_NUM <=? get p' KOCH_SKIP
                     then get p' KOCH_NUM - 1 else get p' KOCH_SKIP)).
  { intros q. unfold prefs_init.
    replace (ee' 0 =? 170) with true
      by (symmetry; apply Z.eqb_eq; rewrite Hee; exact H170).
    rewrite restore_table.
    rewrite (Hee 0), (Hee 1), (Hee 2), (Hee 3), (Hee 4), (Hee 5), (Hee 6),
      (Hee 7).
    cbn [Z.leb Z.ltb Z.compare Pos.compare Pos.compare_cont andb NUM_PREFS].
    clear - Hl'. destruct p' as [a b c d e f g h].
    apply within_limits_fields in Hl'.
    cbn [get put KOCH_SKIP KOCH_NUM].
    rewrite !wrapped_within by (limits; lia).
    destruct (Z.leb_spec f g); [rewrite to_byte_small by lia|]; reflexivity. }
  split; [exact Hl'|]. split; [exact H170|]. split; [exact Hee|].
  split; [exact Hr|].
  intros Hlt q. rewrite Hr.
  replace (get p' KOCH_NUM <=? get p' KOCH_SKIP) with false
    by (symmetry; apply Z.leb_gt; exact Hlt).
  destruct p'. reflexivity.
Qed.

Lemma saved_prefs_restore_witness :
  prefs_init zeroed
    (save (Z.to_nat NUM_PREFS) 0 (Prefs 170 2 0 25 5 5 0 1) (fun _ => 0))
  = Prefs 170 2 0 25 5 5 0 1.
Proof.
  refine (proj2 (proj2 (proj2 (proj2
            (saved_prefs_restore (Prefs 0 1 0 25 5 5 0 1)
               (Prefs 170 2 0 25 5 5 0 1) (fun _ => 0) _
               [BUTTON_RIGHT; BUTTON_SELECT] _ _)))) _ zeroed).
  - apply within_limits_fields. lia.
  - reflexivity.
  - cbn. lia.
Defined.

End Preferences.

(** ** The main menu and the buttons *)
Section Menus.

Import Trainer.

Ltac ltbs :=
  repeat match goal with
         | |- context [?a <? ?b] =>
             lazymatch a with
             | context [Z.ltb] => fail
             | _ => lazymatch b with
                    | context [Z.ltb] => fail
                    | _ => destruct (Z.ltb_spec a b)
                    end
             end
         end.

Lemma menu_move_range (entry buttons : Z) :
  1 <= menu_move entry buttons <= 4.
Proof.
  unfold menu_move, constrain.
  ltbs; lia.
Qed.

Lemma get_mode_from_range (presses : list Z) (entry r : Z) :
  get_mode_from entry presses = Some r -> 1 <= r <= 4.
Proof.
  revert entry. induction presses as [|b rest IH]; intros entry E;
    cbn [get_mode_from] in E; [discriminate|].
  destruct (pressed b BUTTON_SELECT).
  - injection E as <-. pose proof (menu_move_range entry b).
    rewrite to_byte_small; lia.
  - exact (IH _ E).
Qed.

Lemma get_mode_from_none (presses : list Z) (entry : Z) :
  get_mode_from entry presses = None
  <-> Forall (fun b => pressed b BUTTON_SELECT = false) presses.
Proof.
  revert entry. induction presses as [|b rest IH]; intros entry;
    cbn [get_mode_from].
  - split; [constructor|reflexivity].
  - destruct (pressed b BUTTON_SELECT) eqn:Eb.
    + split; [discriminate|]. intros H. inversion H; congruence.
    + rewrite IH. split; [constructor; assumption|].
      intros H. inversion H; assumption.
Qed.

(** X16.  The main menu: [get_mode] returns one of the four entries 1 to
    4, and it returns as soon as a press has the select button: there is
    no result exactly when no press has it. *)
Theorem get_mode_selects (presses : list Z) :
  (forall r, get_mode presses = Some r -> 1 <= r <= 4)
  /\ (get_mode presses = None
      <-> Forall (fun b => pressed b BUTTON_SELECT = false) presses).
Proof.
  split.
  - intros r. apply get_mode_from_range.
  - apply get_mode_from_none.
Qed.

Lemma menu_move_down (entry : Z) :
  1 <= entry <= 4 ->
  menu_move entry BUTTON_DOWN = if entry =? 4 then 1 else entry + 1.
Proof.
  intros H. unfold menu_move.
  change (pressed BUTTON_DOWN BUTTON_UP) with false.
  change (pressed BUTTON_DOWN BUTTON_DOWN) with true.
  cbv iota. unfold constrain.
  destruct (Z.eqb_spec entry 4);
    ltbs; lia.
Qed.

Lemma menu_move_up (entry : Z) :
  1 <= entry <= 4 ->
  menu_move entry BUTTON_UP = Z.max 1 (entry - 1).
Proof.
  intros H. unfold menu_move.
  change (pressed BUTTON_UP BUTTON_UP) with true.
  change (pressed BUTTON_UP BUTTON_DOWN) with false.
  cbv iota. unfold constrain.
  ltbs; lia.
Qed.

Lemma menu_move_select (entry : Z) :
  1 <= entry <= 4 -> menu_move entry BUTTON_SELECT = entry.
Proof.
  intros H. unfold menu_move.
  change (pressed BUTTON_SELECT BUTTON_UP) with false.
  change (pressed BUTTON_SELECT BUTTON_DOWN) with false.
  cbv iota. unfold constrain.
  ltbs; lia.
Qed.

Lemma get_mode_from_downs (k : nat) (entry : Z) :
  1 <= entry <= 4 ->
  get_mode_from entry (repeat BUTTON_DOWN k ++ [BUTTON_SELECT])
  = Some (1 + (entry - 1 + Z.of_nat k) mod 4).
Proof.
  revert entry. induction k as [|k IH]; intros entry H.
  - cbn [repeat app get_mode_from].
    change (pressed BUTTON_SELECT BUTTON_SELECT) with true. cbv iota.
    rewrite menu_move_select, to_byte_small by lia.
    rewrite Z.add_0_r, Z.mod_small by lia. f_equal. lia.
  - cbn [repeat app get_mode_from].
    change (pressed BUTTON_DOWN BUTTON_SELECT) with false. cbv iota.
    rewrite menu_move_down by exact H.
    destruct (Z.eqb_spec entry 4) as [->|Hn].
    + rewrite IH by lia. do 2 f_equal.
      replace (4 - 1 + Z.of_nat (S k)) with (1 - 1 + Z.of_nat k + 1 * 4)
        by lia.
      rewrite Z.mod_add by lia. reflexivity.
    + rewrite IH by lia. do 3 f_equal. lia.
Qed.

Lemma get_mode_from_ups (k : nat) (entry : Z) :
  1 <= entry <= 4 ->
  get_mode_from entry (repeat BUTTON_UP k ++ [BUTTON_SELECT])
  = Some (Z.max 1 (entry - Z.of_nat k)).
Proof.
  revert entry. induction k as [|k IH]; intros entry H.
  - cbn [repeat app get_mode_from].
    change (pressed BUTTON_SELECT BUTTON_SELECT) with true. cbv iota.
    rewrite menu_move_select, to_byte_small by lia. f_equal. lia.
  - cbn [repeat app get_mode_from].
    change (pressed BUTTON_UP BUTTON_SELECT) with false. cbv iota.
    rewrite menu_move_up by exact H.
    rewrite IH by lia. f_equal. lia.
Qed.

(** X17.  The arrows of the main menu: from the first entry, [k] presses
    of the down button and the select button give the entry
    [1 + k mod 4], so that the menu wraps from the fourth entry to the
    first; [k] presses of the up button and the select button give the
    first entry, so that the menu does not wrap upwards. *)
Theorem get_mode_wraps_down_only (k : nat) :
  get_mode (repeat BUTTON_DOWN k ++ [BUTTON_SELECT])
  = Some (1 + Z.of_nat k mod 4)
  /\ get_mode (repeat BUTTON_UP k ++ [BUTTON_SELECT]) = Some 1.
Proof.
  unfold get_mode. split.
  - rewrite get_mode_from_downs by lia. reflexivity.
  - rewrite get_mode_from_ups by lia. f_equal. lia.
Qed.

Ltac keys :=
  change (chars " dswa") with [32; 100; 115; 119; 97];
  change (chr " ") with 32; change (chr "d") with 100;
  change (chr "s") with 115; change (chr "w") with 119;
  change (chr "a") with 97; cbn [existsb orb].

Lemma readButtons_snoc (input : list char) (c : char) :
  readButtons (input ++ [c])
  = if existsb (Z.eqb c) (chars " dswa") then readButtons [c]
    else readButtons input.
Proof.
  unfold readButtons, char in *.
  match goal with |- context [fold_left ?f _ _] => set (step := f) end.
  rewrite fold_left_app.
  generalize (fold_left step input 0). intros r. subst step.
  cbn [fold_left]. keys.
  destruct (c =? 32); [reflexivity|].
  destruct (c =? 100); [reflexivity|].
  destruct (c =? 115); [reflexivity|].
  destruct (c =? 119); [reflexivity|].
  destruct (c =? 97); reflexivity.
Qed.

Lemma readButtons_key (c : char) :
  if existsb (Z.eqb c) (chars " dswa")
  then In (readButtons [c]) [1; 2; 4; 8; 16]
  else readButtons [c] = 0.
Proof.
  unfold readButtons. cbn [fold_left]. keys.
  destruct (c =? 32); [cbn; auto|].
  destruct (c =? 100); [cbn; auto|].
  destruct (c =? 115); [cbn; auto|].
  destruct (c =? 119); [cbn; auto|].
  destruct (c =? 97); [cbn; auto 6|]. reflexivity.
Qed.

Lemma readButtons_unknown (post pre : list char) :
  Forall (fun c => existsb (Z.eqb c) (chars " dswa") = false) post ->
  readButtons (pre ++ post) = readButtons pre.
Proof.
  induction post as [|c post IH] using rev_ind; intros H.
  - rewrite app_nil_r. reflexivity.
  - apply Forall_app in H. destruct H as [H1 H2].
    rewrite app_assoc, readButtons_snoc.
    inversion H2 as [|? ? Hc _]; subst. rewrite Hc. exact (IH H1).
Qed.

(** X18.  The buttons read from the serial port: [readButtons] returns
    the button of the last character among space, d, s, w and a that is
    waiting, whatever comes before it and whatever unknown characters
    come after it; this is one button (1, 2, 4, 8 or 16), never a
    combination; and it returns 0 when none of the characters waiting is
    one of the five. *)
Theorem readButtons_last_key (pre post : list char) (c : char) :
  Forall (fun c' => existsb (Z.eqb c') (chars " dswa") = false) post ->
  (In c (chars " dswa") ->
   readButtons (pre ++ c :: post) = readButtons [c]
   /\ In (readButtons [c]) [1; 2; 4; 8; 16])
  /\ readButtons post = 0.
Proof.
  intros Hpost. split.
  - intros Hc.
    assert (E : existsb (Z.eqb c) (chars " dswa") = true).
    { apply existsb_exists. exists c. split; [exact Hc|apply Z.eqb_refl]. }
    change (pre ++ c :: post) with (pre ++ [c] ++ post).
    rewrite app_assoc, readButtons_unknown by exact Hpost.
    rewrite readButtons_snoc, E. split; [reflexivity|].
    pose proof (readButtons_key c) as K. rewrite E in K. exact K.
  - exact (readButtons_unknown post [] Hpost).
Qed.

Lemma readButtons_last_key_witness :
  readButtons (chars "wxs?") = BUTTON_DOWN.
Proof.
  refine (proj1 (proj1 (readButtons_last_key (chars "wx") (chars "?")
                          (chr "s") _) _)).
  - repeat constructor.
  - cbn. auto.
Defined.

End Menus.

(** ** The trainer *)
Section Training.

Import Trainer.

(** What is asked of a character to send. *)
Lemma ch_buf_check :
  forallb (fun j =>
             forallb (fun cset =>
                        match ch_buf cset j with
                        | Some c =>
                            negb (c =? 0) && existsb (Z.eqb c) morseTable
                            && negb (c =? chr "*") && negb (c =? chr " ")
                            && negb (c =? chr "_")
                        | None => false
                        end) [0; 1])
          (map Z.of_nat (seq 0 40)) = true.
Proof. vm_compute. reflexivity. Qed.

Lemma ch_buf_sendable (cset j : Z) :
  0 <= cset <= 1 -> 0 <= j < 40 ->
  exists c, ch_buf cset j = Some c /\ c <> 0 /\ In c morseTable
            /\ c <> chr "*" /\ c <> chr " " /\ c <> chr "_".
Proof.
  intros Hc Hj.
  pose proof ch_buf_check as H. rewrite forallb_forall in H.
  specialize (H j (range_cases 0 40 j ltac:(lia))).
  rewrite forallb_forall in H.
  assert (Hin : In cset [0; 1]) by (cbn; lia).
  specialize (H cset Hin).
  destruct (ch_buf cset j) as [c|]; [|discriminate].
  exists c. split; [reflexivity|].
  apply andb_prop in H. destruct H as [H H5].
  apply andb_prop in H. destruct H as [H H4].
  apply andb_prop in H. destruct H as [H H3].
  apply andb_prop in H. destruct H as [H1 H2].
  apply existsb_exists in H2. destruct H2 as (x & Hx & Ex).
  apply Z.eqb_eq in Ex. subst x.
  repeat split; try exact Hx;
    match goal with
    | Hn : negb (c =? ?k) = true |- c <> ?k =>
        intros E; rewrite E in Hn; discriminate Hn
    end.
Qed.

Lemma trainer_characters (p : table) (j : Z) :
  within_limits p ->
  exists cset lo hi,
    char_range p = Some (cset, lo, hi)
    /\ (random_result lo hi j ->
        0 <= j < 40
        /\ exists c, ch_buf cset j = Some c /\ c <> 0 /\ In c morseTable
                     /\ c <> chr "*" /\ c <> chr " " /\ c <> chr "_").
Proof.
  intros Hl. destruct p as [a b c d e f g h].
  apply within_limits_fields in Hl.
  assert (He : e = 1 \/ e = 2 \/ e = 3 \/ e = 4 \/ e = 5 \/ e = 6) by lia.
  unfold char_range. cbn [get CHAR_SET KOCH_SKIP KOCH_NUM].
  assert (K : forall cset lo hi,
             0 <= cset <= 1 -> 0 <= lo < 40 -> hi <= 40 ->
             random_result lo hi j ->
             0 <= j < 40
             /\ exists c, ch_buf cset j = Some c /\ c <> 0
                          /\ In c morseTable
                          /\ c <> chr "*" /\ c <> chr " " /\ c <> chr "_").
  { intros cset lo hi Hc Hlo Hhi Hr. unfold random_result in Hr.
    assert (Hj : 0 <= j < 40)
      by (destruct (Z.leb_spec hi lo); lia).
    split; [exact Hj|]. apply ch_buf_sendable; assumption. }
  destruct He as [-> | [-> | [-> | [-> | [-> | ->]]]]]; cbn [Z.eqb Pos.eqb];
    do 3 eexists; (split; [reflexivity|]); apply K; lia.
Qed.

(** X19.  The characters of the trainer: with the preferences within
    their limits the switch on the character set always chooses a set and
    a range, and whatever index [random(lo, hi)] returns, also when the
    range is empty, [ch_buf[j]] is a character of the chosen set, not its
    terminating NUL, and a character that the decoder has in its table:
    neither the mark of an unused position, nor the space, nor the
    underscore. *)
Theorem trainer_sends_table_characters (p : table) (j : Z) :
  within_limits p ->
  exists cset lo hi,
    char_range p = Some (cset, lo, hi)
    /\ (random_result lo hi j ->
        0 <= j < 40
        /\ exists c, ch_buf cset j = Some c /\ c <> 0 /\ In c morseTable
                     /\ c <> chr "*" /\ c <> chr " " /\ c <> chr "_").
Proof. exact (trainer_characters p j). Qed.

Lemma trainer_sends_table_characters_witness :
  exists cset lo hi,
    char_range (Prefs 170 1 0 25 5 5 0 1) = Some (cset, lo, hi)
    /\ (random_result lo hi 3 ->
        0 <= 3 < 40
        /\ exists c, ch_buf cset 3 = Some c /\ c <> 0 /\ In c morseTable
                     /\ c <> chr "*" /\ c <> chr " " /\ c <> chr "_").
Proof.
  apply (trainer_sends_table_characters (Prefs 170 1 0 25 5 5 0 1) 3).
  apply within_limits_fields. lia.
Defined.

(** X20.  The speed of the trainer: the decoder that [morse_trainer]
    sets to the preferred speed has a dot time from 40 to 120
    milliseconds, a dash time of three dot times and a word space of
    seven, up to the remainders of the three divisions. *)
Theorem trainer_decoder_timing (p : table) (d : morseDecoder.t) :
  within_limits p ->
  let d' := morseDecoder.setspeed d (get p KEY_SPEED) in
  morseDecoder.wpm d' = get p KEY_SPEED
  /\ 40 <= morseDecoder.dotTime d' <= 120
  /\ 3 * morseDecoder.dotTime d' <= morseDecoder.dashTime d'
     <= 3 * morseDecoder.dotTime d' + 2
  /\ 7 * morseDecoder.dotTime d' <= morseDecoder.wordSpace d'
     <= 7 * morseDecoder.dotTime d' + 6.
Proof.
  intros Hl. destruct p as [a b c w e f g h].
  apply within_limits_fields in Hl. cbn [get KEY_SPEED].
  assert (Hw : In w (map Z.of_nat (seq 10 21)))
    by (apply range_cases; lia).
  destruct d. vm_compute in Hw.
  repeat (destruct Hw as [<-|Hw]; [vm_compute; intuition discriminate|]).
  destruct Hw.
Qed.

Lemma trainer_decoder_timing_witness :
  40 <= morseDecoder.dotTime
          (morseDecoder.setspeed (morseDecoder.new 2 false true) 13) <= 120.
Proof.
  refine (proj1 (proj2 (trainer_decoder_timing (Prefs 170 1 0 13 5 5 0 1)
                          (morseDecoder.new 2 false true) _))).
  apply within_limits_fields. lia.
Defined.

(** X21.  The characters of the trainer can be answered: with the
    preferences within their limits, every character that
    [morse_trainer] can choose, sent by the encoder at the preferred speed
    to a decoder set to that speed (pin wired to pin, one loop iteration
    per millisecond), is decoded as itself and as nothing else. *)
Theorem trainer_characters_are_heard (p : table) (cset lo hi j : Z)
        (c : char) :
  within_limits p ->
  char_range p = Some (cset, lo, hi) ->
  random_result lo hi j ->
  ch_buf cset j = Some c ->
  Rig.roundtrip (get p KEY_SPEED) 1 [c] = Some [c].
Proof.
  intros Hl Hr Hj Hc.
  destruct (trainer_characters p j Hl) as (cset' & lo' & hi' & Hr' & K).
  rewrite Hr in Hr'. injection Hr' as <- <- <-.
  destruct (K Hj) as (_ & c' & Hc' & _ & Hin & H1 & H2 & H3).
  rewrite Hc in Hc'. injection Hc' as <-.
  assert (Hz : 0 < c <= chr "Z").
  { pose proof (proj1 (forallb_forall _ _) table_upto_Z_check c Hin) as H.
    cbv beta in H. apply orb_true_iff in H. destruct H as [H|H].
    - apply Z.eqb_eq in H. contradiction.
    - apply andb_true_iff in H. lia. }
  assert (Hcap : morseEncoder.capital c = c).
  { unfold morseEncoder.capital.
    replace (chr "Z" <? c) with false by (symmetry; apply Z.ltb_ge; lia).
    reflexivity. }
  assert (Hw : 1 <= get p KEY_SPEED <= 54).
  { destruct p. apply within_limits_fields in Hl. cbn [get KEY_SPEED]. lia. }
  rewrite <- Hcap at 2.
  apply roundtrip_speed; rewrite ?Hcap; assumption.
Qed.

Lemma trainer_characters_are_heard_witness :
  Rig.roundtrip 25 1 [chr "R"] = Some [chr "R"].
Proof.
  refine (trainer_characters_are_heard (Prefs 170 1 0 25 5 5 0 1) 1 0 5 2
            (chr "R") _ _ _ _).
  - apply within_limits_fields. lia.
  - reflexivity.
  - cbn. lia.
  - reflexivity.
Defined.


Lemma shown_letters_only (cs : list char) (s : display) :
  shown s cs = shown s (filter (fun c => negb (c =? chr " ")) cs).
Proof.
  revert s. induction cs as [|c cs IH]; intros s; [reflexivity|].
  cbn [shown filter]. destruct (negb (c =? chr " ")) eqn:Ec.
  - cbn [shown]. destruct (show s c); [apply IH|reflexivity].
  - unfold show. rewrite Ec. apply IH.
Qed.

Lemma show_letter (n : Z) (buf : list char) (c : char) :
  negb (c =? chr " ") = true ->
  show {| ch_cnt := n; caCwRx := buf |} c
  = let buf := if n =? 8 then repeat (chr " ") 8 ++ skipn 8 buf else buf in
    let n := to_byte ((if n =? 8 then 0 else n) + 1) in
    match cell_write buf n c with
    | None => None
    | Some b =>
        match cell_write b (n + 1) 10 with
        | None => None
        | Some b => Some {| ch_cnt := n; caCwRx := b |}
        end
    end.
Proof.
  intros Ec. unfold show. rewrite Ec. cbn [ch_cnt caCwRx].
  destruct (n =? 8); reflexivity.
Qed.

Lemma show_cell (n : nat) (buf : list char) (c : char) :
  negb (c =? chr " ") = true -> List.length buf = 9%nat -> (n < 7)%nat ->
  show {| ch_cnt := Z.of_nat n; caCwRx := buf |} c
  = Some {| ch_cnt := Z.of_nat (S n);
            caCwRx := firstn (S n) buf ++ c :: 10 :: skipn (n + 3) buf |}.
Proof.
  intros Ec Hb Hn. rewrite show_letter by exact Ec.
  do 9 (destruct buf as [|? buf]; [discriminate Hb|]).
  destruct buf; [|discriminate Hb].
  do 7 (destruct n as [|n]; [vm_compute; reflexivity|]). lia.
Qed.

Lemma show_past_the_end (buf : list char) (c : char) :
  negb (c =? chr " ") = true -> List.length buf = 9%nat ->
  show {| ch_cnt := Z.of_nat 7; caCwRx := buf |} c = None.
Proof.
  intros Ec Hb. rewrite show_letter by exact Ec.
  do 9 (destruct buf as [|? buf]; [discriminate Hb|]).
  destruct buf; [|discriminate Hb]. vm_compute. reflexivity.
Qed.

Lemma shown_row (l : list char) :
  Forall (fun c => negb (c =? chr " ") = true) l ->
  l <> [] ->
  shown display0 l
  = if (List.length l <=? 7)%nat
    then Some {| ch_cnt := Z.of_nat (List.length l);
                 caCwRx := chr " " :: l
                           ++ 10 :: skipn (List.length l + 2)
                                      (caCwRx display0) |}
    else None.
Proof.
  intros Hl Hne. unfold display0. change 0 with (Z.of_nat 0) at 1.
  destruct l as [|c1 l]; [contradiction Hne; reflexivity|]. clear Hne.
  apply Forall_cons_iff in Hl; destruct Hl as [? Hl].
  cbn [shown]. rewrite show_cell by (try assumption; try reflexivity; lia).
  do 6 (destruct l as [|? l]; [reflexivity|];
        apply Forall_cons_iff in Hl; destruct Hl as [? Hl];
        cbn [shown];
        rewrite show_cell by (try assumption; try reflexivity; lia)).
  destruct l as [|? l]; [reflexivity|].
  apply Forall_cons_iff in Hl; destruct Hl as [? Hl].
  cbn [shown].
  rewrite show_past_the_end by (try assumption; reflexivity).
  reflexivity.
Qed.

(** X22.  The row of the decoder's display: [morse_decode] skips the
    spaces; the first seven other characters of a row are stored in
    [caCwRx] from index 1 on, each followed by a newline, over what the
    buffer held; with the seventh the buffer has lost its terminating
    NUL; and the eighth, stored at index 8, puts its newline at index 9,
    past the end of the nine cells, before the counter can reach the
    value at which the row is cleared. *)
Theorem morse_decode_row (cs : list char) :
  Forall (fun c => c <> 0) cs ->
  let l := filter (fun c => negb (c =? chr " ")) cs in
  (l = [] -> shown display0 cs = Some display0)
  /\ (l <> [] -> (List.length l <= 7)%nat ->
      shown display0 cs
      = Some {| ch_cnt := Z.of_nat (List.length l);
                caCwRx := chr " " :: l
                          ++ 10 :: skipn (List.length l + 2)
                                     (caCwRx display0) |})
  /\ (List.length l = 7%nat ->
      forall s, shown display0 cs = Some s -> ~ In 0 (caCwRx s))
  /\ ((8 <= List.length l)%nat -> shown display0 cs = None).
Proof.
  intros Hz l. rewrite shown_letters_only. fold l.
  assert (Hl : Forall (fun c => negb (c =? chr " ") = true) l).
  { apply Forall_forall. intros c Hc. apply filter_In in Hc. apply Hc. }
  assert (Hz' : Forall (fun c => c <> 0) l).
  { apply Forall_forall. intros c Hc. apply filter_In in Hc.
    rewrite Forall_forall in Hz. apply Hz, Hc. }
  clearbody l. clear Hz cs.
  split; [intros ->; reflexivity|].
  split.
  { intros Hne Hn. rewrite shown_row by assumption. unfold char in *.
    match goal with
    | |- context [(?a <=? 7)%nat] => destruct (Nat.leb_spec a 7)
    end; [reflexivity|lia]. }
  split.
  { intros Hn s E.
    assert (Hne : l <> []) by (intros ->; discriminate Hn).
    rewrite shown_row in E by assumption. unfold char in *.
    match type of E with
    | context [(?a <=? 7)%nat] => destruct (Nat.leb_spec a 7)
    end; [|discriminate E].
    injection E as <-. cbn [caCwRx].
    intros Hin. cbn [In] in Hin. destruct Hin as [E|Hin]; [discriminate E|].
    apply in_app_or in Hin. destruct Hin as [Hin|Hin].
    - rewrite Forall_forall in Hz'. exact (Hz' 0 Hin eq_refl).
    - match type of Hin with
      | In 0 (10 :: ?x) =>
          assert (Hs : x = []) by (apply skipn_all2; cbn; lia);
          rewrite Hs in Hin
      end. cbn [In] in Hin. destruct Hin as [E|[]].
      discriminate E. }
  intros Hn.
  assert (Hne : l <> []) by (intros ->; cbn in Hn; lia).
  rewrite shown_row by assumption. unfold char in *.
  match goal with
  | |- context [(?a <=? 7)%nat] => destruct (Nat.leb_spec a 7)
  end; [lia|reflexivity].
Qed.

Lemma morse_decode_row_witness :
  shown display0 (chars "CQ CQ DE A B") = None.
Proof.
  refine (proj2 (proj2 (proj2 (morse_decode_row (chars "CQ CQ DE A B") _)))
            _).
  - repeat constructor; discriminate.
  - cbn. lia.
Defined.

End Training.

(** ** The classes of characters *)
Section Classes.

Import Trainer.

(** The characters at the indices from [lo] up to [lo + n] of a
    buffer. *)
Lemma chosen_slice (buf : Z -> option char) (lo : Z) (n : nat) (c : char)
      (l : list char) :
  0 <= lo ->
  map (fun k => buf (lo + Z.of_nat k)) (seq 0 (S n)) = map Some l ->
  (exists j, random_result lo (lo + Z.of_nat (S n)) j /\ buf j = Some c)
  <-> In c l.
Proof.
  intros Hlo Hm. unfold random_result.
  replace (lo + Z.of_nat (S n) <=? lo) with false
    by (symmetry; apply Z.leb_gt; lia).
  split.
  - intros (j & Hj & Hc).
    assert (Hin : In (Some c) (map Some l)).
    { rewrite <- Hm. apply in_map_iff. exists (Z.to_nat (j - lo)). split.
      - rewrite Z2Nat.id by lia. replace (lo + (j - lo)) with j by lia.
        exact Hc.
      - apply in_seq. lia. }
    apply in_map_iff in Hin. destruct Hin as (x & Ex & Hx).
    injection Ex as ->. exact Hx.
  - intros Hin.
    assert (Hin' : In (Some c) (map Some l)) by (apply in_map; exact Hin).
    rewrite <- Hm in Hin'. apply in_map_iff in Hin'.
    destruct Hin' as (k & Ek & Hk). apply in_seq in Hk.
    exists (lo + Z.of_nat k). split; [lia|exact Ek].
Qed.

Lemma in_range (lo n : nat) (c : Z) :
  In c (map Z.of_nat (seq lo n))
  <-> Z.of_nat lo <= c < Z.of_nat lo + Z.of_nat n.
Proof.
  split.
  - intros H. apply in_map_iff in H. destruct H as (k & <- & Hk).
    apply in_seq in Hk. lia.
  - apply range_cases.
Qed.

(** X23.  The classes of characters of the trainer: with character set
    1 the characters that [random(lo, hi)] can choose are exactly the 26
    letters, with set 2 exactly the ten digits, with set 3 exactly the
    comma, the full stop, the slash and the question mark, and with set 4
    exactly these 40 characters: the upper end of each range is one past
    the last index of the class. *)
Theorem trainer_character_classes (p : table) (cset lo hi : Z) (c : char) :
  char_range p = Some (cset, lo, hi) ->
  let chosen := exists j, random_result lo hi j /\ ch_buf cset j = Some c in
  (get p CHAR_SET = 1 -> (chosen <-> chr "A" <= c <= chr "Z"))
  /\ (get p CHAR_SET = 2 -> (chosen <-> chr "0" <= c <= chr "9"))
  /\ (get p CHAR_SET = 3 -> (chosen <-> In c (chars ",./?")))
  /\ (get p CHAR_SET = 4 ->
      (chosen <-> chr "0" <= c <= chr "9" \/ chr "A" <= c <= chr "Z"
                  \/ In c (chars ",./?"))).
Proof.
  intros Hr. cbv zeta. unfold char_range in Hr.
  split; [|split; [|split]]; intros E; rewrite E in Hr;
    cbn [Z.eqb Pos.eqb] in Hr; injection Hr as <- <- <-.
  - rewrite (chosen_slice (ch_buf 0) 10 25 c (chars "ABCDEFGHIJKLMNOPQRSTUVWXYZ"))
      by (try lia; reflexivity).
    change (chars "ABCDEFGHIJKLMNOPQRSTUVWXYZ")
      with (map Z.of_nat (seq 65 26)).
    rewrite in_range. change (chr "A") with 65. change (chr "Z") with 90. lia.
  - rewrite (chosen_slice (ch_buf 0) 0 9 c (chars "0123456789"))
      by (try lia; reflexivity).
    change (chars "0123456789") with (map Z.of_nat (seq 48 10)).
    rewrite in_range. change (chr "0") with 48. change (chr "9") with 57. lia.
  - rewrite (chosen_slice (ch_buf 0) 36 3 c (chars ",./?"))
      by (try lia; reflexivity).
    reflexivity.
  - rewrite (chosen_slice (ch_buf 0) 0 39 c
               (chars "0123456789ABCDEFGHIJKLMNOPQRSTUVWXYZ,./?"))
      by (try lia; reflexivity).
    change (chars "0123456789ABCDEFGHIJKLMNOPQRSTUVWXYZ,./?")
      with (map Z.of_nat (seq 48 10) ++ map Z.of_nat (seq 65 26)
            ++ chars ",./?").
    rewrite !in_app_iff, !in_range.
    change (chr "A") with 65. change (chr "Z") with 90.
    change (chr "0") with 48. change (chr "9") with 57.
    split; intros [H|[H|H]]; auto; [left|right; left|left|right; left]; lia.
Qed.

Lemma trainer_character_classes_witness :
  (exists j, random_result 10 36 j /\ ch_buf 0 j = Some (chr "Z")).
Proof.
  refine (proj2 (proj1 (trainer_character_classes (Prefs 170 1 0 25 1 5 0 1)
                          0 10 36 (chr "Z") _) _) _).
  - reflexivity.
  - reflexivity.
  - cbn. lia.
Defined.

(** X24.  The classes of characters of the earlier sketch: there the
    upper ends of the ranges are the last indices of the classes, and
    [random(lo, hi)] never returns its upper end, so that the last
    character of each class is never chosen: with character set 1 the
    letters A to Y but not Z, with set 2 the digits 0 to 8 but not 9, with
    sets 3 and 4 not the question mark. *)
Theorem old_trainer_character_classes (prefs : Z -> Z) (cset lo hi : Z)
        (c : char) :
  TrainerOld.char_range prefs = Some (cset, lo, hi) ->
  let chosen :=
    exists j, random_result lo hi j /\ TrainerOld.ch_buf cset j = Some c in
  (prefs TrainerOld.CHAR_SET = 1 -> (chosen <-> chr "A" <= c <= chr "Y"))
  /\ (prefs TrainerOld.CHAR_SET = 2 -> (chosen <-> chr "0" <= c <= chr "8"))
  /\ (prefs TrainerOld.CHAR_SET = 3 -> (chosen <-> In c (chars ",./")))
  /\ (prefs TrainerOld.CHAR_SET = 4 ->
      (chosen <-> chr "0" <= c <= chr "9" \/ chr "A" <= c <= chr "Z"
                  \/ In c (chars ",./"))).
Proof.
  intros Hr. cbv zeta. unfold TrainerOld.char_range in Hr.
  split; [|split; [|split]]; intros E; rewrite E in Hr;
    cbn [Z.eqb Pos.eqb] in Hr; injection Hr as <- <- <-.
  - rewrite (chosen_slice (TrainerOld.ch_buf 0) 10 24 c
               (chars "ABCDEFGHIJKLMNOPQRSTUVWXY"))
      by (try lia; reflexivity).
    change (chars "ABCDEFGHIJKLMNOPQRSTUVWXY")
      with (map Z.of_nat (seq 65 25)).
    rewrite in_range. change (chr "A") with 65. change (chr "Y") with 89. lia.
  - rewrite (chosen_slice (TrainerOld.ch_buf 0) 0 8 c (chars "012345678"))
      by (try lia; reflexivity).
    change (chars "012345678") with (map Z.of_nat (seq 48 9)).
    rewrite in_range. change (chr "0") with 48. change (chr "8") with 56. lia.
  - rewrite (chosen_slice (TrainerOld.ch_buf 0) 36 2 c (chars ",./"))
      by (try lia; reflexivity).
    reflexivity.
  - rewrite (chosen_slice (TrainerOld.ch_buf 0) 0 38 c
               (chars "0123456789ABCDEFGHIJKLMNOPQRSTUVWXYZ,./"))
      by (try lia; reflexivity).
    change (chars "0123456789ABCDEFGHIJKLMNOPQRSTUVWXYZ,./")
      with (map Z.of_nat (seq 48 10) ++ map Z.of_nat (seq 65 26)
            ++ chars ",./").
    rewrite !in_app_iff, !in_range.
    change (chr "A") with 65. change (chr "Z") with 90.
    change (chr "0") with 48. change (chr "9") with 57.
    split; intros [H|[H|H]]; auto; [left|right; left|left|right; left]; lia.
Qed.

Lemma old_trainer_character_classes_witness :
  exists j, random_result 10 35 j
            /\ TrainerOld.ch_buf 0 j = Some (chr "Y").
Proof.
  refine (proj2 (proj1 (old_trainer_character_classes
                          (fun i => if i =? 3 then 1 else 0)
                          0 10 35 (chr "Y") _) _) _).
  - reflexivity.
  - reflexivity.
  - cbn. lia.
Defined.

End Classes.

(** ** The encoder: the change to a capital letter *)
Section Capital.

Import morseEncoder.

(** What line 304 does to a character: nothing up to [Z], and 32 less for
    every character above [Z], letter or not. *)
Lemma capital_cases (c : char) :
  (c <= chr "Z" -> capital c = c)
  /\ (chr "Z" < c <= 127 -> capital c = c - 32).
Proof.
  unfold capital. split; intros H.
  - replace (chr "Z" <? c) with false by (symmetry; apply Z.ltb_ge; exact H).
    reflexivity.
  - replace (chr "Z" <? c) with true by (symmetry; apply Z.ltb_lt; lia).
    unfold to_char. change (chr "z" - chr "Z") with 32.
    change (chr "Z") with 90 in H.
    rewrite Z.mod_small by lia. lia.
Qed.

(** C7 (the code at the failing input).  The underscore is a character of
    the table and is not a lowercase letter, yet line 304 turns it into the
    question mark: the encoder plans and sends the six signals of the
    question mark for it, which the decoder reads as a question mark. *)
Theorem underscore_sent_as_question_mark :
  In (chr "_") morseTable
  /\ capital (chr "_") = chr "?"
  /\ to_list (morseSignalString
                (fst (encode (write (new 13) (chr "_")) 0 false)))
     = chars "..--.." ++ [0]
  /\ to_list (morseSignalString
                (fst (encode (write (new 13) (chr "?")) 0 false)))
     = chars "..--.." ++ [0]
  /\ Rig.roundtrip 13 1 [chr "_"] = Some [chr "?"].
Proof.
  split; [vm_compute; tauto|]. repeat split; vm_compute; reflexivity.
Qed.

End Capital.

(** ** Round trip *)
Section RoundTrip.

Lemma letters_spec (c : char) :
  In c letters <->
  In c morseTable /\ c <> chr "*" /\ c <> chr " " /\ c <> chr "_".
Proof.
  unfold letters. rewrite filter_In, !andb_true_iff, !negb_true_iff.
  rewrite !Z.eqb_neq. tauto.
Qed.

(** C1 (amended).  At every speed up to 54 words per minute (a speed of
    zero or less being taken as 1 wpm by [setspeed]), with the encoder's
    pin wired to a fresh decoder set to the same speed and one loop
    iteration per millisecond, every character of the table other than the
    mark of an unused position, the space and the underscore is decoded as
    itself, and nothing else is decoded, while the encoder sends it; a
    space sent after such a character is decoded as a space after it. *)
Theorem roundtrip_letters (w : Z) (c : char) :
  w <= 54 ->
  In c morseTable -> c <> chr "*" -> c <> chr " " -> c <> chr "_" ->
  Rig.roundtrip w 1 [c] = Some [c]
  /\ Rig.roundtrip w 1 [c; chr " "] = Some [c; chr " "].
Proof.
  intros Hw H1 H2 H3 H4.
  assert (Hz : 0 < c <= chr "Z").
  { pose proof (proj1 (forallb_forall _ _) table_upto_Z_check c H1) as H.
    cbv beta in H. apply orb_true_iff in H. destruct H as [H|H].
    - apply Z.eqb_eq in H. contradiction.
    - apply andb_true_iff in H. lia. }
  assert (Hcap : morseEncoder.capital c = c).
  { unfold morseEncoder.capital.
    replace (chr "Z" <? c) with false by (symmetry; apply Z.ltb_ge; lia).
    reflexivity. }
  assert (Hl : letter c = true)
    by (apply letter_of_table; rewrite Hcap; assumption).
  assert (H0 : c <> 0) by lia.
  split.
  - rewrite (roundtrip_short w [c] Hw);
      [|repeat constructor; assumption|cbn; lia].
    cbn [heard_of]. rewrite Hl, Hcap. reflexivity.
  - rewrite (roundtrip_short w [c; chr " "] Hw);
      [|repeat constructor; try assumption; discriminate|cbn; lia].
    cbn [heard_of]. rewrite Hl, Hcap.
    change (letter (chr " ")) with false. reflexivity.
Qed.

Lemma roundtrip_letters_witness :
  Rig.roundtrip 13 1 [chr "Q"] = Some [chr "Q"].
Proof.
  refine (proj1 (roundtrip_letters 13 (chr "Q") _ _ _ _ _)).
  - lia.
  - vm_compute. tauto.
  - discriminate.
  - discriminate.
  - discriminate.
Defined.

(** C1 as stated fails for the space, which is a character of the table:
    sent alone to a fresh decoder it is a pause without signal, and the
    decoder yields nothing. *)
Lemma space_alone_not_heard :
  In (chr " ") morseTable
  /\ chr " " <> chr "*"
  /\ Rig.roundtrip 13 1 [chr " "] = Some []
  /\ Rig.roundtrip 13 1 [chr " "] <> Some [chr " "].
Proof.
  split; [vm_compute; tauto|]. split; [discriminate|].
  assert (E : Rig.roundtrip 13 1 [chr " "] = Some []) by (vm_compute; reflexivity).
  split; [exact E|]. rewrite E. discriminate.
Qed.

(** The debounce of 20 ms bounds the speed: at 60 words per minute the
    dot of 20 ms never passes it, and the decoder yields nothing. *)
Lemma roundtrip_60_wpm : Rig.roundtrip 60 1 [chr "E"] = Some [].
Proof. vm_compute. reflexivity. Qed.

(** The bound of 54 words per minute is the last speed at which the dot
    passes the debounce: at 55 the dot of 21 ms is lost as well. *)
Lemma roundtrip_55_wpm : Rig.roundtrip 55 1 [chr "E"] = Some [].
Proof. vm_compute. reflexivity. Qed.

End RoundTrip.

(** ** Too many pulses: the error mark *)
Section ErrorMark.

Import morseDecoder.

Lemma seven_dots_then_letter :
  forallb (fun c =>
             match Rig.after_keying Rig.seven_dots [c] with
             | Some l => list_char_eqb l [chr "#"; c]
             | None => false
             end) letters = true.
Proof. vm_compute. reflexivity. Qed.

(** C4 (amended).  When a seventh pulse ends after six pulses have been
    taken without a letter boundary (the jumper is 0 and the new pulse is
    not taken), the first tick that finds the signal released, the
    word-space pause not yet elapsed, writes the error mark into the
    mailbox and puts pointer and jumper back to the top of the tree on
    that same tick; once the mark has been fetched no call of the same
    silence writes it again; and seven dots keyed at 13 wpm and followed
    by any letter sent by the encoder are decoded as the error mark, once,
    and then that letter.  The pulses after the seventh start a new
    character. *)
Theorem overflow_error_mark (d : t) (now : Z) (s : sample) (cs : list call)
        (c : char) :
  gotLastSig d = false ->
  morseTableJumper d = 0 ->
  morseSignalState (decode d now s) = false ->
  space_due (sensed d now s) = false ->
  quiet (snd (read (decode d now s))) cs ->
  In c morseTable -> c <> chr "*" -> c <> chr " " -> c <> chr "_" ->
  (decodedMorseChar (decode d now s) = chr "#"
   /\ morseTableJumper (decode d now s) = 32
   /\ morseTablePointer (decode d now s) = 63
   /\ gotLastSig (decode d now s) = true)
  /\ decodedMorseChar (run (snd (read (decode d now s))) cs) <> chr "#"
  /\ Rig.after_keying Rig.seven_dots [c] = Some [chr "#"; c].
Proof.
  intros Hg Hj Hq Hsd Hcs H1 H2 H3 H4.
  assert (Hj' : morseTableJumper d <= 0) by lia.
  pose proof (error_mark_tick d now s Hg Hj' Hq Hsd) as Ht.
  split; [exact Ht|]. split.
  - destruct Ht as (_ & _ & _ & Hg').
    revert Hcs Hg'. generalize (decode d now s). intros x Hcs Hg'.
    apply no_mark_run; [destruct x; exact Hg'|destruct x; cbn; discriminate|].
    exact Hcs.
  - assert (Hin : In c letters) by (apply letters_spec; auto).
    pose proof (proj1 (forallb_forall _ _) seven_dots_then_letter c Hin) as H.
    cbv beta in H.
    destruct (Rig.after_keying Rig.seven_dots [c]) as [l|]; [|discriminate].
    unfold list_char_eqb in H.
    destruct (list_eq_dec Z.eq_dec l [chr "#"; c]); [congruence|discriminate].
Qed.

Lemma overflow_error_mark_witness :
  let keyed := List.concat (repeat [(true, 92); (false, 92)] 6)
                 ++ [(true, 92); (false, 21)] in
  let d := fst (fst (Rig.key keyed (new 4 false false) 0 1)) in
  morseTableJumper d = 0
  /\ decodedMorseChar (decode d 1217 (digital false)) = chr "#"
  /\ Rig.after_keying Rig.seven_dots [chr "K"] = Some [chr "#"; chr "K"].
Proof.
  cbv zeta. split; [vm_compute; reflexivity|].
  refine ((fun H => conj (proj1 (proj1 H)) (proj2 (proj2 H)))
            (overflow_error_mark
               (fst (fst (Rig.key
                            (List.concat (repeat [(true, 92); (false, 92)] 6)
                               ++ [(true, 92); (false, 21)])
                            (new 4 false false) 0 1)))
               1217 (digital false)
               [Decode 1218 (digital false); Read; Decode 1300 (digital false)]
               (chr "K") _ _ _ _ _ _ _ _ _)).
  - vm_compute. reflexivity.
  - vm_compute. reflexivity.
  - vm_compute. reflexivity.
  - vm_compute. reflexivity.
  - vm_compute. repeat split.
  - vm_compute. tauto.
  - discriminate.
  - discriminate.
  - discriminate.
Defined.

(** C4 as stated fails for 14 pulses: the eighth to the thirteenth are
    taken as a new character and the fourteenth overflows again, so the
    error mark is written twice. *)
Lemma fourteen_dots_two_marks :
  Rig.after_keying
    (List.concat (repeat [(true, 92); (false, 92)] 13)
       ++ [(true, 92); (false, 276)]) []
  = Some [chr "#"; chr "#"].
Proof. vm_compute. reflexivity. Qed.

End ErrorMark.
